(** * MyShell (myshall.c): a shallow embedding and its checked properties

    The development follows the layout of the C source:
    - [Parser]    : [parse_command] (strtok splitting, redirections, '&',
                    wildcard expansion, the fixed-capacity arrays);
    - [Executor]  : the descriptor wiring of [execute_system_command] and
                    [execute_multiple_pipes];
    - [Reaper]    : [sigchld_handler];
    - [FileSystem]: the POSIX calls that the tree operations use, over a
                    tree of files, directories and symbolic links;
    - [TreeOps]   : [recursive_delete], [recursive_copy] and the branches
                    of [execute_builtin] that call them.
    The modules whose names end in [Facts] hold what is proved about them.

    Modelling conventions.  C strings are [string]s; a [char *] that may be
    NULL is an [option string]; the NULL-terminated [args] rows are lists,
    and the parallel arrays of [main] are one list of rows.  Memory
    allocation ([strdup]) is taken to succeed.  What the operating system
    answers ([glob], [open], [pipe], [fork], [execvp]) is a parameter of the
    code that asks.  The [Debug:] lines that the shell prints on standard
    output are not part of the model. *)

From Stdlib Require Import ZArith Lia Ascii String Sorted DecimalString.
From stdpp Require Import base option list strings gmap.

Open Scope string_scope.
Open Scope list_scope.

(** ** Limits (the [#define]s of the source) *)

Definition MAX_ARGS : nat := 64.
Definition MAX_PIPES : nat := 10.
Definition MAX_PATH : nat := 512.
Definition MAX_RECURSION : Z := 100.

(** ** [strtok] *)

Module Strtok.

(** [strtok] keeps a saved pointer into the string being cut.  A call
    skips leading delimiters; at the end of the string it returns NULL;
    otherwise it returns the maximal run of non-delimiters and saves the
    position after the delimiter that ended it. *)

Fixpoint skip_delims (delim : ascii -> bool) (s : string) : string :=
  match s with
  | EmptyString => EmptyString
  | String c s' => if delim c then skip_delims delim s' else s
  end.

Fixpoint take_token (delim : ascii -> bool) (s : string) : string * string :=
  match s with
  | EmptyString => (EmptyString, EmptyString)
  | String c s' =>
      if delim c then (EmptyString, s')
      else let '(t, r) := take_token delim s' in (String c t, r)
  end.

Definition strtok (delim : ascii -> bool) (saved : string)
  : option string * string :=
  match skip_delims delim saved with
  | EmptyString => (None, EmptyString)
  | s => let '(t, r) := take_token delim s in (Some t, r)
  end.

(** All the tokens that successive calls return, first call included.
    Every returned token uses up at least one character, so the length of
    the string bounds the number of calls. *)
Fixpoint strtok_iter (fuel : nat) (delim : ascii -> bool) (saved : string)
  : list string :=
  match fuel with
  | O => []
  | S fuel' =>
      match strtok delim saved with
      | (None, _) => []
      | (Some t, r) => t :: strtok_iter fuel' delim r
      end
  end.

Definition strtok_all (delim : ascii -> bool) (s : string) : list string :=
  strtok_iter (String.length s) delim s.

End Strtok.

(** ** The parser *)

Module Parser.
Import Strtok.

(** One row of the arrays [args], [input_files], [output_files],
    [appends] that [main] hands to [parse_command]. *)
Record stage := mkStage {
  args : list string;
  input_file : option string;
  output_file : option string;
  append : bool
}.

Definition empty_stage : stage := mkStage [] None None false.

Record pipeline := mkPipeline {
  stages : list stage;          (* rows 0 .. num_commands - 1 *)
  background : bool
}.

Definition num_commands (p : pipeline) : nat := length (stages p).

(** The ways [parse_command] returns 0, with what it prints on stderr. *)
Inductive parse_error :=
| NoCommand                          (* silent: nothing to run *)
| MissingFile (op : string)          (* missing ... file after 'op' *)
| UnexpectedToken (token : string).  (* unexpected token after redirection *)

Inductive parse_result :=
| ParseOk (p : pipeline)             (* return 1 *)
| ParseFail (e : parse_error).       (* return 0 *)

Definition is_pipe (c : ascii) : bool := Ascii.eqb c "|".

(** The delimiter set [" \t\n"], also the set trimmed around a segment. *)
Definition is_blank (c : ascii) : bool :=
  Ascii.eqb c " " || Ascii.eqb c "009" || Ascii.eqb c "010".

(** [strchr(token, c) != NULL] *)
Fixpoint strchr (s : string) (c : ascii) : bool :=
  match s with
  | EmptyString => false
  | String d s' => Ascii.eqb d c || strchr s' c
  end.

Definition has_wildcard (token : string) : bool :=
  strchr token "*" || strchr token "?" || strchr token "[".

(** Trimming a segment: leading blanks are skipped, trailing blanks are
    overwritten with NUL from the end. *)
Fixpoint trim_right (s : string) : string :=
  match s with
  | EmptyString => EmptyString
  | String c s' =>
      match trim_right s' with
      | EmptyString => if is_blank c then EmptyString else String c EmptyString
      | t => String c t
      end
  end.

Definition trim (s : string) : string := trim_right (skip_delims is_blank s).

Section WithGlob.

(** The file system as [glob] sees it: the sorted path names matching a
    pattern (after tilde expansion), and whether the call runs out of
    memory. *)
Variable fs_match : string -> list string.
Variable glob_nospace : string -> bool.

(** [glob(pattern, GLOB_NOCHECK | GLOB_TILDE, NULL, &r)]: [Some paths]
    when it returns 0.  With GLOB_NOCHECK a pattern without a match is
    returned itself as the only path. *)
Definition glob (pattern : string) : option (list string) :=
  if glob_nospace pattern then None
  else match fs_match pattern with
       | [] => Some [pattern]
       | paths => Some paths
       end.

(** [for (j = 0; j < gl_pathc && i < MAX_ARGS - 1; j++) args[c][i++] = ...] *)
Fixpoint append_paths (paths : list string) (argv : list string)
  : list string :=
  match paths with
  | [] => argv
  | p :: ps =>
      if (length argv <? MAX_ARGS - 1)%nat
      then append_paths ps (argv ++ [p])
      else argv
  end.

(** The part of the token loop that stores an ordinary word. *)
Definition store_word (token : string) (argv : list string) : list string :=
  if has_wildcard token then
    match glob token with
    | Some paths => append_paths paths argv
    | None => argv ++ [token]
    end
  else argv ++ [token].

(** The token loop of one segment.  [token :: rest] are the tokens that
    [strtok] still has to return, [args st] holds [args[c][0..i-1]] (so [i]
    is its length), [last_cmd] is [c == *num_commands - 1].  Each [break]
    and each fall out of the [while] ends in [args[c][i] = NULL]: the row as
    it stands is the result, with whether [*background] was set. *)
Fixpoint walk_tokens (last_cmd : bool) (toks : list string)
    (prev_was_redirect : bool) (st : stage)
  : parse_error + (stage * bool) :=
  match toks with
  | [] => inr (st, false)
  | token :: rest =>
      if negb (length (args st) <? MAX_ARGS - 1)%nat then inr (st, false)
      else if String.eqb token ">" then
        match rest with
        | [] => inl (MissingFile ">")
        | file :: _ =>
            inr (mkStage (args st) (input_file st) (Some file) false, false)
        end
      else if String.eqb token ">>" then
        match rest with
        | [] => inl (MissingFile ">>")
        | file :: _ =>
            inr (mkStage (args st) (input_file st) (Some file) true, false)
        end
      else if String.eqb token "<" then
        match rest with
        | [] => inl (MissingFile "<")
        | file :: _ =>
            inr (mkStage (args st) (Some file) (output_file st) (append st),
                 false)
        end
      else if String.eqb token "&" && last_cmd then inr (st, true)
      else if prev_was_redirect then inl (UnexpectedToken token)
      else
        walk_tokens last_cmd rest false
          (mkStage (store_word token (args st))
                   (input_file st) (output_file st) (append st))
  end.

(** The first loop: [cmd_tokens[0 .. cmd_idx - 1]].  [room] is
    [MAX_PIPES - 1 - cmd_idx], [tok] is [cmd_tokens[cmd_idx]]. *)
Fixpoint split_pipes (room : nat) (tok : option string) (saved : string)
  : list string :=
  match tok, room with
  | Some t, S room' =>
      let '(tok', saved') := strtok is_pipe saved in
      t :: split_pipes room' tok' saved'
  | _, _ => []
  end.

(** The loop over the segments.  [n] is the value [*num_commands] has
    while the loop runs, [c] the loop index, [done] the rows filled so
    far and [bg] the flag. *)
Fixpoint parse_segments (n c : nat) (segs : list string)
    (done : list stage) (bg : bool) : parse_result :=
  match segs with
  | [] =>
      if (length done =? 0)%nat then ParseFail NoCommand
      else ParseOk (mkPipeline done bg)
  | seg :: segs' =>
      let trimmed := trim seg in
      match trimmed with
      | EmptyString =>   (* *num_commands = c; break *)
          if (length done =? 0)%nat then ParseFail NoCommand
          else ParseOk (mkPipeline done bg)
      | _ =>
          match walk_tokens (c =? n - 1)%nat
                  (strtok_all is_blank trimmed) false empty_stage with
          | inl e => ParseFail e
          | inr (st, bg') =>
              parse_segments n (S c) segs' (done ++ [st]) (bg || bg')
          end
      end
  end.

Definition parse_command (command : string) : parse_result :=
  let '(tok, saved) := strtok is_pipe command in
  let cmd_tokens := split_pipes (MAX_PIPES - 1) tok saved in
  match cmd_tokens with
  | [] => ParseFail NoCommand
  | _ => parse_segments (length cmd_tokens) 0 cmd_tokens [] false
  end.

End WithGlob.

(** What [main] does with the outcome of [parse_command] for one line. *)
Inductive dispatch :=
| NextLine                                   (* parse failed: free, continue *)
| MultiplePipes (p : pipeline)               (* execute_multiple_pipes *)
| SingleCommand (st : stage) (bg : bool).    (* builtin or system command *)

Definition main_dispatch (r : parse_result) : dispatch :=
  match r with
  | ParseFail _ => NextLine
  | ParseOk p =>
      if (1 <? num_commands p)%nat then MultiplePipes p
      else SingleCommand (nth 0 (stages p) empty_stage) (background p)
  end.

(** A row that holds arguments only. *)
Definition command (argv : list string) : stage := mkStage argv None None false.

(** Two directories to run the parser in: one where no pattern matches
    anything, one where ["*.c"] matches two files. *)
Definition no_matches : string -> list string := fun _ => [].

Definition two_c_files : string -> list string :=
  fun pattern => if String.eqb pattern "*.c" then ["a.c"; "b.c"] else [].

Definition enough_memory : string -> bool := fun _ => false.

End Parser.

(** ** The executor: which open file each descriptor of a child names *)

Module Executor.
Import Parser.

(** What a descriptor refers to. *)
Inductive file_desc :=
| Terminal                                   (* what the shell inherited *)
| PipeRead (k : nat)                         (* pipe between stages k, k+1 *)
| PipeWrite (k : nat)
| FileRead (path : string)                   (* open(path, O_RDONLY) *)
| FileWrite (path : string) (append : bool). (* O_WRONLY | O_CREAT | O_APPEND
                                                or O_TRUNC, mode 0644 *)

(** The descriptor table of a process.  [fork] copies it. *)
Abbreviation fd_table := (gmap nat file_desc).

(** The first unused descriptor among [n], [n + 1], ..., [n + fuel]. *)
Fixpoint first_free (t : fd_table) (n fuel : nat) : nat :=
  match fuel with
  | O => n
  | S fuel' =>
      match t !! n with
      | Some _ => first_free t (S n) fuel'
      | None => n
      end
  end.

(** The lowest unused descriptor, as [open] and [pipe] pick it.  The search
    can stop at [fresh (dom t)], which is above every used descriptor. *)
Definition lowest_free (t : fd_table) : nat := first_free t 0 (fresh (dom t)).

Definition dup2 (oldfd newfd : nat) (t : fd_table) : fd_table :=
  match t !! oldfd with
  | Some d => <[newfd := d]> t
  | None => t                                                   (* EBADF *)
  end.

Definition close (fd : nat) (t : fd_table) : fd_table := delete fd t.

(** [for (j = 0; j < count; j++) close(pipefd[j]);] *)
Definition close_all (fds : list nat) (t : fd_table) : fd_table :=
  foldl (fun t fd => close fd t) t fds.

(** [if (fd >= 0) close(fd);] with [None] for [-1]. *)
Definition close_if_open (fd : option nat) (t : fd_table) : fd_table :=
  match fd with
  | Some fd => close fd t
  | None => t
  end.

(** How a child ends the code of the shell: [exit] after a message on
    stderr, the program that [execvp] starts, or the signal that ends the
    child when [execvp] is handed the NULL of an empty row. *)
Inductive child_end :=
| Exit (status : Z) (message : string)
| Exec (argv : list string) (fds : fd_table) (new_session : bool)
| Fault.

(** How the parent leaves the launch function. *)
Inductive launch_end :=
| NothingToRun          (* args[0] == NULL *)
| PipeFailed
| ForkFailed
| Waited                (* waitpid on every child *)
| InBackground.         (* the pids are printed, nobody waits *)

Record launch := mkLaunch {
  children : list child_end;     (* in the order they were forked *)
  parent_fds : fd_table;
  parent_end : launch_end
}.

Section WithSystem.

(** The answers of the operating system: whether an [open] succeeds,
    whether [execvp] finds the program, whether the [k]-th [pipe] and the
    [i]-th [fork] fail. *)
Variable can_open : file_desc -> bool.
Variable executable : string -> bool.
Variable pipe_fails : nat -> bool.
Variable fork_fails : nat -> bool.

Definition sys_open (what : file_desc) (t : fd_table)
  : option (nat * fd_table) :=
  if can_open what then
    let fd := lowest_free t in Some (fd, <[fd := what]> t)
  else None.

(** [pipe(pipefd + k * 2)] *)
Definition sys_pipe (k : nat) (t : fd_table) : option (nat * nat * fd_table) :=
  if pipe_fails k then None
  else
    let r := lowest_free t in
    let t1 := <[r := PipeRead k]> t in
    let w := lowest_free t1 in
    Some (r, w, <[w := PipeWrite k]> t1).

(** The end of both children: [execvp(args[0], args)], and [exit(1)]
    after the message [report args[0]] when it returns.  [execvp(NULL, ...)]
    does not return: the child dies reading the name. *)
Definition execvp (report : string -> string) (argv : list string)
    (t : fd_table) (new_session : bool) : child_end :=
  match argv with
  | [] => Fault
  | prog :: _ =>
      if executable prog then Exec argv t new_session
      else Exit 1 (report prog)
  end.

Definition not_found (prog : string) : string :=
  "Error: Command '" +:+ prog +:+ "' not found or permission denied".

Definition execvp_failed (prog : string) : string :=
  "execvp failed: " +:+ prog.

(** *** [execute_system_command], the child *)

Definition system_child (st : stage) (bg : bool) (t : fd_table) : child_end :=
  let stdin_done :=
    match input_file st with
    | Some file =>
        match sys_open (FileRead file) t with
        | None => inl "open input failed"
        | Some (input_fd, t) => inr (Some input_fd, dup2 input_fd 0 t)
        end
    | None => inr (None, t)
    end in
  match stdin_done with
  | inl message => Exit 1 message
  | inr (input_fd, t) =>
      let stdout_done :=
        match output_file st with
        | Some file =>
            match sys_open (FileWrite file (append st)) t with
            | None => inl "open output failed"
            | Some (output_fd, t) => inr (Some output_fd, dup2 output_fd 1 t)
            end
        | None => inr (None, t)
        end in
      match stdout_done with
      | inl message => Exit 1 message
      | inr (output_fd, t) =>
          (* if (background) setsid(); *)
          let t := close_if_open input_fd t in
          let t := close_if_open output_fd t in
          execvp not_found (args st) t bg
      end
  end.

Definition execute_system_command (st : stage) (bg : bool) (t : fd_table)
  : launch :=
  match args st with
  | [] => mkLaunch [] t NothingToRun
  | _ =>
      if fork_fails 0 then mkLaunch [] t ForkFailed
      else mkLaunch [system_child st bg t] t
             (if bg then InBackground else Waited)
  end.

(** *** [execute_multiple_pipes], child [i] *)

(** [dup2(pipefd[j], newfd)] *)
Definition dup2_pipe (pipefd : list nat) (j newfd : nat) (t : fd_table)
  : fd_table :=
  match pipefd !! j with
  | Some fd => dup2 fd newfd t
  | None => t
  end.

Definition pipe_child (i num_commands : nat) (pipefd : list nat) (st : stage)
    (t : fd_table) : child_end :=
  let stdin_done :=
    match input_file st with
    | Some file =>
        match sys_open (FileRead file) t with
        | None => inl "open input failed"
        | Some (input_fd, t) => inr (Some input_fd, dup2 input_fd 0 t)
        end
    | None =>
        if (0 <? i)%nat then inr (None, dup2_pipe pipefd ((i - 1) * 2) 0 t)
        else inr (None, t)
    end in
  match stdin_done with
  | inl message => Exit 1 message
  | inr (input_fd, t) =>
      let stdout_done :=
        match output_file st with
        | Some file =>
            match sys_open (FileWrite file (append st)) t with
            | None => inl "open output failed"
            | Some (output_fd, t) => inr (Some output_fd, dup2 output_fd 1 t)
            end
        | None =>
            if (i <? num_commands - 1)%nat
            then inr (None, dup2_pipe pipefd (i * 2 + 1) 1 t)
            else inr (None, t)
        end in
      match stdout_done with
      | inl message => Exit 1 message
      | inr (output_fd, t) =>
          let t := close_all pipefd t in
          let t := close_if_open input_fd t in
          let t := close_if_open output_fd t in
          execvp execvp_failed (args st) t false
      end
  end.

(** *** [execute_multiple_pipes], the parent *)

(** The loop that creates the pipes: [k] is the loop index, [todo] the
    number of pipes still to create, [pipefd] the descriptors so far.
    [inl] is the table left after the clean-up of a failure. *)
Fixpoint create_pipes (todo k : nat) (pipefd : list nat) (t : fd_table)
  : fd_table + (list nat * fd_table) :=
  match todo with
  | O => inr (pipefd, t)
  | S todo' =>
      match sys_pipe k t with
      | None => inl (close_all pipefd t)
      | Some (r, w, t) => create_pipes todo' (S k) (pipefd ++ [r; w]) t
      end
  end.

(** The loop that forks: [i] is the loop index, [todo] the rows of the
    stages still to fork.  The table of the parent does not change in the
    loop, so every child starts from the same table [t].  The result is the
    children forked and whether a [fork] failed. *)
Fixpoint fork_children (i num_commands : nat) (pipefd : list nat)
    (todo : list stage) (t : fd_table) : list child_end * bool :=
  match todo with
  | [] => ([], false)
  | st :: todo' =>
      if fork_fails i then ([], true)
      else
        let '(cs, failed) :=
          fork_children (S i) num_commands pipefd todo' t in
        (pipe_child i num_commands pipefd st t :: cs, failed)
  end.

Definition execute_multiple_pipes (p : pipeline) (t : fd_table) : launch :=
  let n := num_commands p in
  match create_pipes (n - 1) 0 [] t with
  | inl t => mkLaunch [] t PipeFailed
  | inr (pipefd, t) =>
      let '(cs, failed) := fork_children 0 n pipefd (stages p) t in
      if failed then mkLaunch cs (close_all pipefd t) ForkFailed
      else mkLaunch cs (close_all pipefd t)
             (if background p then InBackground else Waited)
  end.

End WithSystem.

(** The table of a shell started from a terminal. *)
Definition terminal_fds : fd_table :=
  {[ 0 := Terminal; 1 := Terminal; 2 := Terminal ]}.

End Executor.

(** ** The reaper: [sigchld_handler] *)

Module Reaper.

(** The library calls the handler makes, in the order it makes them. *)
Inductive call :=
| Waitpid (result : Z)       (* waitpid(-1, NULL, WNOHANG) and its result *)
| Printf (text : string).    (* printf on the buffered standard output *)

(** POSIX lists [waitpid] among the functions that may be called from a
    signal handler; no function of stdio is on that list. *)
Definition async_signal_safe (c : call) : bool :=
  match c with
  | Waitpid _ => true
  | Printf _ => false
  end.

(** The children of the shell: the pids of those that have terminated and
    have not been waited for yet (in the order [waitpid] hands them out),
    and the number of those still running. *)
Record children := mkChildren {
  terminated : list positive;
  running : nat
}.

Definition decimal (pid : positive) : string :=
  NilEmpty.string_of_uint (Pos.to_uint pid).

Definition completed (pid : positive) : string :=
  "[PID " +:+ decimal pid +:+ "] Completed" +:+ String "010" "".

(** The loop [while ((pid = waitpid(-1, NULL, WNOHANG)) > 0) printf(...)]
    over the terminated children.  The last [waitpid] returns 0 when
    children are still running and -1 (ECHILD) when there is none. *)
Fixpoint drain (zombies : list positive) (still_running : nat) : list call :=
  match zombies with
  | pid :: zombies' =>
      Waitpid (Zpos pid) :: Printf (completed pid)
      :: drain zombies' still_running
  | [] => [Waitpid (if (0 <? still_running)%nat then 0 else -1)]
  end.

(** The handler: the calls it makes and the children it leaves. *)
Definition sigchld_handler (cs : children) : list call * children :=
  (drain (terminated cs) (running cs), mkChildren [] (running cs)).

(** What the handler has put on standard output. *)
Definition printed (calls : list call) : list string :=
  omap (fun c => match c with Printf text => Some text | _ => None end) calls.

End Reaper.

(** ** The file system calls used by the tree operations

    The calls are those of Linux, on one file system that is mounted for
    writing.  The model keeps what the tree operations can observe: the
    names, the kinds of the entries, the data of the files, the permission
    bits that decide for the owner, the umask, the lengths that a name and a
    path may have, and the bytes of file data that the disk can hold.  It
    leaves out other users and the superuser, whom no permission bit stops,
    hard links, special files, access-control lists, time stamps, the room
    that names and directories take on the disk, and any other process that
    changes the tree while the shell runs. *)

Module FileSystem.
Import Strtok.

Inductive errno :=
| ENOENT | ENOTDIR | EEXIST | EISDIR | ENOTEMPTY | ELOOP | EBUSY | EINVAL
| ENOSPC | EACCES | ENAMETOOLONG.

Definition strerror (e : errno) : string :=
  match e with
  | ENOENT => "No such file or directory"
  | ENOTDIR => "Not a directory"
  | EEXIST => "File exists"
  | EISDIR => "Is a directory"
  | ENOTEMPTY => "Directory not empty"
  | ELOOP => "Too many levels of symbolic links"
  | EBUSY => "Device or resource busy"
  | EINVAL => "Invalid argument"
  | ENOSPC => "No space left on device"
  | EACCES => "Permission denied"
  | ENAMETOOLONG => "File name too long"
  end.

(** What a name in a directory refers to.  [mode] holds the bits 01777 of
    [st_mode]: the permission bits and the sticky bit.  The set-user-ID and
    set-group-ID bits, which the kernel takes away from a file when it is
    written, are not part of the model.  Every entry belongs to the user of
    the shell, who is not the superuser: the owner's bits decide what a call
    may do. *)
Inductive node :=
| File (mode : Z) (data : string)
| Dir (mode : Z)
| Symlink (target : string).

(** The tree: each file by the list of names that leads to it from the
    root, without symbolic links on the way.  The root is the entry [[]];
    it is also the working directory of the shell. *)
Abbreviation tree := (gmap (list string) node).

(** The owner's bits of a mode: 0400, 0200 and 0100. *)
Definition may_read (mode : Z) : bool := Z.testbit mode 8.
Definition may_write (mode : Z) : bool := Z.testbit mode 7.
Definition may_search (mode : Z) : bool := Z.testbit mode 6.

(** The mode of a new entry: the bits 01777 of [mode] without those of
    the umask. *)
Definition S_IRWXUGO_ISVTX : Z := 1023.

Definition masked (umask mode : Z) : Z :=
  Z.land (Z.land mode S_IRWXUGO_ISVTX) (Z.lnot umask).

(** The bytes of file data that an entry takes on the disk, and those
    that the whole tree takes. *)
Definition size (n : node) : nat :=
  match n with
  | File _ data => String.length data
  | _ => 0
  end.

Definition used (t : tree) : nat :=
  map_fold (fun _ n total => size n + total) 0 t.

(** [S_ISDIR(st.st_mode)] and [st.st_mode]'s permission bits. *)
Definition S_ISDIR (n : node) : bool :=
  match n with Dir _ => true | _ => false end.

Definition st_mode (n : node) : Z :=
  match n with File m _ | Dir m => m | Symlink _ => 511 end.

Definition is_slash (c : ascii) : bool := Ascii.eqb c "/".

(** The names between the slashes of a path. *)
Definition components (path : string) : list string :=
  strtok_all is_slash path.

Definition is_absolute (path : string) : bool :=
  match path with
  | String c _ => is_slash c
  | EmptyString => false
  end.

(** Whether a slash ends the path: what it names must then be a
    directory. *)
Fixpoint trailing_slash (path : string) : bool :=
  match path with
  | EmptyString => false
  | String c EmptyString => is_slash c
  | String _ rest => trailing_slash rest
  end.

(** The last name of a path, as the calls that make or remove an entry
    tell them apart. *)
Inductive last_name := LastRoot | LastDot | LastDotDot | LastNorm.

Definition last_type (path : string) : last_name :=
  match last (components path) with
  | None => LastRoot
  | Some name =>
      if String.eqb name "." then LastDot
      else if String.eqb name ".." then LastDotDot
      else LastNorm
  end.

Definition SYMLOOP_MAX : nat := 40.
Definition NAME_MAX : nat := 255.
Definition PATH_MAX : nat := 4096.

(** The error, if any, of looking a name up in the directory [dir], and
    of making or removing an entry there. *)
Definition cannot_search (t : tree) (dir : list string) : option errno :=
  match t !! dir with
  | Some (Dir m) => if may_search m then None else Some EACCES
  | Some _ => Some ENOTDIR
  | None => Some ENOENT
  end.

Definition cannot_alter (t : tree) (dir : list string) : option errno :=
  match t !! dir with
  | Some (Dir m) => if may_write m && may_search m then None else Some EACCES
  | Some _ => Some ENOTDIR
  | None => Some ENOENT
  end.

(** Path resolution.  [cur] is the directory reached so far, [comps] the
    names still to look up.  A symbolic link is followed, except as the last
    name when [follow_last] and [dir_only] are off; [fuel] bounds the links
    followed.  With [dir_only] the last name must lead to a directory.
    Without it a last name that does not exist resolves to the place where
    it would be created. *)
Fixpoint resolve_from (fuel : nat) (t : tree) (follow_last dir_only : bool)
  : list string -> list string -> errno + list string :=
  fix walk (cur comps : list string) {struct comps} : errno + list string :=
    match comps with
    | [] => inr cur
    | name :: rest =>
        match cannot_search t cur with
        | Some e => inl e
        | None =>
            if String.eqb name "." then walk cur rest
            else if String.eqb name ".." then walk (removelast cur) rest
            else if (NAME_MAX <? String.length name)%nat then inl ENAMETOOLONG
            else
              let here := cur ++ [name] in
              match t !! here with
              | None =>
                  match rest with
                  | [] => if dir_only then inl ENOENT else inr here
                  | _ => inl ENOENT
                  end
              | Some (File _ _) =>
                  match rest with
                  | [] => if dir_only then inl ENOTDIR else inr here
                  | _ => inl ENOTDIR
                  end
              | Some (Dir _) => walk here rest
              | Some (Symlink target) =>
                  match rest, follow_last || dir_only with
                  | [], false => inr here
                  | _, _ =>
                      match fuel, target with
                      | O, _ => inl ELOOP
                      | _, EmptyString => inl ENOENT
                      | S fuel', _ =>
                          resolve_from fuel' t follow_last
                            (match rest with
                             | [] => dir_only || trailing_slash target
                             | _ => dir_only
                             end)
                            (if is_absolute target then [] else cur)
                            (components target ++ rest)
                      end
                  end
              end
        end
    end.

Definition resolve_with (t : tree) (follow_last dir_only : bool)
    (path : string) : errno + list string :=
  match path with
  | EmptyString => inl ENOENT
  | _ =>
      if (PATH_MAX <=? String.length path)%nat then inl ENAMETOOLONG
      else resolve_from SYMLOOP_MAX t follow_last dir_only [] (components path)
  end.

(** The place that a path leads to. *)
Definition resolve (t : tree) (follow_last : bool) (path : string)
  : errno + list string :=
  resolve_with t follow_last (trailing_slash path) path.

(** The place of the entry that a path names, for the calls that make or
    remove an entry: a last link is not followed, and the slashes behind
    the last name are left to the call. *)
Definition resolve_entry (t : tree) (path : string) : errno + list string :=
  resolve_with t false false path.

(** [stat]: the node a path leads to, symbolic links followed. *)
Definition sys_stat (path : string) (t : tree) : errno + node :=
  match resolve t true path with
  | inl e => inl e
  | inr key =>
      match t !! key with
      | Some (Symlink _) => inl ELOOP
      | Some n => inr n
      | None => inl ENOENT
      end
  end.

(** [lstat]: the same, but a symbolic link as the last name is not
    followed.  The shell never calls it. *)
Definition sys_lstat (path : string) (t : tree) : errno + node :=
  match resolve t false path with
  | inl e => inl e
  | inr key =>
      match t !! key with
      | Some n => inr n
      | None => inl ENOENT
      end
  end.

(** The names in the directory [key]. *)
Definition entries (t : tree) (key : list string) : list string :=
  omap (fun '(k, _) =>
          match last k with
          | Some name => if decide (removelast k = key) then Some name else None
          | None => None
          end)
       (map_to_list t).

(** [opendir] and all the [readdir]s: the names are read when the
    directory is opened. *)
Definition sys_opendir (path : string) (t : tree) : errno + list string :=
  match resolve t true path with
  | inl e => inl e
  | inr key =>
      match t !! key with
      | Some (Dir m) =>
          if may_read m then inr ("." :: ".." :: entries t key)
          else inl EACCES
      | Some _ => inl ENOTDIR
      | None => inl ENOENT
      end
  end.

Definition sys_unlink (path : string) (t : tree) : errno + tree :=
  match resolve_entry t path with
  | inl e => inl e
  | inr key =>
      match last_type path with
      | LastNorm =>
          match t !! key with
          | None => inl ENOENT
          | Some n =>
              if trailing_slash path then
                inl (if S_ISDIR n then EISDIR else ENOTDIR)
              else
                match cannot_alter t (removelast key) with
                | Some e => inl e
                | None =>
                    if S_ISDIR n then inl EISDIR else inr (delete key t)
                end
          end
      | _ => inl EISDIR
      end
  end.

Definition sys_rmdir (path : string) (t : tree) : errno + tree :=
  match resolve_entry t path with
  | inl e => inl e
  | inr key =>
      match last_type path with
      | LastRoot => inl EBUSY
      | LastDot => inl EINVAL
      | LastDotDot => inl ENOTEMPTY
      | LastNorm =>
          match t !! key with
          | None => inl ENOENT
          | Some n =>
              match cannot_alter t (removelast key) with
              | Some e => inl e
              | None =>
                  if S_ISDIR n then
                    match entries t key with
                    | [] => inr (delete key t)
                    | _ => inl ENOTEMPTY
                    end
                  else inl ENOTDIR
              end
          end
      end
  end.

(** [open(path, O_RDONLY)]: the descriptor is the file it names.  A
    directory can be opened; it is [read] that fails on it. *)
Definition sys_open_rdonly (path : string) (t : tree) : errno + list string :=
  match resolve t true path with
  | inl e => inl e
  | inr key =>
      match t !! key with
      | Some (File m _) | Some (Dir m) =>
          if may_read m then inr key else inl EACCES
      | Some (Symlink _) => inl ELOOP
      | None => inl ENOENT
      end
  end.

Section WithUmask.

(** The umask of the shell, which it never sets. *)
Variable umask : Z.

Definition sys_mkdir (path : string) (mode : Z) (t : tree) : errno + tree :=
  match resolve_entry t path with
  | inl e => inl e
  | inr key =>
      match last_type path, t !! key with
      | LastNorm, None =>
          match cannot_alter t (removelast key) with
          | Some e => inl e
          | None => inr (<[key := Dir (masked umask mode)]> t)
          end
      | _, _ => inl EEXIST
      end
  end.

(** [open(path, O_WRONLY | O_CREAT | O_TRUNC, mode)] *)
Definition sys_open_trunc (path : string) (mode : Z) (t : tree)
  : errno + (list string * tree) :=
  match resolve_with t true false path with
  | inl e => inl e
  | inr key =>
      if trailing_slash path then inl EISDIR
      else
        match t !! key with
        | Some (File m _) =>
            if may_write m then inr (key, <[key := File m ""]> t)
            else inl EACCES
        | Some (Dir _) => inl EISDIR
        | Some (Symlink _) => inl ELOOP
        | None =>
            match cannot_alter t (removelast key) with
            | Some e => inl e
            | None =>
                inr (key, <[key := File (masked umask mode) ""]> t)
            end
        end
  end.

End WithUmask.

(** The first [n] characters of a string, and the rest. *)
Fixpoint take_string (n : nat) (s : string) : string :=
  match n, s with
  | S n', String c s' => String c (take_string n' s')
  | _, _ => ""
  end.

Fixpoint drop_string (n : nat) (s : string) : string :=
  match n, s with
  | S n', String _ s' => drop_string n' s'
  | _, _ => s
  end.

(** What successive [read(fd, buffer, size)] return on a file that holds
    [data], up to the one that returns 0. *)
Fixpoint reads (fuel size : nat) (data : string) : list string :=
  match fuel, data with
  | S fuel', String _ _ =>
      take_string size data :: reads fuel' size (drop_string size data)
  | _, _ => []
  end.

(** All the [read]s of a descriptor, or the error of the first. *)
Definition sys_read_all (key : list string) (size : nat) (t : tree)
  : errno + list string :=
  match t !! key with
  | Some (File _ data) => inr (reads (String.length data) size data)
  | Some (Dir _) => inl EISDIR
  | _ => inr []
  end.

(** [write(fd, buffer, n)] at the end of the file: what the disk has room
    for is written.  The result is the number of bytes written. *)
Definition sys_write (key : list string) (buffer : string) (room : nat)
    (t : tree) : nat * tree :=
  let written := take_string room buffer in
  match t !! key with
  | Some (File m data) =>
      (String.length written, <[key := File m (data +:+ written)]> t)
  | _ => (0, t)
  end.

End FileSystem.

(** ** The tree operations and the built-ins that call them *)

Module TreeOps.
Import FileSystem.

(** The state the tree operations work on. *)
Record world := mkWorld {
  fs : tree;
  disk_size : nat;              (* bytes of file data that the disk holds *)
  stdout : list string;
  stderr : list string
}.

(** The bytes that can still be written: what a removed or truncated file
    took is free again. *)
Definition disk_free (w : world) : nat := disk_size w - used (fs w).

Definition with_fs (t : tree) (w : world) : world :=
  mkWorld t (disk_size w) (stdout w) (stderr w).

(** [fprintf(stderr, ...)] *)
Definition eprint (line : string) (w : world) : world :=
  mkWorld (fs w) (disk_size w) (stdout w) (stderr w ++ [line]).

Definition perror (s : string) (e : errno) (w : world) : world :=
  eprint (s +:+ ": " +:+ strerror e) w.

Definition print (line : string) (w : world) : world :=
  mkWorld (fs w) (disk_size w) (stdout w ++ [line]) (stderr w).

(** [snprintf(buf, sizeof(buf), "%s/%s", dir, name)]: the string that is
    asked for.  The call returns its length, and the buffer holds all of it
    exactly when that length is below the size of the buffer. *)
Definition join (dir name : string) : string := dir +:+ "/" +:+ name.

Definition too_long (path : string) : bool :=
  (MAX_PATH <=? String.length path)%nat.

(** [strncpy(buf, s, sizeof(buf))] and the buffer then read as a string.
    When [s] fills the buffer or does not fit, there is no terminating NUL
    in the buffer, and what is read goes on with the bytes [behind] that
    lie in memory after the buffer, up to the first 0 among them. *)
Definition strncpy (behind : string) (s : string) : string :=
  if (String.length s <? MAX_PATH)%nat then s
  else take_string MAX_PATH s +:+ behind.

(** [strrchr(path, '/') ? strrchr(path, '/') + 1 : path] *)
Fixpoint basename (path : string) : string :=
  match path with
  | EmptyString => EmptyString
  | String c rest =>
      if Parser.strchr rest "/" then basename rest
      else if is_slash c then rest
      else path
  end.

(** *** [recursive_delete] *)

(** [fuel] counts the levels of recursion that are left; the bound on
    [depth] makes [MAX_RECURSION + 1 - depth] levels enough. *)
Fixpoint recursive_delete_rec (fuel : nat) (path : string) (depth : Z)
    (w : world) : world :=
  if (MAX_RECURSION <? depth)%Z then
    eprint "recursive_delete: maximum recursion depth exceeded" w
  else
    match sys_stat path (fs w) with
    | inl e => perror "stat failed" e w
    | inr st =>
        if S_ISDIR st then
          match sys_opendir path (fs w) with
          | inl e => perror "opendir failed" e w
          | inr names =>
              match fuel with
              | O => w
              | S fuel' =>
                  (* the readdir loop; [true] when it was left by return *)
                  let fix each (names : list string) (w : world)
                    : bool * world :=
                    match names with
                    | [] => (false, w)
                    | d_name :: names' =>
                        if String.eqb d_name "." || String.eqb d_name ".."
                        then each names' w
                        else
                          let full_path := join path d_name in
                          if too_long full_path then
                            (true, eprint "recursive_delete: path too long" w)
                          else
                            each names'
                              (recursive_delete_rec fuel' full_path
                                 (depth + 1) w)
                    end in
                  let '(returned, w) := each names w in
                  if returned then w
                  else
                    match sys_rmdir path (fs w) with
                    | inl e => perror "rmdir failed" e w
                    | inr t => with_fs t w
                    end
              end
          end
        else
          match sys_unlink path (fs w) with
          | inl e => perror "unlink failed" e w
          | inr t => with_fs t w
          end
    end.

Definition levels (depth : Z) : nat := Z.to_nat (MAX_RECURSION + 1 - depth).

Definition recursive_delete (path : string) (depth : Z) (w : world) : world :=
  recursive_delete_rec (levels depth) path depth w.

(** *** [recursive_copy] *)

(** The read/write loop over what the [read]s return. *)
Fixpoint copy_loop (chunks : list string) (dest_fd : list string)
    (on_short_write : string) (w : world) : world :=
  match chunks with
  | [] => w
  | buffer :: chunks' =>
      let '(written, t) := sys_write dest_fd buffer (disk_free w) (fs w) in
      let w := with_fs t w in
      if (written =? String.length buffer)%nat
      then copy_loop chunks' dest_fd on_short_write w
      else perror on_short_write ENOSPC w
  end.

Section WithProcess.

(** The umask of the shell, and the bytes that lie behind the buffer
    [final_dest] when it is filled up from the destination [dest]. *)
Variable umask : Z.
Variable behind : string -> string.

Abbreviation sys_mkdir := (sys_mkdir umask).
Abbreviation sys_open_trunc := (sys_open_trunc umask).

(** The branch of [recursive_copy] for a source that is not a directory. *)
Definition copy_file (src dest : string) (st : node) (w : world) : world :=
  match sys_open_rdonly src (fs w) with
  | inl e => perror "fopen src failed" e w
  | inr src_fd =>
      let dest_is_dir :=
        match sys_stat dest (fs w) with
        | inr dest_st => S_ISDIR dest_st
        | inl _ => false
        end in
      let final_dest :=
        if dest_is_dir then
          let wanted := join dest (basename src) in
          if too_long wanted then None else Some wanted
        else Some (strncpy (behind dest) dest) in
      match final_dest with
      | None => eprint "recursive_copy: destination path too long" w
      | Some final_dest =>
          match sys_open_trunc final_dest (st_mode st) (fs w) with
          | inl e => perror "fopen dest failed" e w
          | inr (dest_fd, t) =>
              let w := with_fs t w in
              match sys_read_all src_fd 1024 (fs w) with
              | inl e => perror "read failed" e w
              | inr chunks => copy_loop chunks dest_fd "write failed" w
              end
          end
      end
  end.

Fixpoint recursive_copy_rec (fuel : nat) (src dest : string) (depth : Z)
    (w : world) : world :=
  if (MAX_RECURSION <? depth)%Z then
    eprint "recursive_copy: maximum recursion depth exceeded" w
  else
    match sys_stat src (fs w) with
    | inl e => perror "stat failed" e w
    | inr st =>
        if S_ISDIR st then
          let dest_in_the_way :=
            match sys_stat dest (fs w) with
            | inr dest_st => negb (S_ISDIR dest_st)
            | inl _ => false
            end in
          if dest_in_the_way then
            eprint ("cp: cannot overwrite non-directory '" +:+ dest +:+
                    "' with directory '" +:+ src +:+ "'") w
          else
            let made :=
              match sys_mkdir dest (st_mode st) (fs w) with
              | inr t => inr (with_fs t w)
              | inl EEXIST => inr w
              | inl e => inl e
              end in
            match made with
            | inl e => perror "mkdir failed" e w
            | inr w =>
                match sys_opendir src (fs w) with
                | inl e => perror "opendir failed" e w
                | inr names =>
                    match fuel with
                    | O => w
                    | S fuel' =>
                        let fix each (names : list string) (w : world)
                          : world :=
                          match names with
                          | [] => w
                          | d_name :: names' =>
                              if String.eqb d_name "."
                                 || String.eqb d_name ".."
                              then each names' w
                              else
                                let src_path := join src d_name in
                                let dest_path := join dest d_name in
                                if too_long src_path || too_long dest_path
                                then eprint "recursive_copy: path too long" w
                                else
                                  each names'
                                    (recursive_copy_rec fuel' src_path
                                       dest_path (depth + 1) w)
                          end in
                        each names w
                    end
                end
            end
        else copy_file src dest st w
    end.

Definition recursive_copy (src dest : string) (depth : Z) (w : world) : world :=
  recursive_copy_rec (levels depth) src dest depth w.

(** *** The built-ins that call the tree operations *)

Inductive builtin_end :=
| NotBuiltin                 (* return 0: the caller runs a system command *)
| Done (w : world)           (* return 1 *)
| OutOfModel.                (* a built-in that is not a tree operation *)

(** [args[k]], NULL behind the last argument. *)
Definition arg (args : list string) (k : nat) : option string := args !! k.

Definition is_minus_r (a : option string) : bool :=
  match a with
  | Some s => String.eqb s "-r"
  | None => false
  end.

Definition builtin_rm (args : list string) (w : world) : world :=
  let recursive := is_minus_r (arg args 1) in
  let arg_start := if recursive then 2 else 1 in
  match arg args arg_start with
  | None => print "Usage: rm [-r] [file/directory]" w
  | Some target =>
      if recursive then recursive_delete target 0 w
      else
        match sys_unlink target (fs w) with
        | inl e => perror "rm failed" e w
        | inr t => with_fs t w
        end
  end.

Section WithRename.

(** [rename], which only the plain [mv] calls. *)
Variable sys_rename : string -> string -> tree -> errno + tree.

Definition builtin_mv (args : list string) (w : world) : world :=
  let recursive := is_minus_r (arg args 1) in
  let arg_start := if recursive then 2 else 1 in
  match arg args arg_start, arg args (arg_start + 1) with
  | Some src, Some dest =>
      if recursive then
        let w := recursive_copy src dest 0 w in
        recursive_delete src 0 w
      else
        let dest_is_dir :=
          match sys_stat dest (fs w) with
          | inr dest_st => S_ISDIR dest_st
          | inl _ => false
          end in
        let final_dest :=
          if dest_is_dir then
            let wanted := join dest (basename src) in
            if too_long wanted then None else Some wanted
          else Some (strncpy (behind dest) dest) in
        match final_dest with
        | None => eprint "mv: destination path too long" w
        | Some final_dest =>
            match sys_rename src final_dest (fs w) with
            | inl e => perror "mv failed" e w
            | inr t => with_fs t w
            end
        end
  | _, _ => print "Usage: mv [-r] [source] [destination]" w
  end.

(** The branch of [cp] for [-r]; the plain copy is outside the model. *)
Definition builtin_cp (args : list string) (w : world) : builtin_end :=
  let recursive := is_minus_r (arg args 1) in
  let arg_start := if recursive then 2 else 1 in
  match arg args arg_start, arg args (arg_start + 1) with
  | Some src, Some dest =>
      if recursive then Done (recursive_copy src dest 0 w)
      else OutOfModel
  | _, _ => Done (print "Usage: cp [-r] [source] [destination]" w)
  end.

Definition execute_builtin (args : list string) (w : world) : builtin_end :=
  match arg args 0 with
  | None => Done w
  | Some name =>
      if String.eqb name "cp" then builtin_cp args w
      else if String.eqb name "mv" then Done (builtin_mv args w)
      else if String.eqb name "rm" then Done (builtin_rm args w)
      else if existsb (String.eqb name)
                ["exit"; "cd"; "help"; "mkdir"; "rmdir"; "touch";
                 "writefile"; "history"]
      then OutOfModel
      else NotBuiltin
  end.

End WithRename.

End WithProcess.

End TreeOps.

(** ** Tab completion: [command_generator] *)

Module Completion.

(** The two tables, without the NULL that ends each of them. *)
Definition builtin_commands : list string :=
  ["exit"; "cd"; "help"; "mkdir"; "rmdir"; "touch"; "cp"; "mv"; "rm";
   "writefile"; "history"].

Definition system_commands : list string :=
  ["ls"; "cat"; "echo"; "grep"; "wc"].

(** [strncmp(a, b, n) == 0] *)
Fixpoint strncmp_eq (n : nat) (a b : string) : bool :=
  match n with
  | O => true
  | S n' =>
      match a, b with
      | EmptyString, EmptyString => true
      | String x a', String y b' => Ascii.eqb x y && strncmp_eq n' a' b'
      | _, _ => false
      end
  end.

(** The static variables of [command_generator].  [dir] holds the names
    that the open directory stream has still to return, [None] for NULL. *)
Record generator := mkGenerator {
  index : nat;
  len : nat;
  dir : option (list string)
}.

(** What a call returns: a name, NULL, or nothing at all when it calls
    [readdir] on the NULL stream. *)
Inductive answer :=
| Name (name : string)
| Null
| ReaddirOfNull.

(** [while ((name = table[index])) { index++; if (strncmp(name, text, len)
    == 0) return strdup(name); }] over [rest], the entries of the table from
    [index] on.  The result is the name returned, if any, and [index]. *)
Fixpoint scan (text : string) (len : nat) (rest : list string) (index : nat)
  : option string * nat :=
  match rest with
  | [] => (None, index)
  | name :: rest' =>
      if strncmp_eq len name text then (Some name, S index)
      else scan text len rest' (S index)
  end.

(** [while ((entry = readdir(dir))) if (strncmp(entry->d_name, text, len)
    == 0) return strdup(entry->d_name);] *)
Fixpoint scan_dir (text : string) (len : nat) (entries : list string)
  : option (string * list string) :=
  match entries with
  | [] => None
  | d_name :: entries' =>
      if strncmp_eq len d_name text then Some (d_name, entries')
      else scan_dir text len entries'
  end.

(** One call.  [cwd] is what [opendir(".")] would give: the names in the
    working directory, or [None] when it fails. *)
Definition command_generator (cwd : option (list string)) (text : string)
    (state : nat) (g : generator) : answer * generator :=
  let g := if (state =? 0)%nat
           then mkGenerator 0 (String.length text) None
           else g in
  match scan text (len g) (drop (index g) builtin_commands) (index g) with
  | (Some name, i) => (Name name, mkGenerator i (len g) (dir g))
  | (None, _) =>
      match scan text (len g) system_commands 0 with
      | (Some name, i) => (Name name, mkGenerator i (len g) (dir g))
      | (None, i) =>
          let opened :=
            if (state =? 0)%nat then
              match cwd with
              | Some entries => inr (Some entries)
              | None => inl tt                       (* return NULL *)
              end
            else inr (dir g) in
          match opened with
          | inl _ => (Null, mkGenerator i (len g) None)
          | inr None => (ReaddirOfNull, mkGenerator i (len g) None)
          | inr (Some entries) =>
              match scan_dir text (len g) entries with
              | Some (d_name, entries') =>
                  (Name d_name, mkGenerator i (len g) (Some entries'))
              | None => (Null, mkGenerator i (len g) None)
              end
          end
      end
  end.

(** The caller, [rl_completion_matches]: it calls the generator with
    [state] 0 and then with the number of names it has got so far, until
    the answer is not a name.  [fuel] bounds the number of calls. *)
Fixpoint calls_from (fuel : nat) (cwd : option (list string)) (text : string)
    (state : nat) (g : generator) : list answer :=
  match fuel with
  | O => []
  | S fuel' =>
      let '(a, g') := command_generator cwd text state g in
      match a with
      | Name _ => a :: calls_from fuel' cwd text (S state) g'
      | _ => [a]
      end
  end.

Definition completion_calls (fuel : nat) (cwd : option (list string))
    (text : string) (g : generator) : list answer :=
  calls_from fuel cwd text 0 g.

End Completion.

(** * Properties *)

(** ** Facts about [strtok] *)

Module StrtokFacts.
Import Strtok.

Lemma skip_delims_length delim s :
  String.length (skip_delims delim s) <= String.length s.
Proof.
  induction s as [|c s IH]; simpl; [lia|].
  destruct (delim c); simpl; lia.
Qed.

Lemma take_token_length delim s t r :
  take_token delim s = (t, r) -> String.length r <= String.length s.
Proof.
  revert t r. induction s as [|c s IH]; simpl; intros t r H.
  - inversion H; subst; simpl; lia.
  - destruct (delim c).
    + inversion H; subst; lia.
    + destruct (take_token delim s) as [t' r'] eqn:E.
      inversion H; subst. specialize (IH _ _ eq_refl). lia.
Qed.

(** A returned token uses up at least one character of the string. *)
Lemma strtok_saved_shorter delim s t r :
  strtok delim s = (Some t, r) -> String.length r < String.length s.
Proof.
  unfold strtok. intros H.
  pose proof (skip_delims_length delim s) as Hs.
  destruct (skip_delims delim s) as [|c s'] eqn:E; [discriminate|].
  simpl in H. destruct (delim c).
  - inversion H; subst. simpl in Hs. lia.
  - destruct (take_token delim s') as [t' r'] eqn:E'.
    inversion H; subst. apply take_token_length in E'. simpl in Hs. lia.
Qed.

(** [strtok] never returns an empty token. *)
Lemma skip_delims_head delim s c s' :
  skip_delims delim s = String c s' -> delim c = false.
Proof.
  induction s as [|d s IH]; simpl; [discriminate|].
  destruct (delim d) eqn:E; [exact IH|].
  intros H. inversion H; subst. exact E.
Qed.

Lemma strtok_nonempty delim s t r :
  strtok delim s = (Some t, r) -> t <> "".
Proof.
  unfold strtok. intros H.
  destruct (skip_delims delim s) as [|c s'] eqn:E; [discriminate|].
  apply skip_delims_head in E. simpl in H. rewrite E in H.
  destruct (take_token delim s') as [t' r']. inversion H; subst. discriminate.
Qed.

(** Enough fuel gives the result: more fuel than the length of the
    string changes nothing. *)
Lemma strtok_iter_enough delim fuel s :
  String.length s <= fuel ->
  strtok_iter fuel delim s = strtok_all delim s.
Proof.
  unfold strtok_all.
  remember (String.length s) as n eqn:Hn.
  assert (Hle : String.length s <= n) by lia. clear Hn.
  revert s fuel Hle. induction n as [|n IH]; intros s fuel Hle Hfuel.
  - destruct s; simpl in Hle; [|lia].
    destruct fuel; reflexivity.
  - destruct fuel as [|fuel]; [lia|]. simpl.
    destruct (strtok delim s) as [[t|] r] eqn:E; [|reflexivity].
    apply strtok_saved_shorter in E.
    f_equal. apply IH; lia.
Qed.

(** The unfolding a C reader expects: the first call, then the rest. *)
Lemma strtok_all_unfold delim s :
  strtok_all delim s =
    match strtok delim s with
    | (None, _) => []
    | (Some t, r) => t :: strtok_all delim r
    end.
Proof.
  destruct (strtok delim s) as [[t|] r] eqn:E.
  - pose proof (strtok_saved_shorter _ _ _ _ E) as Hlt.
    unfold strtok_all at 1.
    destruct (String.length s) as [|n] eqn:Hn; [lia|].
    simpl. rewrite E. f_equal. apply strtok_iter_enough. lia.
  - unfold strtok_all. destruct (String.length s); simpl; [reflexivity|].
    rewrite E. reflexivity.
Qed.

Lemma strtok_all_nonempty delim s :
  Forall (fun t => t <> "") (strtok_all delim s).
Proof.
  unfold strtok_all. generalize (String.length s) as fuel. intros fuel.
  revert s. induction fuel as [|fuel IH]; intros s; simpl; [constructor|].
  destruct (strtok delim s) as [[t|] r] eqn:E; [|constructor].
  constructor; [now apply strtok_nonempty in E|apply IH].
Qed.

End StrtokFacts.

(** ** Properties of the parser *)

Module ParserFacts.
Import Strtok StrtokFacts Parser.

(** The segments the second loop of [parse_command] looks at. *)
Definition cmd_tokens (command : string) : list string :=
  take (MAX_PIPES - 1) (strtok_all is_pipe command).

Definition args_fit (st : stage) : Prop := length (args st) <= MAX_ARGS - 1.

Section WithGlob.

Variable fs_match : string -> list string.
Variable glob_nospace : string -> bool.

Abbreviation glob := (glob fs_match glob_nospace).
Abbreviation store_word := (store_word fs_match glob_nospace).
Abbreviation walk_tokens := (walk_tokens fs_match glob_nospace).
Abbreviation parse_segments := (parse_segments fs_match glob_nospace).
Abbreviation parse_command := (parse_command fs_match glob_nospace).

(** *** The split on '|' *)

Lemma split_pipes_take room s :
  split_pipes room (strtok is_pipe s).1 (strtok is_pipe s).2
  = take room (strtok_all is_pipe s).
Proof.
  revert s. induction room as [|room IH]; intros s.
  - destruct (strtok is_pipe s).1; reflexivity.
  - rewrite strtok_all_unfold.
    destruct (strtok is_pipe s) as [[t|] r]; simpl; [|reflexivity].
    specialize (IH r). destruct (strtok is_pipe r) as [tok' saved'].
    simpl in IH. now rewrite IH.
Qed.

Lemma cmd_tokens_length command : length (cmd_tokens command) <= MAX_PIPES - 1.
Proof. unfold cmd_tokens. rewrite length_take. lia. Qed.

Lemma parse_command_segments command :
  parse_command command =
    match cmd_tokens command with
    | [] => ParseFail NoCommand
    | segs => parse_segments (length segs) 0 segs [] false
    end.
Proof.
  unfold Parser.parse_command, cmd_tokens.
  pose proof (split_pipes_take (MAX_PIPES - 1) command) as H.
  destruct (strtok is_pipe command) as [tok saved].
  unfold fst, snd in H. rewrite H.
now destruct (take _ _).
Qed.

(** *** The token loop *)

Ltac limits := unfold args_fit, MAX_ARGS, MAX_PIPES in *; simpl in *; lia.

Lemma append_paths_spec paths argv :
  length argv <= MAX_ARGS - 1 ->
  append_paths paths argv = take (MAX_ARGS - 1) (argv ++ paths).
Proof.
  revert argv. induction paths as [|p ps IH]; intros argv Hlen;
    cbn [Parser.append_paths].
  - rewrite app_nil_r, take_ge; [reflexivity|lia].
  - destruct (Nat.ltb_spec (length argv) (MAX_ARGS - 1)) as [Hlt|Hge].
    + rewrite IH, <- app_assoc; [reflexivity|].
      rewrite length_app. limits.
    + rewrite take_app_le, take_ge; [reflexivity|lia..].
Qed.

Lemma store_word_fit token argv :
  length argv <= MAX_ARGS - 1 ->
  length (store_word token argv) <= MAX_ARGS - 1 \/
  store_word token argv = argv ++ [token].
Proof.
  intros Hlen. unfold Parser.store_word.
  destruct (has_wildcard token); [|now right].
  destruct glob as [paths|]; [left|now right].
  rewrite append_paths_spec, length_take by exact Hlen. lia.
Qed.

Lemma walk_tokens_fit last toks prev st st' bg :
  walk_tokens last toks prev st = inr (st', bg) ->
  args_fit st -> args_fit st'.
Proof.
  revert prev st. induction toks as [|token rest IH]; intros prev st H Hfit;
    cbn [Parser.walk_tokens] in H.
  - now inversion H; subst.
  - destruct (Nat.ltb_spec (length (args st)) (MAX_ARGS - 1)) as [Hlt|Hge];
      cbn [negb] in H; [|now inversion H; subst].
    destruct (String.eqb token ">").
    { destruct rest; inversion H; subst; exact Hfit. }
    destruct (String.eqb token ">>").
    { destruct rest; inversion H; subst; exact Hfit. }
    destruct (String.eqb token "<").
    { destruct rest; inversion H; subst; exact Hfit. }
    destruct (String.eqb token "&" && last).
    { inversion H; subst; exact Hfit. }
    destruct prev; [discriminate|].
    apply IH in H; [exact H|]. unfold args_fit. cbn [args].
    destruct (store_word_fit token (args st)) as [Hs|Hs]; [exact Hfit|exact Hs|].
    rewrite Hs, length_app. limits.
Qed.

(** The flag is only ever set while walking the last segment, and only
    by a token ["&"]. *)
Lemma walk_tokens_background last toks prev st st' :
  walk_tokens last toks prev st = inr (st', true) ->
  last = true /\ "&" ∈ toks.
Proof.
  revert prev st. induction toks as [|token rest IH]; intros prev st H.
  - simpl in H. inversion H.
  - simpl in H.
    destruct (negb _); [inversion H|].
    destruct (String.eqb token ">"); [destruct rest; inversion H|].
    destruct (String.eqb token ">>"); [destruct rest; inversion H|].
    destruct (String.eqb token "<"); [destruct rest; inversion H|].
    destruct (String.eqb_spec token "&") as [->|Hne]; simpl in H.
    + destruct last.
      * split; [reflexivity|]. apply list_elem_of_here.
      * destruct prev; [discriminate|].
        apply IH in H as [? ?]. discriminate.
    + destruct prev; [discriminate|].
      apply IH in H as [? ?]. split; [assumption|].
      now apply list_elem_of_further.
Qed.

(** The check [else if (prev_was_redirect)] is never reached with the
    flag set: every branch that sets it leaves the loop. *)
Lemma walk_tokens_never_unexpected last toks st token :
  walk_tokens last toks false st <> inl (UnexpectedToken token).
Proof.
  revert st. induction toks as [|tok rest IH]; intros st H.
  - discriminate.
  - simpl in H.
    destruct (negb _); [discriminate|].
    destruct (String.eqb tok ">"); [destruct rest; discriminate|].
    destruct (String.eqb tok ">>"); [destruct rest; discriminate|].
    destruct (String.eqb tok "<"); [destruct rest; discriminate|].
    destruct (String.eqb tok "&" && last); [discriminate|].
    now apply IH in H.
Qed.

Lemma parse_segments_never_unexpected n c segs done bg token :
  parse_segments n c segs done bg <> ParseFail (UnexpectedToken token).
Proof.
  revert c done bg. induction segs as [|seg segs IH]; intros c done bg H;
    simpl in H.
  - destruct (length done =? 0)%nat; discriminate.
  - destruct (trim seg) eqn:Et.
    + destruct (length done =? 0)%nat; discriminate.
    + destruct walk_tokens as [e|[st bg']] eqn:Ew.
      * inversion H; subst. now apply walk_tokens_never_unexpected in Ew.
      * now apply IH in H.
Qed.

(** No line is ever rejected for a token that follows a redirection. *)
Lemma parse_command_never_unexpected command token :
  parse_command command <> ParseFail (UnexpectedToken token).
Proof.
  rewrite parse_command_segments.
  destruct (cmd_tokens command); [discriminate|].
  apply parse_segments_never_unexpected.
Qed.

(** *** The loop over the segments *)

Lemma parse_segments_bounds n c segs done bg p :
  parse_segments n c segs done bg = ParseOk p ->
  Forall args_fit done ->
  length (stages p) <= length done + length segs /\
  Forall args_fit (stages p).
Proof.
  revert c done bg. induction segs as [|seg segs IH]; intros c done bg H Hd;
    simpl in H.
  - destruct (length done =? 0)%nat; inversion H; subst; simpl.
    split; [lia|assumption].
  - destruct (trim seg) eqn:Et.
    + destruct (length done =? 0)%nat; inversion H; subst; simpl.
      split; [lia|assumption].
    + destruct walk_tokens as [e|[st bg']] eqn:Ew; [discriminate|].
      apply IH in H.
      * rewrite length_app in H. simpl in *. destruct H. split; [lia|assumption].
      * apply Forall_app. split; [assumption|].
        constructor; [|constructor].
        eapply walk_tokens_fit; [exact Ew|]. unfold args_fit. simpl. lia.
Qed.

(** *** Segments made of ordinary words *)

(** What the specification says a word contributes to the argument list:
    a word without wildcard is itself; a word with a wildcard is the list
    of its matches, or itself when nothing matches. *)
Definition expand_word (token : string) : list string :=
  if has_wildcard token then
    match fs_match token with
    | [] => [token]
    | paths => paths
    end
  else [token].

Definition expand_words (toks : list string) : list string :=
  concat (map expand_word toks).

(** A token that the loop stores: no redirection operator, and no ["&"]
    when the segment is the last one. *)
Definition is_word (last : bool) (token : string) : Prop :=
  token <> ">" /\ token <> ">>" /\ token <> "<" /\
  (last = true -> token <> "&").

(** [glob] does not run out of memory on the wildcards of these tokens. *)
Definition glob_succeeds (toks : list string) : Prop :=
  Forall (fun token => has_wildcard token = true -> glob_nospace token = false)
         toks.

Definition set_args (st : stage) (argv : list string) : stage :=
  mkStage argv (input_file st) (output_file st) (append st).

Lemma set_args_same st : set_args st (args st) = st.
Proof. now destruct st. Qed.

Lemma expand_word_nonempty token : 1 <= length (expand_word token).
Proof.
  unfold expand_word. destruct (has_wildcard token); [|simpl; lia].
  destruct (fs_match token); simpl; lia.
Qed.

Lemma store_word_expand token argv :
  (has_wildcard token = true -> glob_nospace token = false) ->
  length argv < MAX_ARGS - 1 ->
  store_word token argv = take (MAX_ARGS - 1) (argv ++ expand_word token).
Proof.
  intros Hg Hlen. unfold Parser.store_word, expand_word, Parser.glob.
  destruct (has_wildcard token).
  - rewrite Hg by reflexivity.
    destruct (fs_match token) as [|p ps]; now rewrite append_paths_spec by lia.
  - rewrite take_ge; [reflexivity|]. rewrite length_app. limits.
Qed.

Lemma walk_tokens_word last token rest st :
  is_word last token ->
  length (args st) < MAX_ARGS - 1 ->
  walk_tokens last (token :: rest) false st =
  walk_tokens last rest false (set_args st (store_word token (args st))).
Proof.
  intros (H1 & H2 & H3 & H4) Hlen. cbn [Parser.walk_tokens].
  destruct (Nat.ltb_spec (length (args st)) (MAX_ARGS - 1)); [|lia].
  cbn [negb].
  destruct (String.eqb_spec token ">"); [contradiction|].
  destruct (String.eqb_spec token ">>"); [contradiction|].
  destruct (String.eqb_spec token "<"); [contradiction|].
  destruct (String.eqb_spec token "&") as [->|]; [|reflexivity].
  destruct last; [now specialize (H4 eq_refl)|reflexivity].
Qed.

Lemma walk_tokens_full last toks prev st :
  MAX_ARGS - 1 <= length (args st) ->
  walk_tokens last toks prev st = inr (st, false).
Proof.
  intros Hlen. destruct toks as [|token rest]; [reflexivity|].
  cbn [Parser.walk_tokens].
  destruct (Nat.ltb_spec (length (args st)) (MAX_ARGS - 1)); [lia|reflexivity].
Qed.

Lemma take_take_app {A} n (l r : list A) :
  take n (take n l ++ r) = take n (l ++ r).
Proof.
  destruct (Nat.le_gt_cases n (length l)) as [Hle|Hgt].
  - rewrite take_app_le by (rewrite length_take; lia).
    rewrite take_take, Nat.min_id. now rewrite take_app_le.
  - now rewrite (take_ge l) by lia.
Qed.

(** Ordinary words in front of any token: when the loop gets to that token
    the row holds the expansions of the words, in order, cut at the
    capacity of the row. *)
Lemma walk_tokens_words_then last pre rest st :
  Forall (is_word last) pre ->
  glob_succeeds pre ->
  args_fit st ->
  walk_tokens last (pre ++ rest) false st =
  walk_tokens last rest false
    (set_args st (take (MAX_ARGS - 1) (args st ++ expand_words pre))).
Proof.
  unfold glob_succeeds, args_fit.
  revert st. induction pre as [|token pre IH]; intros st Hw Hg Hfit.
  - unfold expand_words. cbn [map concat app].
    now rewrite app_nil_r, take_ge, set_args_same by lia.
  - inversion Hw as [|? ? Hw1 Hw2]; inversion Hg as [|? ? Hg1 Hg2]; subst.
    destruct (Nat.le_gt_cases (MAX_ARGS - 1) (length (args st))) as [Hfull|Hroom].
    + rewrite take_app_le, take_ge, set_args_same by lia.
      now rewrite !walk_tokens_full by assumption.
    + cbn [app]. rewrite walk_tokens_word, IH; try assumption.
      * cbn [set_args args input_file output_file append].
        rewrite store_word_expand by assumption.
        unfold expand_words. cbn [map concat].
        now rewrite take_take_app, <- app_assoc.
      * unfold set_args. cbn [args].
        rewrite store_word_expand, length_take by assumption. lia.
Qed.

(** A segment made of ordinary words only. *)
Lemma walk_tokens_words last toks st :
  Forall (is_word last) toks ->
  glob_succeeds toks ->
  args_fit st ->
  walk_tokens last toks false st =
  inr (set_args st (take (MAX_ARGS - 1) (args st ++ expand_words toks)), false).
Proof.
  intros Hw Hg Hfit.
  rewrite <- (app_nil_r toks) at 1.
  now rewrite walk_tokens_words_then.
Qed.

(** *** A run of segments in front of the last one *)

(** [seg] is not blank and its tokens, walked as a segment that is not the
    last one, fill the row [st]. *)
Definition segment_stage (seg : string) (st : stage) : Prop :=
  trim seg <> "" /\
  walk_tokens false (strtok_all is_blank (trim seg)) false empty_stage
  = inr (st, false).

Lemma parse_segments_prefix pre sts n c segs done bg :
  Forall2 segment_stage pre sts ->
  c + length pre <= n - 1 ->
  parse_segments n c (pre ++ segs) done bg =
  parse_segments n (c + length pre) segs (done ++ sts) bg.
Proof.
  intros HF. revert c done bg.
  induction HF as [|seg st pre sts [Hne Hw] HF IH]; intros c done bg Hc.
  - simpl. now rewrite Nat.add_0_r, app_nil_r.
  - simpl in Hc. cbn [app Parser.parse_segments].
    destruct (trim seg) eqn:Et; [contradiction|].
    destruct (Nat.eqb_spec c (n - 1)) as [Heq|_]; [lia|].
    rewrite Hw, IH by lia.
    rewrite orb_false_r, <- app_assoc. simpl.
    now replace (S (c + length pre)) with (c + S (length pre)) by lia.
Qed.

Lemma parse_segments_background n c segs done bg p :
  parse_segments n c segs done bg = ParseOk p ->
  background p = true ->
  bg = true \/
  exists k seg, segs !! k = Some seg /\ c + k = n - 1 /\
                "&" ∈ strtok_all is_blank (trim seg).
Proof.
  revert c done bg. induction segs as [|seg segs IH]; intros c done bg H Hb;
    cbn [Parser.parse_segments] in H.
  - destruct (length done =? 0)%nat; inversion H; subst. now left.
  - destruct (trim seg) eqn:Et.
    + destruct (length done =? 0)%nat; inversion H; subst. now left.
    + destruct walk_tokens as [e|[st bg']] eqn:Ew; [discriminate|].
      apply IH in H; [|assumption].
      destruct H as [H|(k & seg' & Hk & Hc & Hin)].
      * destruct bg; [now left|]. simpl in H. subst bg'.
        apply walk_tokens_background in Ew as [Hlast Hin].
        right. exists 0, seg. rewrite Et. split; [reflexivity|].
        split; [|assumption].
        apply Nat.eqb_eq in Hlast. lia.
      * right. exists (S k), seg'. split; [assumption|]. split; [lia|assumption].
Qed.

(** *** The claims about the parser *)

(** C2 (the code departs from the claim).  A token after a redirection
    clause should be a parse error, and the source has the message for it;
    but each redirection branch leaves the token loop, so the check is never
    reached: here ["extra"] is dropped, the line parses and [main] goes on to
    run [ls] with its output sent to [out]. *)
Theorem C2_token_after_redirection_is_accepted :
  parse_command "ls > out extra"
  = ParseOk (mkPipeline [mkStage ["ls"] None (Some "out") false] false)
  /\ main_dispatch (parse_command "ls > out extra")
     = SingleCommand (mkStage ["ls"] None (Some "out") false) false.
Proof. split; reflexivity. Qed.

(** A parsed pipeline fits the arrays: at most 9 stages of at most 63
    arguments each. *)
Lemma parsed_pipeline_within_capacity line p :
  parse_command line = ParseOk p ->
  num_commands p <= 9 /\
  Forall (fun st => length (args st) <= 63) (stages p).
Proof.
  rewrite parse_command_segments. intros H.
  pose proof (cmd_tokens_length line) as Hlen.
  destruct (cmd_tokens line) as [|seg segs] eqn:E; [discriminate|].
  apply parse_segments_bounds in H as [Hn Hfit]; [|constructor].
  unfold num_commands. split; [limits|exact Hfit].
Qed.

(** C7, amended.  A segment of blanks among the segments that the loop
    looks at, behind segments that parse, ends the pipeline there: the
    stages are those of the segments in front of it, and none is an error
    of its own.  Such a segment holds at least one blank: the split never
    yields a segment of length zero. *)
Theorem C7_blank_segment_truncates line pre blank post sts :
  cmd_tokens line = pre ++ blank :: post ->
  trim blank = "" ->
  Forall2 segment_stage pre sts ->
  parse_command line =
    match sts with
    | [] => ParseFail NoCommand
    | _ => ParseOk (mkPipeline sts false)
    end
  /\ Forall (fun seg => seg <> "") (cmd_tokens line).
Proof.
  intros Hsegs Hblank Hpre.
  split; [|apply Forall_take, strtok_all_nonempty].
  rewrite parse_command_segments, Hsegs.
  assert (Hgo : parse_segments (length (pre ++ blank :: post)) 0
                  (pre ++ blank :: post) [] false
                = match sts with
                  | [] => ParseFail NoCommand
                  | _ => ParseOk (mkPipeline sts false)
                  end).
  { rewrite (parse_segments_prefix pre sts) by
      (try assumption; rewrite length_app; simpl; lia).
    cbn [Parser.parse_segments app]. rewrite Hblank.
    now destruct sts. }
  rewrite <- Hgo. now destruct pre.
Qed.

(** C9, amended.  The flag is set only by a ["&"] in the last segment of
    the split; and there the first ["&"] that the loop gets to sets it and
    ends the segment, whether or not tokens follow it. *)
Theorem C9_background_flag :
  (forall line p,
      parse_command line = ParseOk p ->
      background p = true ->
      exists init lastseg,
        cmd_tokens line = init ++ [lastseg] /\
        "&" ∈ strtok_all is_blank (trim lastseg))
  /\
  (forall line init lastseg sts pre post,
      cmd_tokens line = init ++ [lastseg] ->
      Forall2 segment_stage init sts ->
      strtok_all is_blank (trim lastseg) = pre ++ "&" :: post ->
      Forall (is_word true) pre ->
      glob_succeeds pre ->
      length (expand_words pre) < MAX_ARGS - 1 ->
      parse_command line =
      ParseOk (mkPipeline (sts ++ [command (expand_words pre)]) true)).
Proof.
  split.
  - intros line p H Hbg. rewrite parse_command_segments in H.
    destruct (cmd_tokens line) as [|seg segs] eqn:E; [discriminate|].
    apply parse_segments_background in H; [|assumption].
    destruct H as [H|(k & s & Hk & Hc & Hin)]; [discriminate|].
    exists (take k (seg :: segs)), s. split; [|assumption].
    rewrite <- (take_drop_middle _ _ _ Hk) at 1.
    rewrite (drop_ge _ (S k)); [reflexivity|lia].
  - intros line init lastseg sts pre post Hsegs Hinit Htoks Hw Hg Hroom.
    rewrite parse_command_segments, Hsegs.
    assert (Hgo : parse_segments (length (init ++ [lastseg])) 0
                    (init ++ [lastseg]) [] false
                  = ParseOk (mkPipeline (sts ++ [command (expand_words pre)])
                                        true)).
    { rewrite (parse_segments_prefix init sts) by
        (try assumption; rewrite length_app; simpl; lia).
      cbn [Parser.parse_segments app].
      destruct (trim lastseg) eqn:Et.
      { destruct pre; discriminate. }
      rewrite Htoks.
      replace (0 + length init =? length (init ++ [lastseg]) - 1)%nat with true
        by (symmetry; apply Nat.eqb_eq; rewrite length_app; simpl; lia).
      rewrite walk_tokens_words_then; try assumption;
        [|unfold args_fit; simpl; lia].
      cbn [empty_stage args app]. rewrite take_ge by lia.
      cbn [Parser.walk_tokens set_args args].
      destruct (Nat.ltb_spec (length (expand_words pre)) (MAX_ARGS - 1));
        [|lia].
      cbn [negb String.eqb Ascii.eqb Bool.eqb andb orb].
      rewrite length_app. cbn [length].
      now replace (length sts + 1 =? 0)%nat with false
        by (symmetry; apply Nat.eqb_neq; lia). }
    rewrite <- Hgo. now destruct init.
Qed.

End WithGlob.

(** *** The claims at concrete lines *)

Definition eleven_stages : string := "a|b|c|d|e|f|g|h|i|j|k".

Definition nine_commands : pipeline :=
  mkPipeline (map (fun name => command [name])
                  ["a"; "b"; "c"; "d"; "e"; "f"; "g"; "h"; "i"]) false.

(** [x] followed by seventy arguments [a]. *)
Definition seventy_arguments : string :=
  "x" +:+ String.concat "" (replicate 70 " a").

(** C3 as the specification states it fails: a line of eleven stages is
    parsed, as its first nine stages; a stage of 71 words is parsed, with
    its first 63 words. *)
Lemma C3_counterexample :
  length (strtok_all is_pipe eleven_stages) = 11 /\
  parse_command no_matches enough_memory eleven_stages = ParseOk nine_commands /\
  length (strtok_all is_blank seventy_arguments) = 71 /\
  parse_command no_matches enough_memory seventy_arguments
  = ParseOk (mkPipeline [command ("x" :: replicate 62 "a")] false).
Proof. repeat split; vm_compute; reflexivity. Qed.

(** C7 as the specification states it fails: the empty segment between
    the two pipe signs is skipped by [strtok]; the pipeline does not end
    with [a]. *)
Lemma C7_counterexample :
  parse_command no_matches enough_memory "a||b"
  = ParseOk (mkPipeline [command ["a"]; command ["b"]] false).
Proof. vm_compute; reflexivity. Qed.

Lemma C7_witness :
  cmd_tokens "ls -l | wc |  | sort" = ["ls -l "; " wc "] ++ "  " :: [" sort"] /\
  parse_command no_matches enough_memory "ls -l | wc |  | sort"
  = ParseOk (mkPipeline [command ["ls"; "-l"]; command ["wc"]] false).
Proof.
  split; [vm_compute; reflexivity|].
  apply (C7_blank_segment_truncates no_matches enough_memory
           "ls -l | wc |  | sort" ["ls -l "; " wc "] "  " [" sort"]
           [command ["ls"; "-l"]; command ["wc"]]).
  - vm_compute; reflexivity.
  - vm_compute; reflexivity.
  - repeat constructor; try discriminate; vm_compute; reflexivity.
Defined.

(** C9 as the specification states it fails: the ["&"] is not the final
    token of the line, yet the flag is set (and [echo hi] is dropped). *)
Lemma C9_counterexample :
  parse_command no_matches enough_memory "sleep 5 & echo hi"
  = ParseOk (mkPipeline [command ["sleep"; "5"]] true).
Proof. vm_compute; reflexivity. Qed.

Lemma C9_witness :
  (exists init lastseg,
      cmd_tokens "ls | sleep 5 & echo hi" = init ++ [lastseg] /\
      "&" ∈ strtok_all is_blank (trim lastseg)) /\
  parse_command no_matches enough_memory "ls | sleep 5 & echo hi"
  = ParseOk (mkPipeline [command ["ls"]; command ["sleep"; "5"]] true).
Proof.
  destruct (C9_background_flag no_matches enough_memory) as [Honly Hsets].
  assert (Hparse :
      parse_command no_matches enough_memory "ls | sleep 5 & echo hi"
      = ParseOk (mkPipeline ([command ["ls"]]
                             ++ [command (expand_words no_matches ["sleep"; "5"])])
                            true)).
  { apply (Hsets "ls | sleep 5 & echo hi" ["ls "] " sleep 5 & echo hi"
             [command ["ls"]] ["sleep"; "5"] ["echo"; "hi"]).
    - vm_compute; reflexivity.
    - repeat constructor; try discriminate; vm_compute; reflexivity.
    - vm_compute; reflexivity.
    - repeat constructor; discriminate.
    - repeat constructor.
    - vm_compute; lia. }
  split; [|exact Hparse].
  exact (Honly _ _ Hparse eq_refl).
Defined.

End ParserFacts.

(** ** Properties of the executor *)

Module ExecutorFacts.
Import Parser Executor.

(** Standard input and standard output are open. *)
Definition std_open (t : fd_table) : Prop :=
  is_Some (t !! 0) /\ is_Some (t !! 1).

(** A descriptor other than standard input and standard output. *)
Definition away (fd : nat) : Prop := fd <> 0 /\ fd <> 1.

Lemma first_free_spec (t : fd_table) n fuel :
  t !! first_free t n fuel = None \/ first_free t n fuel = n + fuel.
Proof.
  revert n. induction fuel as [|fuel IH]; intros n; simpl.
  - right. lia.
  - destruct (t !! n) eqn:E; [|now left].
    destruct (IH (S n)) as [H|H]; [now left|right; lia].
Qed.

Lemma lowest_free_unused (t : fd_table) : t !! lowest_free t = None.
Proof.
  unfold lowest_free.
  destruct (first_free_spec t 0 (fresh (dom t))) as [H|H]; [exact H|].
  rewrite H. simpl. apply not_elem_of_dom, is_fresh.
Qed.

Lemma lowest_free_away t : std_open t -> away (lowest_free t).
Proof.
  intros [[d0 H0] [d1 H1]]. pose proof (lowest_free_unused t) as Hf.
  split; intros E; rewrite E in Hf; congruence.
Qed.

Lemma std_open_insert t fd d : std_open t -> std_open (<[fd := d]> t).
Proof.
  intros [H0 H1]. split.
  - destruct (decide (fd = 0)) as [->|]; [rewrite lookup_insert_eq; eauto|].
    now rewrite lookup_insert_ne.
  - destruct (decide (fd = 1)) as [->|]; [rewrite lookup_insert_eq; eauto|].
    now rewrite lookup_insert_ne.
Qed.

Lemma std_open_dup2 t oldfd newfd : std_open t -> std_open (dup2 oldfd newfd t).
Proof.
  intros H. unfold dup2. destruct (t !! oldfd); [|exact H].
  now apply std_open_insert.
Qed.

Lemma std_open_dup2_pipe t pipefd j newfd :
  std_open t -> std_open (dup2_pipe pipefd j newfd t).
Proof.
  intros H. unfold dup2_pipe. destruct (pipefd !! j); [|exact H].
  now apply std_open_dup2.
Qed.

(** Descriptors 0 and 1 through the calls of a child. *)

Lemma lookup_insert_away (t : fd_table) fd d k :
  away fd -> k = 0 \/ k = 1 -> <[fd := d]> t !! k = t !! k.
Proof. intros [? ?] [->| ->]; now rewrite lookup_insert_ne. Qed.

Lemma lookup_close_away (t : fd_table) fd k :
  away fd -> k = 0 \/ k = 1 -> close fd t !! k = t !! k.
Proof. intros [? ?] [->| ->]; unfold close; now rewrite lookup_delete_ne. Qed.

Lemma lookup_close_all_away fds (t : fd_table) k :
  Forall away fds -> k = 0 \/ k = 1 -> close_all fds t !! k = t !! k.
Proof.
  intros Hfds Hk. revert t. unfold close_all.
  induction Hfds as [|fd fds Hfd Hfds IH]; intros t; simpl; [reflexivity|].
  rewrite IH. now apply lookup_close_away.
Qed.

Lemma lookup_close_if_open_away fd (t : fd_table) k :
  (forall x, fd = Some x -> away x) -> k = 0 \/ k = 1 ->
  close_if_open fd t !! k = t !! k.
Proof.
  intros Hfd Hk. destruct fd as [x|]; [|reflexivity].
  simpl. apply lookup_close_away; [now apply Hfd|assumption].
Qed.

Lemma lookup_dup2_new (t : fd_table) oldfd newfd d :
  t !! oldfd = Some d -> dup2 oldfd newfd t !! newfd = Some d.
Proof. intros H. unfold dup2. rewrite H. apply lookup_insert_eq. Qed.

Lemma lookup_dup2_other (t : fd_table) oldfd newfd k :
  k <> newfd -> dup2 oldfd newfd t !! k = t !! k.
Proof.
  intros H. unfold dup2. destruct (t !! oldfd); [|reflexivity].
  now rewrite lookup_insert_ne.
Qed.

Lemma lookup_dup2_pipe_other (t : fd_table) pipefd j newfd k :
  k <> newfd -> dup2_pipe pipefd j newfd t !! k = t !! k.
Proof.
  intros H. unfold dup2_pipe. destruct (pipefd !! j); [|reflexivity].
  now apply lookup_dup2_other.
Qed.

Section WithSystem.

Variable can_open : file_desc -> bool.
Variable executable : string -> bool.
Variable pipe_fails : nat -> bool.
Variable fork_fails : nat -> bool.

Abbreviation sys_open := (sys_open can_open).
Abbreviation execvp := (execvp executable).
Abbreviation system_child := (system_child can_open executable).
Abbreviation pipe_child := (pipe_child can_open executable).
Abbreviation create_pipes := (create_pipes pipe_fails).
Abbreviation fork_children := (fork_children can_open executable fork_fails).
Abbreviation execute_system_command :=
  (execute_system_command can_open executable fork_fails).
Abbreviation execute_multiple_pipes :=
  (execute_multiple_pipes can_open executable pipe_fails fork_fails).

(** An [open] that succeeds and the [dup2] that follows it. *)
Lemma open_then_dup2 what t fd t' newfd :
  std_open t ->
  sys_open what t = Some (fd, t') ->
  away fd /\
  std_open (dup2 fd newfd t') /\
  dup2 fd newfd t' !! newfd = Some what /\
  (forall k, (k = 0 \/ k = 1) -> k <> newfd ->
             dup2 fd newfd t' !! k = t !! k).
Proof.
  intros Hstd H. unfold Executor.sys_open in H.
  destruct (can_open what); [|discriminate].
  inversion H; subst; clear H.
  pose proof (lowest_free_away t Hstd) as Haway.
  split; [assumption|]. split; [|split].
  - now apply std_open_dup2, std_open_insert.
  - apply lookup_dup2_new, lookup_insert_eq.
  - intros k Hk Hne. rewrite lookup_dup2_other by assumption.
    now apply lookup_insert_away.
Qed.

Lemma execvp_exec report argv0 t ns0 argv fds ns :
  execvp report argv0 t ns0 = Exec argv fds ns -> fds = t.
Proof.
  unfold Executor.execvp. destruct argv0 as [|prog rest]; [discriminate|].
  destruct (executable prog); [|discriminate].
  now inversion 1.
Qed.

(** What the two descriptors of a stage name when the child of
    [execute_multiple_pipes] gets to [execvp]. *)
Definition wired (st : stage) (fds : fd_table) : Prop :=
  (forall file, input_file st = Some file ->
                fds !! 0 = Some (FileRead file)) /\
  (forall file, output_file st = Some file ->
                fds !! 1 = Some (FileWrite file (append st))).

Lemma pipe_child_wired i n pipefd st t argv fds ns :
  std_open t ->
  Forall away pipefd ->
  pipe_child i n pipefd st t = Exec argv fds ns ->
  wired st fds.
Proof.
  intros Hstd Hpipes H. unfold Executor.pipe_child in H.
  (* standard input *)
  set (stdin_done := match input_file st with Some _ => _ | None => _ end) in H.
  assert (Hin : match stdin_done with
                | inl _ => True
                | inr (input_fd, t1) =>
                    std_open t1 /\
                    (forall x, input_fd = Some x -> away x) /\
                    (forall file, input_file st = Some file ->
                                  t1 !! 0 = Some (FileRead file))
                end).
  { subst stdin_done. destruct (input_file st) as [file|].
    - destruct (sys_open (FileRead file) t) as [[fd t']|] eqn:Eo; [|exact I].
      destruct (open_then_dup2 _ _ _ _ 0 Hstd Eo) as (Ha & Hs & Hnew & _).
      split; [assumption|]. split.
      + intros x Hx. now inversion Hx; subst.
      + intros file' Hf. now inversion Hf; subst.
    - destruct (0 <? i)%nat.
      + split; [now apply std_open_dup2_pipe|]. split; intros; discriminate.
      + split; [assumption|]. split; intros; discriminate. }
  destruct stdin_done as [msg|[input_fd t1]]; [discriminate|].
  destruct Hin as (Hstd1 & Hfd1 & Hin).
  (* standard output *)
  set (stdout_done := match output_file st with Some _ => _ | None => _ end) in H.
  assert (Hout : match stdout_done with
                 | inl _ => True
                 | inr (output_fd, t2) =>
                     (forall x, output_fd = Some x -> away x) /\
                     t2 !! 0 = t1 !! 0 /\
                     (forall file, output_file st = Some file ->
                                   t2 !! 1 = Some (FileWrite file (append st)))
                 end).
  { subst stdout_done. destruct (output_file st) as [file|].
    - destruct (sys_open (FileWrite file (append st)) t1) as [[fd t']|] eqn:Eo;
        [|exact I].
      destruct (open_then_dup2 _ _ _ _ 1 Hstd1 Eo) as (Ha & Hs & Hnew & Hold).
      split; [|split].
      + intros x Hx. now inversion Hx; subst.
      + apply Hold; [now left|lia].
      + intros file' Hf. now inversion Hf; subst.
    - destruct (i <? n - 1)%nat.
      + split; [intros; discriminate|]. split; [|intros; discriminate].
        apply lookup_dup2_pipe_other. lia.
      + split; [intros; discriminate|]. split; [reflexivity|intros; discriminate]. }
  destruct stdout_done as [msg|[output_fd t2]]; [discriminate|].
  destruct Hout as (Hfd2 & H0 & Hout).
  apply execvp_exec in H. subst fds.
  split; intros file Hf.
  - rewrite !lookup_close_if_open_away, lookup_close_all_away, H0;
      auto.
  - rewrite !lookup_close_if_open_away, lookup_close_all_away;
      auto.
Qed.

(** The same for the child of [execute_system_command]. *)
Lemma system_child_wired st bg t argv fds ns :
  std_open t ->
  system_child st bg t = Exec argv fds ns ->
  wired st fds.
Proof.
  intros Hstd H. unfold Executor.system_child in H.
  set (stdin_done := match input_file st with Some _ => _ | None => _ end) in H.
  assert (Hin : match stdin_done with
                | inl _ => True
                | inr (input_fd, t1) =>
                    std_open t1 /\
                    (forall x, input_fd = Some x -> away x) /\
                    (forall file, input_file st = Some file ->
                                  t1 !! 0 = Some (FileRead file))
                end).
  { subst stdin_done. destruct (input_file st) as [file|].
    - destruct (sys_open (FileRead file) t) as [[fd t']|] eqn:Eo; [|exact I].
      destruct (open_then_dup2 _ _ _ _ 0 Hstd Eo) as (Ha & Hs & Hnew & _).
      split; [assumption|]. split.
      + intros x Hx. now inversion Hx; subst.
      + intros file' Hf. now inversion Hf; subst.
    - split; [assumption|]. split; intros; discriminate. }
  destruct stdin_done as [msg|[input_fd t1]]; [discriminate|].
  destruct Hin as (Hstd1 & Hfd1 & Hin).
  set (stdout_done := match output_file st with Some _ => _ | None => _ end) in H.
  assert (Hout : match stdout_done with
                 | inl _ => True
                 | inr (output_fd, t2) =>
                     (forall x, output_fd = Some x -> away x) /\
                     t2 !! 0 = t1 !! 0 /\
                     (forall file, output_file st = Some file ->
                                   t2 !! 1 = Some (FileWrite file (append st)))
                 end).
  { subst stdout_done. destruct (output_file st) as [file|].
    - destruct (sys_open (FileWrite file (append st)) t1) as [[fd t']|] eqn:Eo;
        [|exact I].
      destruct (open_then_dup2 _ _ _ _ 1 Hstd1 Eo) as (Ha & Hs & Hnew & Hold).
      split; [|split].
      + intros x Hx. now inversion Hx; subst.
      + apply Hold; [now left|lia].
      + intros file' Hf. now inversion Hf; subst.
    - split; [intros; discriminate|]. split; [reflexivity|intros; discriminate]. }
  destruct stdout_done as [msg|[output_fd t2]]; [discriminate|].
  destruct Hout as (Hfd2 & H0 & Hout).
  apply execvp_exec in H. subst fds.
  split; intros file Hf.
  - rewrite !lookup_close_if_open_away, H0; auto.
  - rewrite !lookup_close_if_open_away; auto.
Qed.

(** The pipes get descriptors other than 0 and 1. *)
Lemma create_pipes_away todo k pipefd t pipefd' t' :
  std_open t ->
  Forall away pipefd ->
  create_pipes todo k pipefd t = inr (pipefd', t') ->
  std_open t' /\ Forall away pipefd'.
Proof.
  revert k pipefd t. induction todo as [|todo IH]; intros k pipefd t Hstd Hp H;
    simpl in H.
  - now inversion H; subst.
  - unfold sys_pipe in H. destruct (pipe_fails k); [discriminate|].
    apply IH in H; [assumption| |].
    + now do 2 apply std_open_insert.
    + apply Forall_app. split; [assumption|].
      constructor; [now apply lowest_free_away|].
      constructor; [|constructor].
      now apply lowest_free_away, std_open_insert.
Qed.

(** The [j]-th child forked runs the child code of stage [i + j]. *)
Lemma fork_children_lookup i n pipefd todo t j c :
  (fork_children i n pipefd todo t).1 !! j = Some c ->
  exists st, todo !! j = Some st /\ c = pipe_child (i + j) n pipefd st t.
Proof.
  revert i j. induction todo as [|st todo IH]; intros i j H; simpl in H.
  - discriminate.
  - destruct (fork_fails i); [discriminate|].
    destruct (fork_children (S i) n pipefd todo t) as [cs failed] eqn:E.
    destruct j as [|j]; simpl in H.
    + inversion H; subst. exists st. now rewrite Nat.add_0_r.
    + specialize (IH (S i) j). rewrite E in IH. simpl in IH.
      destruct (IH H) as (st' & Hst & Hc).
      exists st'. split; [assumption|].
      now replace (i + S j) with (S i + j) by lia.
Qed.

(** C6, amended.  In a shell whose descriptors 0 and 1 are open: whenever
    a child of a launched pipeline gets to [execvp], a redirection of its
    stage owns the descriptor: standard input names the input file,
    standard output the output file (opened in the mode of the stage), and
    not an end of a pipe.  This holds for the children of
    [execute_multiple_pipes] and for the one of [execute_system_command]. *)
Theorem C6_redirection_takes_precedence :
  (forall p t i st argv fds ns,
      std_open t ->
      stages p !! i = Some st ->
      children (execute_multiple_pipes p t) !! i = Some (Exec argv fds ns) ->
      wired st fds)
  /\
  (forall st bg t argv fds ns,
      std_open t ->
      children (execute_system_command st bg t) !! 0
      = Some (Exec argv fds ns) ->
      wired st fds).
Proof.
  split.
  - intros p t i st argv fds ns Hstd Hst H.
    unfold Executor.execute_multiple_pipes in H.
    destruct (create_pipes (num_commands p - 1) 0 [] t) as [t1|[pipefd t1]] eqn:Ep;
      [discriminate|].
    apply create_pipes_away in Ep as [Hstd1 Hpipes]; [|assumption|constructor].
    pose proof (fork_children_lookup 0 (num_commands p) pipefd (stages p) t1 i
                  (Exec argv fds ns)) as Hc.
    destruct (fork_children 0 (num_commands p) pipefd (stages p) t1)
      as [cs failed].
    assert (Hi : cs !! i = Some (Exec argv fds ns))
      by (destruct failed; exact H).
    destruct (Hc Hi) as (st' & Hst' & Hchild).
    rewrite Hst in Hst'. inversion Hst'; subst st'.
    symmetry in Hchild. now apply pipe_child_wired in Hchild.
  - intros st bg t argv fds ns Hstd H.
    unfold Executor.execute_system_command in H.
    destruct (args st); [discriminate|].
    destruct (fork_fails 0); [discriminate|].
    simpl in H. inversion H as [Hchild].
    now apply system_child_wired in Hchild.
Qed.

End WithSystem.

(** *** The claim at a concrete pipeline *)

Definition always {A} : A -> bool := fun _ => true.
Definition never {A} : A -> bool := fun _ => false.

(** [cat < in | sort < in2 >> out | wc] *)
Definition three_stages : pipeline :=
  mkPipeline [mkStage ["cat"] (Some "in") None false;
              mkStage ["sort"] (Some "in2") (Some "out") true;
              command ["wc"]] false.

Definition sort_fds : fd_table :=
  {[ 0 := FileRead "in2"; 1 := FileWrite "out" true; 2 := Terminal ]}.

Lemma C6_witness :
  children (execute_multiple_pipes always always never never
              three_stages terminal_fds) !! 1
  = Some (Exec ["sort"] sort_fds false) /\
  sort_fds !! 0 = Some (FileRead "in2") /\
  sort_fds !! 1 = Some (FileWrite "out" true) /\
  children (execute_system_command always always never
              (mkStage ["sort"] (Some "in2") (Some "out") true) false
              terminal_fds) !! 0
  = Some (Exec ["sort"] sort_fds false).
Proof.
  assert (Hstd : std_open terminal_fds) by (split; eexists; reflexivity).
  assert (Hmany :
    children (execute_multiple_pipes always always never never
                three_stages terminal_fds) !! 1
    = Some (Exec ["sort"] sort_fds false)) by (vm_compute; reflexivity).
  assert (Hone :
    children (execute_system_command always always never
                (mkStage ["sort"] (Some "in2") (Some "out") true) false
                terminal_fds) !! 0
    = Some (Exec ["sort"] sort_fds false)) by (vm_compute; reflexivity).
  destruct (C6_redirection_takes_precedence always always never never)
    as [Hpipes Hsingle].
  destruct (Hpipes three_stages terminal_fds 1
              (mkStage ["sort"] (Some "in2") (Some "out") true)
              ["sort"] sort_fds false Hstd eq_refl Hmany) as [Hin Hout].
  pose proof (Hsingle _ _ _ _ _ _ Hstd Hone) as [_ _].
  split; [exact Hmany|].
  split; [exact (Hin "in2" eq_refl)|].
  split; [exact (Hout "out" eq_refl)|exact Hone].
Defined.

(** A shell that was started with its standard output closed. *)
Definition no_stdout : fd_table := {[ 0 := Terminal; 2 := Terminal ]}.

(** [sort > out | wc] *)
Definition sort_to_out : pipeline :=
  mkPipeline [mkStage ["sort"] None (Some "out") false; command ["wc"]] false.

(** C6 as the specification states it fails.  In a shell without
    descriptor 1 the first [pipe] returns 1 as its read end; the child of
    [sort > out] puts the file on descriptor 1 with [dup2] and then closes
    every [pipefd[j]], descriptor 1 among them: it gets to [execvp] with no
    standard output at all.  The single command loses its file in the same
    way: [open] returns 1 and [close(output_fd)] closes it. *)
Lemma C6_counterexample :
  stages sort_to_out !! 0 = Some (mkStage ["sort"] None (Some "out") false) /\
  children (execute_multiple_pipes always always never never
              sort_to_out no_stdout) !! 0
  = Some (Exec ["sort"] no_stdout false) /\
  children (execute_system_command always always never
              (mkStage ["sort"] None (Some "out") false) false no_stdout) !! 0
  = Some (Exec ["sort"] no_stdout false) /\
  no_stdout !! 1 = None.
Proof. repeat split; vm_compute; reflexivity. Qed.

End ExecutorFacts.

(** ** Properties of the reaper *)

Module ReaperFacts.
Import Reaper.

Lemma drain_printed zombies still_running :
  printed (drain zombies still_running) = map completed zombies.
Proof.
  induction zombies as [|pid zombies IH]; simpl; [reflexivity|].
  now rewrite <- IH.
Qed.

Lemma drain_unsafe_calls zombies still_running :
  filter (fun c => async_signal_safe c = false) (drain zombies still_running)
  = map (fun pid => Printf (completed pid)) zombies.
Proof.
  induction zombies as [|pid zombies IH]; [reflexivity|].
  cbn [drain map].
  rewrite filter_cons_False by (simpl; congruence).
  rewrite filter_cons_True by reflexivity.
  now rewrite IH.
Qed.

(** C1, amended.  The handler reaps every terminated child with
    non-blocking [waitpid] calls and reports each of them itself, with one
    [printf] per child: these are its only calls that are not
    async-signal-safe, it records nothing for the main loop, and it leaves
    no terminated child behind. *)
Theorem C1_handler_reports_with_printf cs :
  let '(calls, cs') := sigchld_handler cs in
  printed calls = map completed (terminated cs) /\
  filter (fun c => async_signal_safe c = false) calls
  = map (fun pid => Printf (completed pid)) (terminated cs) /\
  terminated cs' = [] /\ running cs' = running cs.
Proof.
  unfold sigchld_handler.
  split; [apply drain_printed|].
  split; [apply drain_unsafe_calls|].
  split; reflexivity.
Qed.

(** C1 as the specification states it fails: with one terminated child
    the handler calls [printf], which is buffered output. *)
Lemma C1_counterexample :
  (sigchld_handler (mkChildren [42%positive] 0)).1
  = [Waitpid 42; Printf ("[PID 42] Completed" +:+ String "010" ""); Waitpid (-1)]
  /\ existsb (fun c => negb (async_signal_safe c))
       (sigchld_handler (mkChildren [42%positive] 0)).1 = true.
Proof. split; reflexivity. Qed.

End ReaperFacts.

(** ** Properties of the tree operations *)

Module TreeOpsFacts.
Import FileSystem TreeOps.

(** *** The recursion never runs out of levels *)

Lemma levels_next depth :
  (depth <= MAX_RECURSION)%Z -> levels depth = S (levels (depth + 1)).
Proof. unfold levels, MAX_RECURSION. lia. Qed.

Lemma recursive_delete_rec_enough fuel1 fuel2 path depth w :
  levels depth <= fuel1 -> levels depth <= fuel2 ->
  recursive_delete_rec fuel1 path depth w
  = recursive_delete_rec fuel2 path depth w.
Proof.
  revert fuel2 path depth w.
  induction fuel1 as [|fuel1 IH]; intros [|fuel2] path depth w H1 H2;
    simpl; destruct (Z.ltb_spec MAX_RECURSION depth) as [Hd|Hd];
    try reflexivity; try (rewrite levels_next in * by assumption; lia).
  destruct (sys_stat path (fs w)) as [e|st]; [reflexivity|].
  destruct (S_ISDIR st); [|reflexivity].
  destruct (sys_opendir path (fs w)) as [e|names]; [reflexivity|].
  rewrite levels_next in H1, H2 by assumption.
  match goal with
  | |- match ?each1 names w with _ => _ end
       = match ?each2 names w with _ => _ end =>
      assert (Heach : forall names w, each1 names w = each2 names w)
  end.
  { clear names w. induction names as [|d_name names IHnames]; intros w;
      [reflexivity|]. simpl.
    destruct (_ || _); [apply IHnames|].
    destruct (too_long _); [reflexivity|].
    rewrite (IH fuel2) by lia. apply IHnames. }
  now rewrite Heach.
Qed.

Section WithProcess.

Variable umask : Z.
Variable behind : string -> string.

Abbreviation sys_mkdir := (sys_mkdir umask).
Abbreviation copy_file := (copy_file umask behind).
Abbreviation recursive_copy_rec := (recursive_copy_rec umask behind).
Abbreviation recursive_copy := (recursive_copy umask behind).

Lemma recursive_copy_rec_enough fuel1 fuel2 src dest depth w :
  levels depth <= fuel1 -> levels depth <= fuel2 ->
  recursive_copy_rec fuel1 src dest depth w
  = recursive_copy_rec fuel2 src dest depth w.
Proof.
  revert fuel2 src dest depth w.
  induction fuel1 as [|fuel1 IH]; intros [|fuel2] src dest depth w H1 H2;
    simpl; destruct (Z.ltb_spec MAX_RECURSION depth) as [Hd|Hd];
    try reflexivity; try (rewrite levels_next in * by assumption; lia).
  destruct (sys_stat src (fs w)) as [e|st]; [reflexivity|].
  destruct (S_ISDIR st); [|reflexivity].
  destruct (match sys_stat dest (fs w) with inr _ => _ | inl _ => _ end);
    [reflexivity|].
  destruct (match sys_mkdir dest (st_mode st) (fs w) with
            | inr _ => _ | inl _ => _ end) as [e|w1]; [reflexivity|].
  destruct (sys_opendir src (fs w1)) as [e|names]; [reflexivity|].
  rewrite levels_next in H1, H2 by assumption.
  revert w1. induction names as [|d_name names IHnames]; intros w1;
    [reflexivity|]. simpl.
  destruct (_ || _); [apply IHnames|].
  destruct (_ || _); [reflexivity|].
  rewrite (IH fuel2) by lia. apply IHnames.
Qed.

(** With the levels that [recursive_delete] and [recursive_copy] start
    from, more levels change nothing: the bound on [depth] ends the
    recursion first. *)
Lemma recursive_copy_enough fuel src dest depth w :
  levels depth <= fuel ->
  recursive_copy_rec fuel src dest depth w = recursive_copy src dest depth w.
Proof. intros H. now apply recursive_copy_rec_enough. Qed.

(** *** A source that is not a directory *)

Lemma recursive_copy_not_dir src dest depth w st :
  (depth <= MAX_RECURSION)%Z ->
  sys_stat src (fs w) = inr st ->
  S_ISDIR st = false ->
  recursive_copy src dest depth w = copy_file src dest st w.
Proof.
  intros Hd Hstat Hdir. unfold recursive_copy.
  apply Z.ltb_ge in Hd.
  destruct (levels depth); simpl; now rewrite Hd, Hstat, Hdir.
Qed.

End WithProcess.

Lemma recursive_delete_enough fuel path depth w :
  levels depth <= fuel ->
  recursive_delete_rec fuel path depth w = recursive_delete path depth w.
Proof. intros H. now apply recursive_delete_rec_enough. Qed.

Lemma recursive_delete_not_dir path depth w st :
  (depth <= MAX_RECURSION)%Z ->
  sys_stat path (fs w) = inr st ->
  S_ISDIR st = false ->
  recursive_delete path depth w =
    match sys_unlink path (fs w) with
    | inl e => perror "unlink failed" e w
    | inr t => with_fs t w
    end.
Proof.
  intros Hd Hstat Hdir. unfold recursive_delete.
  apply Z.ltb_ge in Hd.
  destruct (levels depth); simpl; now rewrite Hd, Hstat, Hdir.
Qed.

(** *** Reading a file and cutting a path *)

Lemma append_cons c s1 s2 : String c s1 +:+ s2 = String c (s1 +:+ s2).
Proof. reflexivity. Qed.

Lemma take_drop_string n s : take_string n s +:+ drop_string n s = s.
Proof.
  revert s. induction n as [|n IH]; intros [|c s]; simpl; try reflexivity.
  now rewrite append_cons, IH.
Qed.

Lemma drop_string_length n s :
  String.length (drop_string n s) = String.length s - n.
Proof.
  revert s. induction n as [|n IH]; intros [|c s]; simpl; try reflexivity.
  apply IH.
Qed.

(** The [read]s of the copy loop return all of the file, in order. *)
Lemma reads_all fuel size data :
  String.length data <= fuel ->
  foldr String.append "" (reads fuel (S size) data) = data.
Proof.
  revert data. induction fuel as [|fuel IH]; intros [|c data] Hlen;
    simpl in *; try reflexivity; try lia.
  rewrite IH, append_cons, take_drop_string; [reflexivity|].
  rewrite drop_string_length. lia.
Qed.

Lemma take_string_length n s :
  String.length (take_string n s) = Nat.min n (String.length s).
Proof.
  revert s. induction n as [|n IH]; intros [|c s]; simpl; try reflexivity.
  now rewrite IH.
Qed.

Lemma take_string_all n s : String.length s <= n -> take_string n s = s.
Proof.
  revert s. induction n as [|n IH]; intros [|c s] H; simpl in *;
    try reflexivity; try lia.
  rewrite IH; [reflexivity|lia].
Qed.

(** [strncpy] leaves the buffer without its end for exactly the paths that
    a checked [snprintf] rejects. *)
Lemma strncpy_fits behind path :
  too_long path = false -> strncpy behind path = path.
Proof.
  unfold too_long, strncpy. intros H. apply Nat.leb_gt in H.
  now replace (String.length path <? MAX_PATH)%nat with true
    by (symmetry; now apply Nat.ltb_lt).
Qed.

Lemma strncpy_cuts behind path :
  too_long path = true ->
  strncpy behind path = take_string MAX_PATH path +:+ behind.
Proof.
  unfold too_long, strncpy. intros H. apply Nat.leb_le in H.
  now replace (String.length path <? MAX_PATH)%nat with false
    by (symmetry; now apply Nat.ltb_ge).
Qed.

(** *** The room on the disk *)

Lemma used_insert_new (t : tree) key n :
  t !! key = None -> used (<[key := n]> t) = size n + used t.
Proof.
  intros H. unfold used.
  apply (map_fold_insert_L (fun _ n total => size n + total)); [|exact H].
  intros. lia.
Qed.

Lemma used_delete (t : tree) key n :
  t !! key = Some n -> used t = size n + used (delete key t).
Proof.
  intros H. unfold used.
  apply (map_fold_delete_L (fun _ n total => size n + total)); [|exact H].
  intros. lia.
Qed.

Lemma used_insert (t : tree) key n n' :
  t !! key = Some n -> used (<[key := n']> t) + size n = used t + size n'.
Proof.
  intros H.
  rewrite <- insert_delete_eq, used_insert_new by apply lookup_delete_eq.
  rewrite (used_delete t key n H). lia.
Qed.

(** *** The claims about the tree operations *)

(** A directory [d] that holds a file, and a symbolic link to [d]. *)
Definition linked_tree : tree :=
  {[ [] := Dir 493; ["d"] := Dir 493; ["d"; "f"] := File 420 "hello";
     ["link"] := Symlink "d" ]}.

(** C5 (the code departs from the claim).  The comment in the source says
    that symbolic links are not to be followed, but the call is [stat], not
    [lstat]: [recursive_delete] of the link sees a directory, empties the
    directory the link points to, and leaves the link in place. *)
Theorem C5_delete_acts_on_the_target_of_a_link :
  sys_lstat "link" linked_tree = inr (Symlink "d") /\
  sys_stat "link" linked_tree = inr (Dir 493) /\
  let w := recursive_delete "link" 0 (mkWorld linked_tree 1000 [] []) in
  fs w !! ["d"; "f"] = None /\
  fs w !! ["d"] = Some (Dir 493) /\
  fs w !! ["link"] = Some (Symlink "d") /\
  stderr w = ["rmdir failed: Not a directory"].
Proof. vm_compute. repeat split; reflexivity. Qed.

Section WithRename.

Variable umask : Z.
Variable behind : string -> string.
Variable sys_rename : string -> string -> tree -> errno + tree.

Abbreviation sys_open_trunc := (sys_open_trunc umask).
Abbreviation strncpy dest := (strncpy (behind dest) dest).
Abbreviation recursive_copy := (recursive_copy umask behind).
Abbreviation execute_builtin := (execute_builtin umask behind sys_rename).

(** C10.  [mv -r src dest] is [recursive_copy] followed by
    [recursive_delete] of the source in whatever state the copy left, with
    no status in between; in particular, when the source is a regular file
    and the destination can not be opened, nothing is copied and the source
    is unlinked all the same. *)
Theorem C10_mv_r_deletes_after_any_copy :
  (forall src dest w,
      execute_builtin ["mv"; "-r"; src; dest] w
      = Done (recursive_delete src 0 (recursive_copy src dest 0 w)))
  /\
  (forall src dest w mode data src_fd e e' t,
      sys_stat src (fs w) = inr (File mode data) ->
      sys_open_rdonly src (fs w) = inr src_fd ->
      sys_stat dest (fs w) = inl e ->
      sys_open_trunc (strncpy dest) mode (fs w) = inl e' ->
      sys_unlink src (fs w) = inr t ->
      execute_builtin ["mv"; "-r"; src; dest] w
      = Done (mkWorld t (disk_size w) (stdout w)
                (stderr w ++ ["fopen dest failed: " +:+ strerror e']))).
Proof.
  split; [reflexivity|].
  intros src dest w mode data src_fd e e' t Hstat Hopen Hdest Hcreate Hunlink.
  change (execute_builtin ["mv"; "-r"; src; dest] w)
    with (Done (recursive_delete src 0 (recursive_copy src dest 0 w))).
  f_equal.
  assert (Hdepth : (0 <= MAX_RECURSION)%Z) by (unfold MAX_RECURSION; lia).
  assert (Hcopy : recursive_copy src dest 0 w
                  = perror "fopen dest failed" e' w).
  { rewrite (recursive_copy_not_dir _ _ _ _ _ _ _ Hdepth Hstat eq_refl).
    unfold copy_file. rewrite Hopen, Hdest. cbn [st_mode].
    now rewrite Hcreate. }
  rewrite Hcopy.
  rewrite (recursive_delete_not_dir _ _ _ (File mode data));
    [|exact Hdepth|exact Hstat|reflexivity].
  cbn [perror eprint fs]. now rewrite Hunlink.
Qed.

End WithRename.

(** *** C10 at concrete trees *)

Definition no_rename : string -> string -> tree -> errno + tree :=
  fun _ _ _ => inl EINVAL.

(** The usual umask, 022, and a buffer with a 0 right behind it. *)
Definition usual_umask : Z := 18.
Definition nothing_behind : string -> string := fun _ => "".

(** A file and a directory with a file in it. *)
Definition small_tree : tree :=
  {[ [] := Dir 493; ["x"] := File 420 "xx";
     ["d"] := Dir 493; ["d"; "f"] := File 420 "hello" ]}.

Lemma C10_witness :
  execute_builtin usual_umask nothing_behind no_rename
    ["mv"; "-r"; "x"; "nodir/y"] (mkWorld small_tree 1000 [] [])
  = Done (mkWorld {[ [] := Dir 493; ["d"] := Dir 493;
                     ["d"; "f"] := File 420 "hello" ]}
            1000 [] ["fopen dest failed: No such file or directory"])
  /\
  execute_builtin usual_umask nothing_behind no_rename
    ["mv"; "-r"; "d"; "x"] (mkWorld small_tree 1000 [] [])
  = Done (mkWorld {[ [] := Dir 493; ["x"] := File 420 "xx" ]} 1000 []
            ["cp: cannot overwrite non-directory 'x' with directory 'd'"])
  /\
  (* a disk with room for three more bytes: the copy stops in the middle
     of [f] *)
  execute_builtin usual_umask nothing_behind no_rename
    ["mv"; "-r"; "d"; "e"] (mkWorld small_tree 10 [] [])
  = Done (mkWorld {[ [] := Dir 493; ["x"] := File 420 "xx";
                     ["e"] := Dir 493; ["e"; "f"] := File 420 "hel" ]} 10 []
            ["write failed: No space left on device"]).
Proof.
  destruct (C10_mv_r_deletes_after_any_copy usual_umask nothing_behind
              no_rename) as [Hseq Hfile].
  split; [|split].
  - rewrite (Hfile "x" "nodir/y" (mkWorld small_tree 1000 [] [])
               420%Z "xx" ["x"] ENOENT ENOENT
               {[ [] := Dir 493; ["d"] := Dir 493;
                  ["d"; "f"] := File 420 "hello" ]});
      vm_compute; reflexivity.
  - rewrite Hseq. vm_compute. reflexivity.
  - rewrite Hseq. vm_compute. reflexivity.
Defined.

End TreeOpsFacts.



(** * Further properties *)

(** ** Lines made of plain words *)

Module ParserMore.
Import Strtok StrtokFacts Parser ParserFacts.

(** Every character of [s] passes the test [p]. *)
Fixpoint all_chars (p : ascii -> bool) (s : string) : bool :=
  match s with
  | EmptyString => true
  | String c s' => p c && all_chars p s'
  end.

(** A token as [strtok] with the delimiters [delim] returns them. *)
Definition is_token (delim : ascii -> bool) (t : string) : Prop :=
  t <> "" /\ all_chars (fun c => negb (delim c)) t = true.

Lemma take_token_whole delim t :
  all_chars (fun c => negb (delim c)) t = true ->
  take_token delim t = (t, "").
Proof.
  induction t as [|c t IH]; simpl; [reflexivity|].
  intros [Hc Ht]%andb_prop. apply negb_true_iff in Hc.
  now rewrite Hc, IH.
Qed.

Lemma take_token_app delim t d r :
  all_chars (fun c => negb (delim c)) t = true ->
  delim d = true ->
  take_token delim (t +:+ String d r) = (t, r).
Proof.
  intros Ht Hd. induction t as [|c t IH]; simpl.
  - now rewrite Hd.
  - simpl in Ht. apply andb_prop in Ht as [Hc Ht]. apply negb_true_iff in Hc.
    now rewrite Hc, IH.
Qed.

Lemma strtok_last delim t :
  is_token delim t -> strtok delim t = (Some t, "").
Proof.
  intros [Hne Ht]. destruct t as [|c t]; [contradiction|].
  pose proof Ht as Hc. simpl in Hc. apply andb_prop in Hc as [Hc _].
  apply negb_true_iff in Hc.
  unfold strtok. cbn [skip_delims]. rewrite Hc.
  now rewrite take_token_whole.
Qed.

Lemma strtok_first delim t d r :
  is_token delim t -> delim d = true ->
  strtok delim (t +:+ String d r) = (Some t, r).
Proof.
  intros [Hne Ht] Hd. destruct t as [|c t]; [contradiction|].
  pose proof Ht as Hc. simpl in Hc. apply andb_prop in Hc as [Hc _].
  apply negb_true_iff in Hc.
  unfold strtok.
  change (String c t +:+ String d r) with (String c (t +:+ String d r)).
  cbn [skip_delims]. rewrite Hc.
  change (String c (t +:+ String d r)) with (String c t +:+ String d r).
  now rewrite take_token_app.
Qed.

(** Cutting a string that was put together from tokens and single
    delimiters gives the tokens back. *)
Lemma strtok_all_concat delim d toks :
  delim d = true ->
  Forall (is_token delim) toks ->
  strtok_all delim (String.concat (String d "") toks) = toks.
Proof.
  intros Hd Htoks. induction Htoks as [|t toks Ht Htoks IH]; [reflexivity|].
  rewrite strtok_all_unfold. cbn [String.concat].
  destruct toks as [|t' toks].
  - rewrite strtok_last by assumption. reflexivity.
  - change (String d "" +:+ ?s) with (String d s).
    rewrite strtok_first by assumption. now rewrite IH.
Qed.

(** *** Rendering a pipeline as a line *)

(** A character that is neither a blank nor the pipe sign. *)
Definition plain (c : ascii) : bool := negb (is_blank c) && negb (is_pipe c).

(** A word that the parser stores as it is: not empty, made of plain
    characters, without wildcard, and none of the four special tokens. *)
Definition is_plain_word (w : string) : Prop :=
  w <> "" /\ all_chars plain w = true /\ has_wildcard w = false /\
  w <> ">" /\ w <> ">>" /\ w <> "<" /\ w <> "&".

(** A command that is not empty and fits in a row of [args]. *)
Definition is_plain_command (ws : list string) : Prop :=
  ws <> [] /\ length ws <= MAX_ARGS - 1 /\ Forall is_plain_word ws.

(** A command that is not empty, of any length. *)
Definition is_plain_words (ws : list string) : Prop :=
  ws <> [] /\ Forall is_plain_word ws.

Lemma plain_command_words ws : is_plain_command ws -> is_plain_words ws.
Proof. now intros (Hne & _ & Hws). Qed.

(** The words of a command with one space between them, and the commands
    of a pipeline with a pipe sign between them. *)
Definition render_command (ws : list string) : string := String.concat " " ws.

Definition render_line (cmds : list (list string)) : string :=
  String.concat "|" (map render_command cmds).

Lemma all_chars_app p a b :
  all_chars p (a +:+ b) = all_chars p a && all_chars p b.
Proof.
  induction a as [|c a IH]; [reflexivity|].
  change (String c a +:+ b) with (String c (a +:+ b)).
  cbn [all_chars]. now rewrite IH, andb_assoc.
Qed.

Lemma all_chars_impl (p q : ascii -> bool) s :
  (forall c, p c = true -> q c = true) ->
  all_chars p s = true -> all_chars q s = true.
Proof.
  intros Hpq. induction s as [|c s IH]; [reflexivity|]. cbn [all_chars].
  intros [Hc Hs]%andb_prop. now rewrite (Hpq c Hc), IH.
Qed.

Lemma plain_not_blank c : plain c = true -> negb (is_blank c) = true.
Proof. unfold plain. now intros [? ?]%andb_prop. Qed.

Lemma plain_not_pipe c : plain c = true -> negb (is_pipe c) = true.
Proof. unfold plain. now intros [? ?]%andb_prop. Qed.

Lemma plain_word_token w : is_plain_word w -> is_token is_blank w.
Proof.
  intros (Hne & Hp & _). split; [assumption|].
  eapply all_chars_impl; [apply plain_not_blank|assumption].
Qed.

Lemma render_command_nonempty ws :
  is_plain_words ws -> render_command ws <> "".
Proof.
  intros (Hne & Hws). destruct Hws as [|w ws [Hw _] _]; [contradiction|].
  unfold render_command. cbn [String.concat].
  destruct w as [|c w]; [contradiction|]. destruct ws; discriminate.
Qed.

Lemma render_command_no_pipe ws :
  Forall is_plain_word ws ->
  all_chars (fun c => negb (is_pipe c)) (render_command ws) = true.
Proof.
  unfold render_command.
  induction 1 as [|w ws (_ & Hp & _) Hws IH]; [reflexivity|].
  cbn [String.concat].
  assert (Hw : all_chars (fun c => negb (is_pipe c)) w = true)
    by (eapply all_chars_impl; [apply plain_not_pipe|assumption]).
  destruct ws as [|w' ws]; [assumption|].
  rewrite !all_chars_app, Hw, IH. reflexivity.
Qed.

Lemma render_command_token ws :
  is_plain_words ws -> is_token is_pipe (render_command ws).
Proof.
  intros H. split; [now apply render_command_nonempty|].
  apply render_command_no_pipe, H.
Qed.

(** *** Trimming changes nothing at a rendered command *)

Lemma trim_right_no_blank w :
  all_chars (fun c => negb (is_blank c)) w = true -> trim_right w = w.
Proof.
  induction w as [|c w IH]; [reflexivity|]. cbn [all_chars trim_right].
  intros [Hc Hw]%andb_prop. rewrite (IH Hw).
  apply negb_true_iff in Hc. rewrite Hc. now destruct w.
Qed.

Lemma trim_right_app s1 s2 :
  trim_right s2 = s2 -> s2 <> "" -> trim_right (s1 +:+ s2) = s1 +:+ s2.
Proof.
  intros H2 Hne. induction s1 as [|c s1 IH]; [exact H2|].
  change (String c s1 +:+ s2) with (String c (s1 +:+ s2)).
  cbn [trim_right]. rewrite IH.
  destruct (s1 +:+ s2) eqn:E; [|reflexivity].
  destruct s1; [simpl in E; contradiction|discriminate].
Qed.

Lemma trim_render_command ws :
  is_plain_words ws -> trim (render_command ws) = render_command ws.
Proof.
  intros Hcmd. pose proof (render_command_nonempty ws Hcmd) as Hne.
  destruct Hcmd as (_ & Hws).
  assert (Hright : trim_right (render_command ws) = render_command ws).
  { clear Hne. unfold render_command.
    induction Hws as [|w ws Hw Hws IH]; [reflexivity|].
    cbn [String.concat]. destruct ws as [|w' ws].
    - apply trim_right_no_blank. apply plain_word_token in Hw. apply Hw.
    - assert (Hrest : String.concat " " (w' :: ws) <> "").
      { inversion Hws as [|? ? [Hw' _] _]; subst. cbn [String.concat].
        destruct w'; [contradiction|]. destruct ws; discriminate. }
      apply trim_right_app; [apply (trim_right_app " "); assumption|].
      discriminate. }
  unfold trim.
  assert (Hleft : skip_delims is_blank (render_command ws) = render_command ws).
  { unfold render_command in *. destruct Hws as [|w ws Hw Hws]; [reflexivity|].
    apply plain_word_token in Hw as [Hwne Hwp].
    destruct w as [|c w]; [contradiction|].
    cbn [all_chars] in Hwp. apply andb_prop in Hwp as [Hc _].
    apply negb_true_iff in Hc.
    cbn [String.concat]. destruct ws as [|w' ws].
    - cbn [skip_delims]. now rewrite Hc.
    - change (String c w +:+ ?s) with (String c (w +:+ s)).
      cbn [skip_delims]. now rewrite Hc. }
  now rewrite Hleft.
Qed.

Lemma tokens_render_command ws :
  Forall is_plain_word ws ->
  strtok_all is_blank (render_command ws) = ws.
Proof.
  intros Hws. apply (strtok_all_concat is_blank " "); [reflexivity|].
  eapply Forall_impl; [exact Hws|]. apply plain_word_token.
Qed.

(** *** The characters of the tokens *)

Lemma skip_delims_chars p delim s :
  all_chars p s = true -> all_chars p (skip_delims delim s) = true.
Proof.
  induction s as [|c s IH]; [reflexivity|]. cbn [skip_delims].
  intros H. destruct (delim c); [|exact H].
  cbn [all_chars] in H. apply andb_prop in H as [_ H]. now apply IH.
Qed.

Lemma take_token_chars p delim s t r :
  take_token delim s = (t, r) ->
  all_chars p s = true ->
  all_chars p t = true /\ all_chars p r = true /\
  all_chars (fun c => negb (delim c)) t = true.
Proof.
  revert t r. induction s as [|c s IH]; intros t r H Hs; cbn [take_token] in H.
  - now inversion H; subst.
  - cbn [all_chars] in Hs. apply andb_prop in Hs as [Hc Hs].
    destruct (delim c) eqn:Ed.
    + now inversion H; subst.
    + destruct (take_token delim s) as [t' r'].
      inversion H; subst. destruct (IH _ _ eq_refl Hs) as (Ht & Hr & Hd).
      cbn [all_chars]. now rewrite Hc, Ht, Ed, Hd.
Qed.

Lemma strtok_chars p delim s t r :
  strtok delim s = (Some t, r) ->
  all_chars p s = true ->
  all_chars p t = true /\ all_chars p r = true /\
  all_chars (fun c => negb (delim c)) t = true.
Proof.
  unfold strtok. intros H Hs.
  apply (skip_delims_chars p delim) in Hs.
  destruct (skip_delims delim s) as [|c s']; [discriminate|].
  destruct (take_token delim (String c s')) as [t' r'] eqn:E.
  inversion H; subst. now apply (take_token_chars p) in E.
Qed.

Lemma strtok_all_chars p delim s :
  all_chars p s = true ->
  Forall (fun t => all_chars p t = true /\
                   all_chars (fun c => negb (delim c)) t = true)
         (strtok_all delim s).
Proof.
  unfold strtok_all. generalize (String.length s) as fuel. intros fuel.
  revert s. induction fuel as [|fuel IH]; intros s Hs; cbn [strtok_iter];
    [constructor|].
  destruct (strtok delim s) as [[t|] r] eqn:E; [|constructor].
  destruct (strtok_chars p _ _ _ _ E Hs) as (Ht & Hr & Hd).
  constructor; [now split|now apply IH].
Qed.

Lemma trim_blanks s : all_chars is_blank s = true -> trim s = "".
Proof.
  intros H. unfold trim.
  assert (Hs : skip_delims is_blank s = "").
  { induction s as [|c s IH]; [reflexivity|]. cbn [all_chars] in H.
    apply andb_prop in H as [Hc Hs]. cbn [skip_delims]. rewrite Hc.
    now apply IH. }
  now rewrite Hs.
Qed.

(** *** What a finished row looks like *)

(** At most one of the two redirections, and the append mode only with an
    output file. *)
Definition one_redirection (st : stage) : Prop :=
  (input_file st = None \/ output_file st = None) /\
  (append st = true -> input_file st = None /\ output_file st <> None).

Section WithGlob.

Variable fs_match : string -> list string.
Variable glob_nospace : string -> bool.

Abbreviation walk_tokens := (walk_tokens fs_match glob_nospace).
Abbreviation parse_segments := (parse_segments fs_match glob_nospace).
Abbreviation parse_command := (parse_command fs_match glob_nospace).
Abbreviation expand_words := (expand_words fs_match).

(** A line of blanks and pipe signs only, the empty line included, is
    turned down as holding no command: no stage, no message. *)
Theorem parse_line_without_words line :
  all_chars (fun c => is_blank c || is_pipe c) line = true ->
  parse_command line = ParseFail NoCommand.
Proof.
  intros Hline. rewrite parse_command_segments.
  destruct (cmd_tokens line) as [|seg segs] eqn:E; [reflexivity|].
  pose proof (strtok_all_chars _ is_pipe line Hline) as Htoks.
  unfold cmd_tokens in E.
  destruct (strtok_all is_pipe line) as [|seg' segs']; [discriminate|].
  cbn in E. inversion E; subst seg'.
  inversion Htoks as [|? ? [Hboth Hnopipe] _]; subst.
  assert (Hblank : all_chars is_blank seg = true).
  { clear -Hboth Hnopipe. induction seg as [|c seg IH]; [reflexivity|].
    cbn [all_chars] in *.
    apply andb_prop in Hboth as [Hc Hb]. apply andb_prop in Hnopipe as [Hp Hn].
    rewrite (IH Hb Hn), andb_true_r.
    apply negb_true_iff in Hp. rewrite Hp in Hc. now rewrite orb_false_r in Hc. }
  cbn [Parser.parse_segments]. now rewrite (trim_blanks seg Hblank).
Qed.

Lemma walk_tokens_one_redirection last toks prev st st' bg :
  walk_tokens last toks prev st = inr (st', bg) ->
  input_file st = None -> output_file st = None -> append st = false ->
  one_redirection st'.
Proof.
  unfold one_redirection.
  revert prev st. induction toks as [|token rest IH]; intros prev st H Hi Ho Ha;
    cbn [Parser.walk_tokens] in H.
  - inversion H; subst. split; [now left|congruence].
  - destruct (negb _).
    { inversion H; subst. split; [now left|congruence]. }
    destruct (String.eqb token ">").
    { destruct rest; inversion H; subst; cbn. split; [now left|discriminate]. }
    destruct (String.eqb token ">>").
    { destruct rest; inversion H; subst; cbn.
      split; [now left|]. intros _. split; [assumption|discriminate]. }
    destruct (String.eqb token "<").
    { destruct rest; inversion H; subst; cbn. split; [now right|congruence]. }
    destruct (String.eqb token "&" && last).
    { inversion H; subst. split; [now left|congruence]. }
    destruct prev; [discriminate|].
    apply IH in H; assumption.
Qed.

Lemma parse_segments_one_redirection n c segs done bg p :
  parse_segments n c segs done bg = ParseOk p ->
  Forall one_redirection done ->
  Forall one_redirection (stages p).
Proof.
  revert c done bg. induction segs as [|seg segs IH]; intros c done bg H Hd;
    cbn [Parser.parse_segments] in H.
  - destruct (length done =? 0)%nat; now inversion H; subst.
  - destruct (trim seg) eqn:Et.
    + destruct (length done =? 0)%nat; now inversion H; subst.
    + destruct (Parser.walk_tokens _ _ _ _ _ _) as [e|[st bg']] eqn:Ew;
        [discriminate|].
      apply IH in H; [assumption|].
      apply Forall_app. split; [assumption|]. constructor; [|constructor].
      now apply walk_tokens_one_redirection in Ew.
Qed.

(** Every stage of a parsed pipeline has at most one redirection, an
    input file or an output file but not both, and is in append mode only
    when it has an output file. *)
Theorem parsed_stage_has_one_redirection line p :
  parse_command line = ParseOk p ->
  Forall one_redirection (stages p).
Proof.
  rewrite parse_command_segments.
  destruct (cmd_tokens line); [discriminate|]. intros H.
  apply parse_segments_one_redirection in H; [assumption|constructor].
Qed.

(** The three redirection operators and the row each of them fills. *)
Definition redirect (op file : string) (argv : list string) : option stage :=
  if String.eqb op ">" then Some (mkStage argv None (Some file) false)
  else if String.eqb op ">>" then Some (mkStage argv None (Some file) true)
  else if String.eqb op "<" then Some (mkStage argv (Some file) None false)
  else None.

(** Behind ordinary words that fit in the row, a redirection operator
    with nothing after it is the error that names the operator; with one
    token after it, that token is the file name, taken as it is written
    even when it holds a wildcard. *)
Theorem walk_redirection_clause last pre op file st :
  Forall (is_word last) pre ->
  glob_succeeds glob_nospace pre ->
  length (expand_words pre) < MAX_ARGS - 1 ->
  redirect op file (expand_words pre) = Some st ->
  walk_tokens last (pre ++ [op]) false empty_stage = inl (MissingFile op) /\
  walk_tokens last (pre ++ [op; file]) false empty_stage = inr (st, false).
Proof.
  intros Hw Hg Hroom Hop.
  rewrite !walk_tokens_words_then by
    (try assumption; unfold args_fit; simpl; lia).
  cbn [empty_stage args app]. rewrite take_ge by lia.
  cbn [Parser.walk_tokens set_args args input_file output_file append].
  destruct (Nat.ltb_spec (length (expand_words pre)) (MAX_ARGS - 1)) as [_|];
    [|lia].
  cbn [negb]. unfold redirect in Hop.
  destruct (String.eqb_spec op ">") as [->|_].
  { inversion Hop; subst. now split. }
  destruct (String.eqb_spec op ">>") as [->|_].
  { inversion Hop; subst. now split. }
  destruct (String.eqb_spec op "<") as [->|_]; [|discriminate].
  inversion Hop; subst. now split.
Qed.

Lemma expand_plain_words ws :
  Forall is_plain_word ws -> expand_words ws = ws.
Proof.
  unfold ParserFacts.expand_words.
  induction 1 as [|w ws (_ & _ & Hw & _) Hws IH]; [reflexivity|].
  cbn [map concat]. unfold expand_word at 1. now rewrite Hw, IH.
Qed.

Lemma walk_plain_command last ws :
  is_plain_command ws ->
  walk_tokens last ws false empty_stage = inr (command ws, false).
Proof.
  intros (_ & Hlen & Hws).
  rewrite walk_tokens_words.
  - cbn [empty_stage args app]. rewrite expand_plain_words by assumption.
    now rewrite take_ge by assumption.
  - eapply Forall_impl; [exact Hws|].
    intros w (_ & _ & _ & H1 & H2 & H3 & H4). now repeat split.
  - eapply Forall_impl; [exact Hws|].
    intros w (_ & _ & Hw & _) Hwild. congruence.
  - unfold args_fit. simpl. lia.
Qed.

Lemma parse_segments_plain n c cmds done :
  Forall is_plain_command cmds ->
  done <> [] \/ cmds <> [] ->
  parse_segments n c (map render_command cmds) done false
  = ParseOk (mkPipeline (done ++ map command cmds) false).
Proof.
  intros Hcmds. revert c done.
  induction Hcmds as [|ws cmds Hws Hcmds IH]; intros c done Hne.
  - cbn [map Parser.parse_segments]. rewrite app_nil_r.
    destruct done; [now destruct Hne|reflexivity].
  - cbn [map Parser.parse_segments].
    rewrite trim_render_command by now apply plain_command_words.
    pose proof (render_command_nonempty ws (plain_command_words _ Hws)) as Hr.
    destruct (render_command ws) eqn:E; [contradiction|]. rewrite <- E.
    rewrite tokens_render_command by apply Hws.
    rewrite walk_plain_command by assumption.
    rewrite IH by (left; destruct done; discriminate).
    now rewrite <- app_assoc.
Qed.

(** The segments of a rendered line are the rendered commands. *)
Lemma cmd_tokens_render_line cmds :
  length cmds <= MAX_PIPES - 1 ->
  Forall is_plain_command cmds ->
  cmd_tokens (render_line cmds) = map render_command cmds.
Proof.
  intros Hlen Hcmds. unfold cmd_tokens, render_line.
  rewrite (strtok_all_concat is_pipe "|"); [|reflexivity|].
  - apply take_ge. now rewrite length_map.
  - apply Forall_map. eapply Forall_impl; [exact Hcmds|].
    intros ws Hws. now apply render_command_token, plain_command_words.
Qed.

(** A pipeline of at most nine commands made of plain words, written
    with single spaces and pipe signs, parses to exactly these commands, in
    the foreground and without redirection, whatever the directory holds. *)
Theorem parse_rendered_pipeline cmds :
  cmds <> [] ->
  length cmds <= MAX_PIPES - 1 ->
  Forall is_plain_command cmds ->
  parse_command (render_line cmds)
  = ParseOk (mkPipeline (map command cmds) false).
Proof.
  intros Hne Hlen Hcmds.
  rewrite parse_command_segments, cmd_tokens_render_line by assumption.
  destruct cmds as [|ws cmds]; [contradiction|].
  change (parse_segments (length (map render_command (ws :: cmds))) 0
            (map render_command (ws :: cmds)) [] false
          = ParseOk (mkPipeline ([] ++ map command (ws :: cmds)) false)).
  apply parse_segments_plain; [assumption|right; discriminate].
Qed.

End WithGlob.

Lemma parse_rendered_pipeline_witness :
  render_line [["ls"; "-l"]; ["grep"; "txt"]; ["wc"]] = "ls -l|grep txt|wc" /\
  parse_command two_c_files enough_memory "ls -l|grep txt|wc"
  = ParseOk (mkPipeline [command ["ls"; "-l"]; command ["grep"; "txt"];
                         command ["wc"]] false).
Proof.
  split; [reflexivity|].
  apply (parse_rendered_pipeline two_c_files enough_memory
           [["ls"; "-l"]; ["grep"; "txt"]; ["wc"]]).
  - discriminate.
  - vm_compute; lia.
  - repeat constructor; try discriminate; vm_compute; lia.
Defined.

Lemma parsed_stage_has_one_redirection_witness :
  parse_command no_matches enough_memory "sort < in | tee >> log"
  = ParseOk (mkPipeline [mkStage ["sort"] (Some "in") None false;
                         mkStage ["tee"] None (Some "log") true] false) /\
  Forall one_redirection
    [mkStage ["sort"] (Some "in") None false;
     mkStage ["tee"] None (Some "log") true].
Proof.
  assert (H : parse_command no_matches enough_memory
                "sort < in | tee >> log"
              = ParseOk (mkPipeline [mkStage ["sort"] (Some "in") None false;
                                     mkStage ["tee"] None (Some "log") true]
                                    false)) by (vm_compute; reflexivity).
  split; [exact H|].
  exact (parsed_stage_has_one_redirection _ _ _ _ H).
Defined.

Lemma parse_line_without_words_witness :
  parse_command no_matches enough_memory " | |  " = ParseFail NoCommand /\
  parse_command no_matches enough_memory "" = ParseFail NoCommand.
Proof.
  split; apply parse_line_without_words; reflexivity.
Defined.

Lemma walk_redirection_clause_witness :
  walk_tokens two_c_files enough_memory false (["cat"; "*.c"] ++ [">>"])
    false empty_stage = inl (MissingFile ">>") /\
  walk_tokens two_c_files enough_memory false (["cat"; "*.c"] ++ [">>"; "*.c"])
    false empty_stage
  = inr (mkStage ["cat"; "a.c"; "b.c"] None (Some "*.c") true, false).
Proof.
  apply (walk_redirection_clause two_c_files enough_memory false
           ["cat"; "*.c"] ">>" "*.c").
  - repeat constructor; discriminate.
  - repeat constructor.
  - vm_compute; lia.
  - reflexivity.
Defined.

End ParserMore.

(** ** The capacity of the arrays and the wildcards *)

Module ParserLimits.
Import Strtok StrtokFacts Parser ParserFacts ParserMore.

Section WithGlob.

Variable fs_match : string -> list string.
Variable glob_nospace : string -> bool.

Abbreviation walk_tokens := (walk_tokens fs_match glob_nospace).
Abbreviation parse_segments := (parse_segments fs_match glob_nospace).
Abbreviation parse_command := (parse_command fs_match glob_nospace).
Abbreviation expand_words := (expand_words fs_match).
Abbreviation expand_word := (expand_word fs_match).

(** The row that is left of a command: its first [MAX_ARGS - 1] words. *)
Definition cut_command (ws : list string) : stage :=
  command (take (MAX_ARGS - 1) ws).

(** The rows that are left of a pipeline: the first [MAX_PIPES - 1]
    commands, each cut to its row. *)
Definition cut_pipeline (cmds : list (list string)) : list stage :=
  map cut_command (take (MAX_PIPES - 1) cmds).

Lemma walk_plain_words last ws :
  Forall is_plain_word ws ->
  walk_tokens last ws false empty_stage = inr (cut_command ws, false).
Proof.
  intros Hws. rewrite walk_tokens_words.
  - cbn [empty_stage args app]. now rewrite expand_plain_words by assumption.
  - eapply Forall_impl; [exact Hws|].
    intros w (_ & _ & _ & H1 & H2 & H3 & H4). now repeat split.
  - eapply Forall_impl; [exact Hws|].
    intros w (_ & _ & Hw & _) Hwild. congruence.
  - unfold args_fit. simpl. lia.
Qed.

Lemma parse_segments_plain_words n c cmds done :
  Forall is_plain_words cmds ->
  done <> [] \/ cmds <> [] ->
  parse_segments n c (map render_command cmds) done false
  = ParseOk (mkPipeline (done ++ map cut_command cmds) false).
Proof.
  intros Hcmds. revert c done.
  induction Hcmds as [|ws cmds Hws Hcmds IH]; intros c done Hne.
  - cbn [map Parser.parse_segments]. rewrite app_nil_r.
    destruct done; [now destruct Hne|reflexivity].
  - cbn [map Parser.parse_segments].
    rewrite trim_render_command by assumption.
    pose proof (render_command_nonempty ws Hws) as Hr.
    destruct (render_command ws) eqn:E; [contradiction|]. rewrite <- E.
    rewrite tokens_render_command by apply Hws.
    rewrite walk_plain_words by apply Hws.
    rewrite IH by (left; destruct done; discriminate).
    now rewrite <- app_assoc.
Qed.

(** C3, amended.  Too many stages or too many arguments are not a parse
    error.  A line of commands made of plain words, however many commands
    and however many words, is parsed: the result is the first
    [MAX_PIPES - 1] commands, each with its first [MAX_ARGS - 1] words, and
    the rest is dropped without a message.  And whatever the line, a parsed
    pipeline is within these capacities. *)
Theorem C3_capacity_is_filled_and_the_rest_dropped :
  (forall cmds,
      cmds <> [] ->
      Forall is_plain_words cmds ->
      parse_command (render_line cmds)
      = ParseOk (mkPipeline (cut_pipeline cmds) false))
  /\
  (forall line p,
      parse_command line = ParseOk p ->
      num_commands p <= MAX_PIPES - 1 /\
      Forall (fun st => length (args st) <= MAX_ARGS - 1) (stages p)).
Proof.
  split.
  - intros cmds Hne Hcmds.
    rewrite parse_command_segments. unfold cmd_tokens, render_line.
    rewrite (strtok_all_concat is_pipe "|"); [|reflexivity|].
    + rewrite <- fmap_take.
      assert (Hcut : take (MAX_PIPES - 1) cmds <> [])
        by (destruct cmds; [contradiction|discriminate]).
      unfold cut_pipeline.
      destruct (take (MAX_PIPES - 1) cmds) as [|ws rest] eqn:E;
        [contradiction|].
      change (parse_segments (length (map render_command (ws :: rest))) 0
                (map render_command (ws :: rest)) [] false
              = ParseOk (mkPipeline ([] ++ map cut_command (ws :: rest)) false)).
      apply parse_segments_plain_words; [|right; discriminate].
      rewrite <- E. now apply Forall_take.
    + apply Forall_map. eapply Forall_impl; [exact Hcmds|].
      apply render_command_token.
  - intros line p H.
    apply (parsed_pipeline_within_capacity fs_match glob_nospace line p H).
Qed.

(** C8, amended.  A token with a wildcard that the token loop gets to in
    argument position, behind ordinary words, is stored as what [glob]
    returns for it: its matches in the order [glob] gives them, or the token
    itself when nothing matches; what goes beyond the [MAX_ARGS - 1] entries
    of the row is dropped.  A token behind a redirection operator is not in
    argument position: it is the file name as it is written, wildcard or
    not, and ends the row. *)
Theorem C8_wildcard_token_in_argument_position :
  (forall last pre token rest,
      Forall (is_word last) pre ->
      glob_succeeds glob_nospace (pre ++ [token]) ->
      has_wildcard token = true ->
      walk_tokens last (pre ++ token :: rest) false empty_stage =
      walk_tokens last rest false
        (command (take (MAX_ARGS - 1)
                    (expand_words pre ++
                     match fs_match token with
                     | [] => [token]
                     | paths => paths
                     end))))
  /\
  (forall last pre op file rest st,
      Forall (is_word last) pre ->
      glob_succeeds glob_nospace pre ->
      length (expand_words pre) < MAX_ARGS - 1 ->
      redirect op file (expand_words pre) = Some st ->
      walk_tokens last (pre ++ op :: file :: rest) false empty_stage
      = inr (st, false)).
Proof.
  split.
  - intros last pre token rest Hw Hg Hwild.
    replace (pre ++ token :: rest) with ((pre ++ [token]) ++ rest)
      by now rewrite <- app_assoc.
    rewrite walk_tokens_words_then; try assumption.
    + unfold ParserFacts.expand_words. rewrite map_app, concat_app.
      cbn [map concat]. rewrite app_nil_r.
      unfold ParserFacts.expand_word at 2. now rewrite Hwild.
    + apply Forall_app. split; [assumption|]. constructor; [|constructor].
      unfold is_word.
      assert (Hnot : forall op, has_wildcard op = false -> token <> op)
        by (intros op Hop ->; congruence).
      repeat split; try (apply Hnot; reflexivity).
      intros _. now apply Hnot.
    + unfold args_fit. simpl. lia.
  - intros last pre op file rest st Hw Hg Hroom Hop.
    rewrite walk_tokens_words_then by
      (try assumption; unfold args_fit; simpl; lia).
    cbn [empty_stage args app]. rewrite take_ge by lia.
    cbn [Parser.walk_tokens set_args args input_file output_file append].
    destruct (Nat.ltb_spec (length (expand_words pre)) (MAX_ARGS - 1))
      as [_|]; [|lia].
    cbn [negb]. unfold redirect in Hop.
    destruct (String.eqb_spec op ">") as [->|_].
    { now inversion Hop. }
    destruct (String.eqb_spec op ">>") as [->|_].
    { now inversion Hop. }
    destruct (String.eqb_spec op "<") as [->|_]; [|discriminate].
    now inversion Hop.
Qed.

End WithGlob.

(** *** The two claims at concrete lines *)

(** Eleven commands; the second has seventy words. *)
Definition long_line : list (list string) :=
  ["a"] :: ("x" :: replicate 69 "y") :: map (fun w => [w])
    ["c"; "d"; "e"; "f"; "g"; "h"; "i"; "j"; "k"].

Lemma C3_witness :
  length long_line = 11 /\
  parse_command no_matches enough_memory (render_line long_line)
  = ParseOk (mkPipeline
               (command ["a"] :: command ("x" :: replicate 62 "y")
                :: map (fun w => command [w]) ["c"; "d"; "e"; "f"; "g"; "h"; "i"])
               false) /\
  num_commands (mkPipeline (cut_pipeline long_line) false) <= MAX_PIPES - 1.
Proof.
  destruct (C3_capacity_is_filled_and_the_rest_dropped no_matches
              enough_memory) as [Hcut Hfit].
  assert (Hparse : parse_command no_matches enough_memory
                     (render_line long_line)
                   = ParseOk (mkPipeline (cut_pipeline long_line) false)).
  { apply Hcut; [discriminate|].
    repeat constructor; try discriminate. }
  split; [reflexivity|]. split; [exact Hparse|].
  exact (proj1 (Hfit _ _ Hparse)).
Defined.

(** A directory with seventy files, [f00] to [f69]. *)
Definition two_digits (n : nat) : string :=
  String "f" (String (ascii_of_nat (48 + n / 10))
                (String (ascii_of_nat (48 + n mod 10)) "")).

Definition seventy_files : string -> list string :=
  fun pattern => if String.eqb pattern "*" then map two_digits (seq 0 70)
                 else [].

(** C8 as the specification states it fails: of the seventy matches of
    [*] the row keeps the first 62, behind [echo]; and the wildcard behind
    [<] is the file name as it is written, though two files match it. *)
Lemma C8_counterexample :
  length (seventy_files "*") = 70 /\
  parse_command seventy_files enough_memory "echo *"
  = ParseOk (mkPipeline
               [command ("echo" :: map two_digits (seq 0 62))] false) /\
  two_c_files "*.c" = ["a.c"; "b.c"] /\
  parse_command two_c_files enough_memory "cat < *.c"
  = ParseOk (mkPipeline [mkStage ["cat"] (Some "*.c") None false] false).
Proof. repeat split; vm_compute; reflexivity. Qed.

Lemma C8_witness :
  walk_tokens two_c_files enough_memory false
    (["cat"] ++ "*.c" :: ["*.h"]) false empty_stage
  = walk_tokens two_c_files enough_memory false ["*.h"] false
      (command ["cat"; "a.c"; "b.c"]) /\
  walk_tokens no_matches enough_memory false
    (["cat"] ++ "*.c" :: []) false empty_stage
  = inr (command ["cat"; "*.c"], false) /\
  walk_tokens two_c_files enough_memory false
    (["cat"] ++ ">>" :: "*.c" :: ["more"]) false empty_stage
  = inr (mkStage ["cat"] None (Some "*.c") true, false).
Proof.
  destruct (C8_wildcard_token_in_argument_position two_c_files enough_memory)
    as [Hargs Hfile].
  destruct (C8_wildcard_token_in_argument_position no_matches enough_memory)
    as [Hnone _].
  assert (Hwords : Forall (is_word false) ["cat"])
    by (repeat constructor; discriminate).
  split; [|split].
  - apply (Hargs false ["cat"] "*.c" ["*.h"] Hwords);
      [repeat constructor|reflexivity].
  - apply (Hnone false ["cat"] "*.c" [] Hwords);
      [repeat constructor|reflexivity].
  - apply (Hfile false ["cat"] ">>" "*.c" ["more"]); try assumption;
      [repeat constructor|vm_compute; lia|reflexivity].
Defined.

End ParserLimits.

(** ** Descriptors that are opened and closed again *)

Module ExecutorMore.
Import Parser Executor ExecutorFacts.

(** [T] is the table [t0] of the shell plus the descriptors [extra], all
    of them unused in [t0]; descriptors 0 and 1 may name something else. *)
Definition grown (t0 T : fd_table) (extra : list nat) : Prop :=
  (forall k, k <> 0 -> k <> 1 -> k ∉ extra -> T !! k = t0 !! k) /\
  (forall k, k ∈ extra -> t0 !! k = None /\ is_Some (T !! k) /\ away k) /\
  std_open T.

Definition opened (fd : option nat) : list nat :=
  match fd with Some x => [x] | None => [] end.

Lemma grown_start t0 : std_open t0 -> grown t0 t0 [].
Proof.
  intros H. split; [reflexivity|]. split; [|exact H].
  intros k Hk. now apply elem_of_nil in Hk.
Qed.

Lemma grown_fresh t0 T extra fd :
  grown t0 T extra -> T !! fd = None ->
  (fd ∉ extra) /\ t0 !! fd = None /\ away fd.
Proof.
  intros (Hsame & Hextra & Hstd) Hfd.
  assert (Haway : away fd).
  { destruct Hstd as [[d0 H0] [d1 H1]]. split; intros ->; congruence. }
  assert (Hnot : fd ∉ extra).
  { intros Hin. destruct (Hextra fd Hin) as (_ & [d Hd] & _). congruence. }
  split; [assumption|]. split; [|assumption].
  destruct Haway. now rewrite <- Hsame.
Qed.

Lemma grown_insert t0 T extra fd d :
  grown t0 T extra -> T !! fd = None ->
  grown t0 (<[fd := d]> T) (extra ++ [fd]).
Proof.
  intros HT Hfd. destruct (grown_fresh _ _ _ _ HT Hfd) as (Hnot & H0 & Haway).
  destruct HT as (Hsame & Hextra & Hstd).
  split; [|split].
  - intros k Hk0 Hk1 Hk. rewrite elem_of_app, list_elem_of_singleton in Hk.
    rewrite lookup_insert_ne by (intros ->; apply Hk; now right).
    apply Hsame; try assumption. intros Hin. apply Hk. now left.
  - intros k [Hk|Hk%list_elem_of_singleton]%elem_of_app.
    + destruct (Hextra k Hk) as (Hk0 & Hopen & Hka).
      split; [assumption|]. split; [|assumption].
      rewrite lookup_insert_ne by (intros ->; contradiction). assumption.
    + subst k. split; [assumption|]. split; [|assumption].
      rewrite lookup_insert_eq. eauto.
  - now apply std_open_insert.
Qed.

Lemma grown_dup2 t0 T extra oldfd newfd :
  grown t0 T extra -> newfd = 0 \/ newfd = 1 ->
  grown t0 (dup2 oldfd newfd T) extra.
Proof.
  intros (Hsame & Hextra & Hstd) Hnew.
  split; [|split].
  - intros k Hk0 Hk1 Hk. rewrite lookup_dup2_other by (destruct Hnew; lia).
    now apply Hsame.
  - intros k Hk. destruct (Hextra k Hk) as (Hk0 & Hopen & Hka).
    split; [assumption|]. split; [|assumption].
    rewrite lookup_dup2_other; [assumption|].
    destruct Hka, Hnew; lia.
  - now apply std_open_dup2.
Qed.

Lemma grown_dup2_pipe t0 T extra pipefd j newfd :
  grown t0 T extra -> newfd = 0 \/ newfd = 1 ->
  grown t0 (dup2_pipe pipefd j newfd T) extra.
Proof.
  intros HT Hnew. unfold dup2_pipe. destruct (pipefd !! j); [|exact HT].
  now apply grown_dup2.
Qed.

Lemma lookup_close_all fds (T : fd_table) k :
  close_all fds T !! k = if decide (k ∈ fds) then None else T !! k.
Proof.
  revert T. unfold close_all.
  induction fds as [|fd fds IH]; intros T; cbn [foldl].
  - destruct (decide (k ∈ [])) as [H|_]; [|reflexivity].
    now apply elem_of_nil in H.
  - rewrite IH. unfold close.
    destruct (decide (k ∈ fds)) as [Hin|Hnot].
    + rewrite decide_True by now apply list_elem_of_further. reflexivity.
    + destruct (decide (k = fd)) as [->|Hne].
      * rewrite decide_True by apply list_elem_of_here. apply lookup_delete_eq.
      * rewrite decide_False by
          (intros [?|?]%elem_of_cons; contradiction).
        now apply lookup_delete_ne.
Qed.

(** Closing everything that was opened gives the table of the shell back,
    but for descriptors 0 and 1. *)
Lemma grown_closed t0 T extra k :
  grown t0 T extra -> k <> 0 -> k <> 1 ->
  close_all extra T !! k = t0 !! k.
Proof.
  intros (Hsame & Hextra & _) Hk0 Hk1. rewrite lookup_close_all.
  destruct (decide (k ∈ extra)) as [Hin|Hnot].
  - symmetry. apply Hextra, Hin.
  - now apply Hsame.
Qed.

Lemma close_all_app fds1 fds2 (T : fd_table) :
  close_all (fds1 ++ fds2) T = close_all fds2 (close_all fds1 T).
Proof. unfold close_all. apply foldl_app. Qed.

Lemma close_if_open_all fd (T : fd_table) :
  close_if_open fd T = close_all (opened fd) T.
Proof. now destruct fd. Qed.

Section WithSystem.

Variable can_open : file_desc -> bool.
Variable executable : string -> bool.
Variable pipe_fails : nat -> bool.
Variable fork_fails : nat -> bool.

Abbreviation sys_open := (sys_open can_open).
Abbreviation execvp := (execvp executable).
Abbreviation system_child := (system_child can_open executable).
Abbreviation pipe_child := (pipe_child can_open executable).
Abbreviation create_pipes := (create_pipes pipe_fails).
Abbreviation fork_children := (fork_children can_open executable fork_fails).
Abbreviation execute_system_command :=
  (execute_system_command can_open executable fork_fails).
Abbreviation execute_multiple_pipes :=
  (execute_multiple_pipes can_open executable pipe_fails fork_fails).

Lemma grown_open t0 T extra what fd T' :
  grown t0 T extra ->
  sys_open what T = Some (fd, T') ->
  grown t0 T' (extra ++ [fd]).
Proof.
  intros HT H. unfold Executor.sys_open in H.
  destruct (can_open what); [|discriminate]. inversion H; subst.
  apply grown_insert; [assumption|apply lowest_free_unused].
Qed.

(** *** The pipes of the parent *)

(** [T] is the table [t0] plus the descriptors [extra], unused in [t0]. *)
Definition plus (t0 T : fd_table) (extra : list nat) : Prop :=
  (forall k, k ∉ extra -> T !! k = t0 !! k) /\
  (forall k, k ∈ extra -> t0 !! k = None /\ is_Some (T !! k)).

Lemma plus_insert t0 T extra fd d :
  plus t0 T extra -> T !! fd = None -> plus t0 (<[fd := d]> T) (extra ++ [fd]).
Proof.
  intros (Hsame & Hextra) Hfd.
  assert (Hnot : fd ∉ extra).
  { intros Hin. destruct (Hextra fd Hin) as (_ & [x Hx]). congruence. }
  split.
  - intros k Hk. rewrite elem_of_app, list_elem_of_singleton in Hk.
    rewrite lookup_insert_ne by (intros ->; apply Hk; now right).
    apply Hsame. intros Hin. apply Hk. now left.
  - intros k [Hk|Hk%list_elem_of_singleton]%elem_of_app.
    + destruct (Hextra k Hk) as (Hk0 & Hopen). split; [assumption|].
      rewrite lookup_insert_ne by (intros ->; contradiction). assumption.
    + subst k. split; [now rewrite <- Hsame|].
      rewrite lookup_insert_eq. eauto.
Qed.

Lemma plus_closed t0 T extra : plus t0 T extra -> close_all extra T = t0.
Proof.
  intros (Hsame & Hextra). apply map_eq. intros k. rewrite lookup_close_all.
  destruct (decide (k ∈ extra)) as [Hin|Hnot].
  - symmetry. apply Hextra, Hin.
  - now apply Hsame.
Qed.

(** While the pipes are created: pipe [j] below [k] has its read end at
    [pipefd[2j]] and its write end at [pipefd[2j+1]]. *)
Definition pipes_at (k : nat) (pipefd : list nat) (T : fd_table) : Prop :=
  length pipefd = 2 * k /\
  forall j, j < k ->
    exists r w, pipefd !! (2 * j) = Some r /\ pipefd !! (2 * j + 1) = Some w /\
                T !! r = Some (PipeRead j) /\ T !! w = Some (PipeWrite j).

Lemma create_pipes_plus t0 todo k pipefd T :
  plus t0 T pipefd ->
  pipes_at k pipefd T ->
  match create_pipes todo k pipefd T with
  | inl T' => T' = t0 /\ exists j, k <= j < k + todo /\ pipe_fails j = true
  | inr (pipefd', T') =>
      plus t0 T' pipefd' /\ pipes_at (k + todo) pipefd' T' /\
      (forall j, k <= j < k + todo -> pipe_fails j = false)
  end.
Proof.
  revert k pipefd T. induction todo as [|todo IH]; intros k pipefd T HT Hp;
    cbn [Executor.create_pipes].
  - rewrite Nat.add_0_r. split; [assumption|]. split; [assumption|]. lia.
  - unfold sys_pipe. destruct (pipe_fails k) eqn:Ek.
    + split; [now apply plus_closed|]. exists k. split; [lia|assumption].
    + set (r := lowest_free T).
      set (T1 := <[r := PipeRead k]> T).
      set (w := lowest_free T1).
      assert (Hr : T !! r = None) by apply lowest_free_unused.
      assert (Hw : T1 !! w = None) by apply lowest_free_unused.
      assert (HT1 : plus t0 T1 (pipefd ++ [r])) by now apply plus_insert.
      assert (HT2 : plus t0 (<[w := PipeWrite k]> T1) ((pipefd ++ [r]) ++ [w]))
        by now apply plus_insert.
      rewrite <- app_assoc in HT2. cbn [app] in HT2.
      assert (Hwr : w <> r).
      { intros E. rewrite E in Hw. subst T1. now rewrite lookup_insert_eq in Hw. }
      specialize (IH (S k) (pipefd ++ [r; w]) (<[w := PipeWrite k]> T1) HT2).
      destruct Hp as [Hlen Hp].
      assert (Hp' : pipes_at (S k) (pipefd ++ [r; w]) (<[w := PipeWrite k]> T1)).
      { split; [rewrite length_app; simpl; lia|].
        intros j Hj. destruct (decide (j = k)) as [->|Hne].
        - exists r, w.
          rewrite !lookup_app_r by lia.
          replace (2 * k - length pipefd) with 0 by lia.
          replace (2 * k + 1 - length pipefd) with 1 by lia.
          split; [reflexivity|]. split; [reflexivity|].
          rewrite lookup_insert_ne by congruence.
          subst T1. rewrite !lookup_insert_eq. now split.
        - assert (Hjk : j < k) by lia.
          destruct (Hp j Hjk) as (r' & w' & Hr' & Hw' & Tr & Tw).
          exists r', w'.
          rewrite !lookup_app_l by lia.
          split; [assumption|]. split; [assumption|].
          subst T1.
          rewrite !lookup_insert_ne by
            (intros E; rewrite E in *; simplify_map_eq; congruence).
          now split. }
      specialize (IH Hp').
      destruct (create_pipes todo (S k) (pipefd ++ [r; w])
                  (<[w := PipeWrite k]> T1)) as [T'|[pipefd' T']].
      * destruct IH as (HT' & j & Hj & Hfail). split; [assumption|].
        exists j. split; [lia|assumption].
      * destruct IH as (Hg & Hpp & Hok).
        split; [assumption|].
        replace (k + S todo) with (S k + todo) by lia.
        split; [assumption|].
        intros j Hj. destruct (decide (j = k)) as [->|]; [assumption|].
        apply Hok. lia.
Qed.

Lemma plus_start (t0 : fd_table) : plus t0 t0 [] /\ pipes_at 0 [] t0.
Proof.
  split; split; try reflexivity.
  - intros k Hk. now apply elem_of_nil in Hk.
  - intros j Hj. lia.
Qed.

(** Whether the launch goes through or stops at a [pipe] or a [fork]
    that fails, the shell is left with the descriptors it had: every pipe
    end it created is closed again. *)
Theorem parent_closes_every_pipe p t :
  parent_fds (execute_multiple_pipes p t) = t.
Proof.
  unfold Executor.execute_multiple_pipes.
  destruct (plus_start t) as [H0 Hp0].
  pose proof (create_pipes_plus t (num_commands p - 1) 0 [] t H0 Hp0) as H.
  destruct (create_pipes (num_commands p - 1) 0 [] t) as [T'|[pipefd T']].
  - apply H.
  - destruct H as (Hplus & _ & _).
    destruct (fork_children 0 (num_commands p) pipefd (stages p) T')
      as [cs failed].
    destruct failed; now apply plus_closed.
Qed.

(** *** How many children there are *)

Lemma fork_children_all i n pipefd todo T :
  (forall j, i <= j < i + length todo -> fork_fails j = false) ->
  exists cs, fork_children i n pipefd todo T = (cs, false) /\
             length cs = length todo.
Proof.
  revert i. induction todo as [|st todo IH]; intros i Hok;
    cbn [Executor.fork_children].
  - now exists [].
  - rewrite Hok by (simpl; lia).
    destruct (IH (S i)) as (cs & E & Hlen).
    { intros j Hj. apply Hok. simpl. lia. }
    rewrite E. eexists. split; [reflexivity|]. simpl. now rewrite Hlen.
Qed.

Lemma fork_children_until i n pipefd todo T m :
  (forall j, i <= j < i + m -> fork_fails j = false) ->
  fork_fails (i + m) = true ->
  m < length todo ->
  exists cs, fork_children i n pipefd todo T = (cs, true) /\ length cs = m.
Proof.
  revert i m. induction todo as [|st todo IH]; intros i m Hok Hfail Hm;
    cbn [Executor.fork_children]; [simpl in Hm; lia|].
  destruct m as [|m].
  - rewrite Nat.add_0_r in Hfail. rewrite Hfail. now exists [].
  - rewrite Hok by lia.
    destruct (IH (S i) m) as (cs & E & Hlen).
    + intros j Hj. apply Hok. lia.
    + now replace (S i + m) with (i + S m) by lia.
    + simpl in Hm. lia.
    + rewrite E. eexists. split; [reflexivity|]. simpl. now rewrite Hlen.
Qed.

(** A [pipe] that fails ends the launch before any [fork]: no stage of
    the pipeline runs. *)
Theorem pipe_failure_launches_nothing p t k :
  k < num_commands p - 1 ->
  pipe_fails k = true ->
  children (execute_multiple_pipes p t) = [] /\
  parent_end (execute_multiple_pipes p t) = PipeFailed.
Proof.
  intros Hk Hfail. unfold Executor.execute_multiple_pipes.
  destruct (plus_start t) as [H0 Hp0].
  pose proof (create_pipes_plus t (num_commands p - 1) 0 [] t H0 Hp0) as H.
  destruct (create_pipes (num_commands p - 1) 0 [] t) as [T'|[pipefd T']].
  - now split.
  - destruct H as (_ & _ & Hok). rewrite Hok in Hfail by lia. discriminate.
Qed.

(** When no [pipe] fails: if the [fork] for stage [m] is the first that
    fails, exactly the [m] stages in front of it have a child, and the
    launch ends there; if no [fork] fails, every stage has its child and the
    parent waits or not as the background flag says. *)
Theorem children_up_to_the_failing_fork p t :
  (forall k, k < num_commands p - 1 -> pipe_fails k = false) ->
  (forall m,
      m < num_commands p ->
      (forall j, j < m -> fork_fails j = false) ->
      fork_fails m = true ->
      length (children (execute_multiple_pipes p t)) = m /\
      parent_end (execute_multiple_pipes p t) = ForkFailed)
  /\
  ((forall j, j < num_commands p -> fork_fails j = false) ->
   length (children (execute_multiple_pipes p t)) = num_commands p /\
   parent_end (execute_multiple_pipes p t)
   = if background p then InBackground else Waited).
Proof.
  intros Hpipes. unfold Executor.execute_multiple_pipes.
  destruct (plus_start t) as [H0 Hp0].
  pose proof (create_pipes_plus t (num_commands p - 1) 0 [] t H0 Hp0) as H.
  destruct (create_pipes (num_commands p - 1) 0 [] t) as [T'|[pipefd T']].
  { destruct H as (_ & j & Hj & Hfail). rewrite Hpipes in Hfail by lia.
    discriminate. }
  clear H. split.
  - intros m Hm Hok Hfail.
    destruct (fork_children_until 0 (num_commands p) pipefd (stages p) T' m)
      as (cs & E & Hlen); try assumption.
    + intros j Hj. apply Hok. lia.
    + rewrite E. now split.
  - intros Hok.
    destruct (fork_children_all 0 (num_commands p) pipefd (stages p) T')
      as (cs & E & Hlen).
    + intros j Hj. apply Hok. unfold num_commands. lia.
    + rewrite E. now split.
Qed.

(** *** The descriptors of a child at [execvp] *)

Lemma grown_of_plus t0 T pipefd :
  plus t0 T pipefd -> std_open T -> Forall away pipefd -> grown t0 T pipefd.
Proof.
  intros (Hsame & Hextra) Hstd Haway. split; [|split; [|assumption]].
  - intros k _ _. apply Hsame.
  - intros k Hk. destruct (Hextra k Hk). rewrite Forall_forall in Haway.
    repeat split; try assumption; now apply Haway.
Qed.

Lemma pipe_child_closes i n pipefd st T t0 argv fds ns :
  grown t0 T pipefd ->
  pipe_child i n pipefd st T = Exec argv fds ns ->
  forall k, k <> 0 -> k <> 1 -> fds !! k = t0 !! k.
Proof.
  intros HT H. unfold Executor.pipe_child in H.
  set (stdin_done := match input_file st with Some _ => _ | None => _ end) in H.
  assert (Hin : match stdin_done with
                | inl _ => True
                | inr (input_fd, T1) => grown t0 T1 (pipefd ++ opened input_fd)
                end).
  { subst stdin_done. destruct (input_file st) as [file|].
    - destruct (sys_open (FileRead file) T) as [[fd T']|] eqn:Eo; [|exact I].
      apply grown_dup2; [|now left]. cbn [opened].
      now apply (grown_open _ _ _ _ _ _ HT Eo).
    - destruct (0 <? i)%nat; cbn [opened]; rewrite app_nil_r;
        [apply grown_dup2_pipe; [assumption|now left]|assumption]. }
  destruct stdin_done as [msg|[input_fd T1]]; [discriminate|].
  set (stdout_done := match output_file st with Some _ => _ | None => _ end) in H.
  assert (Hout : match stdout_done with
                 | inl _ => True
                 | inr (output_fd, T2) =>
                     grown t0 T2 ((pipefd ++ opened input_fd) ++ opened output_fd)
                 end).
  { subst stdout_done. destruct (output_file st) as [file|].
    - destruct (sys_open (FileWrite file (append st)) T1) as [[fd T']|] eqn:Eo;
        [|exact I].
      apply grown_dup2; [|now right]. cbn [opened].
      now apply (grown_open _ _ _ _ _ _ Hin Eo).
    - destruct (i <? n - 1)%nat; cbn [opened]; rewrite app_nil_r;
        [apply grown_dup2_pipe; [assumption|now right]|assumption]. }
  destruct stdout_done as [msg|[output_fd T2]]; [discriminate|].
  apply execvp_exec in H. subst fds. intros k Hk0 Hk1.
  rewrite !close_if_open_all, <- !close_all_app, app_assoc.
  now apply grown_closed.
Qed.

Lemma system_child_closes st bg T argv fds ns :
  std_open T ->
  system_child st bg T = Exec argv fds ns ->
  forall k, k <> 0 -> k <> 1 -> fds !! k = T !! k.
Proof.
  intros Hstd H. pose proof (grown_start T Hstd) as HT.
  unfold Executor.system_child in H.
  set (stdin_done := match input_file st with Some _ => _ | None => _ end) in H.
  assert (Hin : match stdin_done with
                | inl _ => True
                | inr (input_fd, T1) => grown T T1 ([] ++ opened input_fd)
                end).
  { subst stdin_done. destruct (input_file st) as [file|].
    - destruct (sys_open (FileRead file) T) as [[fd T']|] eqn:Eo; [|exact I].
      apply grown_dup2; [|now left]. cbn [opened].
      now apply (grown_open _ _ _ _ _ _ HT Eo).
    - exact HT. }
  destruct stdin_done as [msg|[input_fd T1]]; [discriminate|].
  set (stdout_done := match output_file st with Some _ => _ | None => _ end) in H.
  assert (Hout : match stdout_done with
                 | inl _ => True
                 | inr (output_fd, T2) =>
                     grown T T2 (([] ++ opened input_fd) ++ opened output_fd)
                 end).
  { subst stdout_done. destruct (output_file st) as [file|].
    - destruct (sys_open (FileWrite file (append st)) T1) as [[fd T']|] eqn:Eo;
        [|exact I].
      apply grown_dup2; [|now right]. cbn [opened].
      now apply (grown_open _ _ _ _ _ _ Hin Eo).
    - cbn [opened]. now rewrite app_nil_r. }
  destruct stdout_done as [msg|[output_fd T2]]; [discriminate|].
  apply execvp_exec in H. subst fds. intros k Hk0 Hk1.
  rewrite !close_if_open_all, <- !close_all_app.
  cbn [app] in Hout. rewrite <- (grown_closed T T2 _ k Hout Hk0 Hk1).
  reflexivity.
Qed.

(** The table at the fork, for a shell with descriptors 0 and 1 open. *)
Lemma pipes_created p t pipefd T :
  std_open t ->
  create_pipes (num_commands p - 1) 0 [] t = inr (pipefd, T) ->
  plus t T pipefd /\ pipes_at (num_commands p - 1) pipefd T /\
  std_open T /\ Forall away pipefd.
Proof.
  intros Hstd E. destruct (plus_start t) as [H0 Hp0].
  pose proof (create_pipes_plus t (num_commands p - 1) 0 [] t H0 Hp0) as H.
  rewrite E in H. destruct H as (Hplus & Hat & _).
  destruct (create_pipes_away pipe_fails _ _ _ _ _ _ Hstd (Forall_nil_2 _) E).
  split; [assumption|]. split; [exact Hat|]. now split.
Qed.

(** In a shell whose descriptors 0 and 1 are open, a program that the
    shell starts is handed the descriptors of the shell and nothing else:
    besides its standard input and output, no end of a pipe and no file
    opened for a redirection is left open at [execvp]. *)
Theorem child_keeps_no_other_descriptor :
  (forall p t i argv fds ns,
      std_open t ->
      children (execute_multiple_pipes p t) !! i = Some (Exec argv fds ns) ->
      forall k, k <> 0 -> k <> 1 -> fds !! k = t !! k)
  /\
  (forall st bg t argv fds ns,
      std_open t ->
      children (execute_system_command st bg t) !! 0
      = Some (Exec argv fds ns) ->
      forall k, k <> 0 -> k <> 1 -> fds !! k = t !! k).
Proof.
  split.
  - intros p t i argv fds ns Hstd H.
    unfold Executor.execute_multiple_pipes in H.
    destruct (create_pipes (num_commands p - 1) 0 [] t) as [T'|[pipefd T]] eqn:Ep;
      [discriminate|].
    destruct (pipes_created p t pipefd T Hstd Ep) as (Hplus & _ & HstdT & Haway).
    pose proof (fork_children_lookup can_open executable fork_fails
                  0 (num_commands p) pipefd (stages p) T i
                  (Exec argv fds ns)) as Hc.
    destruct (fork_children 0 (num_commands p) pipefd (stages p) T)
      as [cs failed].
    assert (Hi : cs !! i = Some (Exec argv fds ns)) by (destruct failed; exact H).
    destruct (Hc Hi) as (st & _ & Hchild). symmetry in Hchild.
    eapply pipe_child_closes; [|exact Hchild].
    now apply grown_of_plus.
  - intros st bg t argv fds ns Hstd H.
    unfold Executor.execute_system_command in H.
    destruct (args st); [discriminate|].
    destruct (fork_fails 0); [discriminate|].
    simpl in H. inversion H as [Hchild].
    eapply system_child_closes; [exact Hstd|exact Hchild].
Qed.

(** *** Stages without redirection *)

Lemma pipe_child_linked i n pipefd st T argv fds ns :
  std_open T ->
  Forall away pipefd ->
  pipes_at (n - 1) pipefd T ->
  i < n ->
  pipe_child i n pipefd st T = Exec argv fds ns ->
  (input_file st = None ->
   fds !! 0 = if (0 <? i)%nat then Some (PipeRead (i - 1)) else T !! 0) /\
  (output_file st = None ->
   fds !! 1 = if (i <? n - 1)%nat then Some (PipeWrite i) else T !! 1).
Proof.
  intros Hstd Hpipes [Hlen Hat] Hi H. unfold Executor.pipe_child in H.
  set (stdin_done := match input_file st with Some _ => _ | None => _ end) in H.
  assert (Hin : match stdin_done with
                | inl _ => True
                | inr (input_fd, T1) =>
                    std_open T1 /\
                    (forall x, input_fd = Some x -> away x) /\
                    (input_file st = None ->
                     T1 !! 0 = if (0 <? i)%nat then Some (PipeRead (i - 1))
                               else T !! 0) /\
                    (forall x, x <> 0 -> is_Some (T !! x) -> T1 !! x = T !! x)
                end).
  { subst stdin_done. destruct (input_file st) as [file|].
    - destruct (sys_open (FileRead file) T) as [[fd T']|] eqn:Eo; [|exact I].
      destruct (open_then_dup2 can_open _ _ _ _ 0 Hstd Eo) as (Ha & Hs & _ & _).
      split; [assumption|]. split; [intros x Hx; now inversion Hx; subst|].
      split; [discriminate|].
      intros x Hx0 Hx. rewrite lookup_dup2_other by assumption.
      unfold Executor.sys_open in Eo. destruct (can_open _); [|discriminate].
      inversion Eo; subst. apply lookup_insert_ne.
      intros E. rewrite <- E in Hx. rewrite lowest_free_unused in Hx.
      now destruct Hx.
    - destruct (Nat.ltb_spec 0 i) as [Hpos|Hzero].
      + split; [now apply std_open_dup2_pipe|]. split; [discriminate|].
        split.
        * intros _. assert (Hj : i - 1 < n - 1) by lia.
          destruct (Hat (i - 1) Hj) as (r & w & Hr & _ & Tr & _).
          unfold dup2_pipe. replace ((i - 1) * 2) with (2 * (i - 1)) by lia.
          rewrite Hr. now apply lookup_dup2_new.
        * intros x Hx0 _. now apply lookup_dup2_pipe_other.
      + split; [assumption|]. split; [discriminate|]. now split. }
  destruct stdin_done as [msg|[input_fd T1]]; [discriminate|].
  destruct Hin as (Hstd1 & Hfd1 & Hin & Hkeep).
  set (stdout_done := match output_file st with Some _ => _ | None => _ end) in H.
  assert (Hout : match stdout_done with
                 | inl _ => True
                 | inr (output_fd, T2) =>
                     (forall x, output_fd = Some x -> away x) /\
                     T2 !! 0 = T1 !! 0 /\
                     (output_file st = None ->
                      T2 !! 1 = if (i <? n - 1)%nat then Some (PipeWrite i)
                                else T !! 1)
                 end).
  { subst stdout_done. destruct (output_file st) as [file|].
    - destruct (sys_open (FileWrite file (append st)) T1) as [[fd T']|] eqn:Eo;
        [|exact I].
      destruct (open_then_dup2 can_open _ _ _ _ 1 Hstd1 Eo) as (Ha & _ & _ & Hold).
      split; [intros x Hx; now inversion Hx; subst|].
      split; [apply Hold; [now left|lia]|discriminate].
    - destruct (Nat.ltb_spec i (n - 1)) as [Hmid|Hlast].
      + split; [discriminate|].
        split; [apply lookup_dup2_pipe_other; lia|].
        intros _. destruct (Hat i Hmid) as (r & w & _ & Hw & _ & Tw).
        unfold dup2_pipe. replace (i * 2 + 1) with (2 * i + 1) by lia.
        rewrite Hw. apply lookup_dup2_new.
        rewrite Hkeep; [assumption| |now rewrite Tw].
        rewrite Forall_forall in Hpipes.
        apply (Hpipes w). now apply list_elem_of_lookup_2 in Hw.
      + split; [discriminate|]. split; [reflexivity|].
        intros _. destruct Hstd as [_ H1]. now apply Hkeep. }
  destruct stdout_done as [msg|[output_fd T2]]; [discriminate|].
  destruct Hout as (Hfd2 & H0 & Hout).
  apply execvp_exec in H. subst fds.
  split; intros Hnone.
  - rewrite !lookup_close_if_open_away, lookup_close_all_away, H0; auto.
  - rewrite !lookup_close_if_open_away, lookup_close_all_away; auto.
Qed.

(** In a shell whose descriptors 0 and 1 are open, a stage without an
    input file reads the pipe that comes from the stage in front of it, and
    the first stage reads what the shell reads; a stage without an output
    file writes the pipe that leads to the next stage, and the last stage
    writes where the shell writes. *)
Theorem stages_are_linked_by_pipes p t i st argv fds ns :
  std_open t ->
  stages p !! i = Some st ->
  children (execute_multiple_pipes p t) !! i = Some (Exec argv fds ns) ->
  (input_file st = None ->
   fds !! 0 = if (0 <? i)%nat then Some (PipeRead (i - 1)) else t !! 0) /\
  (output_file st = None ->
   fds !! 1 = if (i <? num_commands p - 1)%nat then Some (PipeWrite i)
              else t !! 1).
Proof.
  intros Hstd Hst H.
  unfold Executor.execute_multiple_pipes in H.
  destruct (create_pipes (num_commands p - 1) 0 [] t) as [T'|[pipefd T]] eqn:Ep;
    [discriminate|].
  destruct (pipes_created p t pipefd T Hstd Ep) as (Hplus & Hat & HstdT & Haway).
  pose proof (fork_children_lookup can_open executable fork_fails
                0 (num_commands p) pipefd (stages p) T i
                (Exec argv fds ns)) as Hc.
  destruct (fork_children 0 (num_commands p) pipefd (stages p) T)
    as [cs failed].
  assert (Hi : cs !! i = Some (Exec argv fds ns)) by (destruct failed; exact H).
  destruct (Hc Hi) as (st' & Hst' & Hchild). symmetry in Hchild.
  assert (Hlt : i < num_commands p)
    by (unfold num_commands; now apply lookup_lt_Some in Hst).
  destruct (pipe_child_linked _ _ _ _ _ _ _ _ HstdT Haway Hat Hlt Hchild)
    as [Hin Hout].
  assert (Hsame : forall k, k = 0 \/ k = 1 -> T !! k = t !! k).
  { intros k Hk. apply Hplus. intros Hin'.
    rewrite Forall_forall in Haway. destruct (Haway k Hin'). destruct Hk; lia. }
  rewrite Hst in Hst'. inversion Hst'; subst st'.
  rewrite !Hsame in * by auto. now split.
Qed.

End WithSystem.

(** *** The theorems at a concrete pipeline *)

(** [ls | sort | wc] *)
Definition plain_stages : pipeline :=
  mkPipeline [command ["ls"]; command ["sort"]; command ["wc"]] true.

Definition fails_at (m : nat) : nat -> bool := fun i => (i =? m)%nat.

Lemma pipe_failure_launches_nothing_witness :
  children (execute_multiple_pipes always always (fails_at 1) never
              plain_stages terminal_fds) = [] /\
  parent_end (execute_multiple_pipes always always (fails_at 1) never
                plain_stages terminal_fds) = PipeFailed.
Proof.
  apply (pipe_failure_launches_nothing always always (fails_at 1) never
           plain_stages terminal_fds 1); [vm_compute; lia|reflexivity].
Defined.

Lemma children_up_to_the_failing_fork_witness :
  length (children (execute_multiple_pipes always always never (fails_at 2)
                      plain_stages terminal_fds)) = 2 /\
  length (children (execute_multiple_pipes always always never never
                      plain_stages terminal_fds)) = 3 /\
  parent_end (execute_multiple_pipes always always never never
                plain_stages terminal_fds) = InBackground.
Proof.
  destruct (children_up_to_the_failing_fork always always never (fails_at 2)
              plain_stages terminal_fds (fun _ _ => eq_refl)) as [Hfail _].
  destruct (children_up_to_the_failing_fork always always never never
              plain_stages terminal_fds (fun _ _ => eq_refl)) as [_ Hall].
  split.
  - apply (Hfail 2); [vm_compute; lia| |reflexivity].
    intros j Hj. unfold fails_at. apply Nat.eqb_neq. lia.
  - apply (Hall (fun _ _ => eq_refl)).
Defined.

Lemma child_keeps_no_other_descriptor_witness :
  children (execute_multiple_pipes always always never never
              three_stages terminal_fds) !! 1
  = Some (Exec ["sort"] sort_fds false) /\
  sort_fds !! 2 = terminal_fds !! 2 /\
  sort_fds !! 3 = None /\ sort_fds !! 4 = None.
Proof.
  assert (Hstd : std_open terminal_fds) by (split; eexists; reflexivity).
  assert (Hmany :
    children (execute_multiple_pipes always always never never
                three_stages terminal_fds) !! 1
    = Some (Exec ["sort"] sort_fds false)) by (vm_compute; reflexivity).
  destruct (child_keeps_no_other_descriptor always always never never)
    as [Hpipes _].
  pose proof (Hpipes three_stages terminal_fds 1 ["sort"] sort_fds false
                Hstd Hmany) as Hk.
  split; [exact Hmany|].
  split; [apply Hk; lia|].
  split; [rewrite Hk by lia; reflexivity|rewrite Hk by lia; reflexivity].
Defined.

Lemma stages_are_linked_by_pipes_witness :
  exists fds,
    children (execute_multiple_pipes always always never never
                plain_stages terminal_fds) !! 1
    = Some (Exec ["sort"] fds false) /\
    fds !! 0 = Some (PipeRead 0) /\ fds !! 1 = Some (PipeWrite 1).
Proof.
  assert (Hstd : std_open terminal_fds) by (split; eexists; reflexivity).
  exists {[ 0 := PipeRead 0; 1 := PipeWrite 1; 2 := Terminal ]}.
  assert (Hmany :
    children (execute_multiple_pipes always always never never
                plain_stages terminal_fds) !! 1
    = Some (Exec ["sort"] {[ 0 := PipeRead 0; 1 := PipeWrite 1; 2 := Terminal ]}
              false)) by (vm_compute; reflexivity).
  destruct (stages_are_linked_by_pipes always always never never
              plain_stages terminal_fds 1 (command ["sort"]) ["sort"] _ false
              Hstd eq_refl Hmany) as [Hin Hout].
  split; [exact Hmany|]. split; [exact (Hin eq_refl)|exact (Hout eq_refl)].
Defined.

End ExecutorMore.

(** ** Properties of tab completion *)

Module CompletionFacts.
Import Completion.

(** The names of a list that start with [text]. *)
Definition matching (text : string) (names : list string) : list string :=
  filter (fun name => strncmp_eq (String.length text) name text = true) names.

Lemma scan_found text rest i name i' :
  scan text (String.length text) rest i = (Some name, i') ->
  exists pre post,
    rest = pre ++ name :: post /\ matching text pre = [] /\
    strncmp_eq (String.length text) name text = true /\
    i' = i + length pre + 1.
Proof.
  revert i. induction rest as [|n rest IH]; intros i H; cbn [scan] in H;
    [discriminate|].
  destruct (strncmp_eq (String.length text) n text) eqn:E.
  - inversion H; subst. exists [], rest. repeat split; [assumption|simpl; lia].
  - destruct (IH _ H) as (pre & post & -> & Hpre & Hm & ->).
    exists (n :: pre), post. split; [reflexivity|]. split; [|split].
    + unfold matching. rewrite filter_cons_False by congruence. exact Hpre.
    + assumption.
    + simpl. lia.
Qed.

Lemma scan_none text rest i i' :
  scan text (String.length text) rest i = (None, i') ->
  matching text rest = [] /\ i' = i + length rest.
Proof.
  revert i. induction rest as [|n rest IH]; intros i H; cbn [scan] in H.
  - inversion H. split; [reflexivity|simpl; lia].
  - destruct (strncmp_eq (String.length text) n text) eqn:E; [discriminate|].
    destruct (IH _ H) as [Hm ->]. split; [|simpl; lia].
    unfold matching. now rewrite filter_cons_False by congruence.
Qed.

Lemma matching_app text l1 l2 :
  matching text (l1 ++ l2) = matching text l1 ++ matching text l2.
Proof. apply filter_app. Qed.

Lemma matching_drop_nil text names i :
  matching text names = [] -> matching text (drop i names) = [].
Proof.
  intros H. rewrite <- (take_drop i names), matching_app in H.
  now apply app_eq_nil in H.
Qed.

Lemma scan_matching_nil text rest i :
  matching text rest = [] ->
  scan text (String.length text) rest i = (None, i + length rest).
Proof.
  intros H. destruct (scan text (String.length text) rest i) as [[name|] i'] eqn:E.
  - destruct (scan_found _ _ _ _ _ E) as (pre & post & -> & _ & Hm & _).
    rewrite matching_app in H. apply app_eq_nil in H as [_ H].
    unfold matching in H. now rewrite filter_cons_True in H by assumption.
  - destruct (scan_none _ _ _ _ E) as [_ ->]. reflexivity.
Qed.

Lemma scan_dir_found text entries d_name entries' :
  scan_dir text (String.length text) entries = Some (d_name, entries') ->
  matching text entries = d_name :: matching text entries'.
Proof.
  induction entries as [|e entries IH]; cbn [scan_dir]; [discriminate|].
  destruct (strncmp_eq (String.length text) e text) eqn:E; intros H.
  - inversion H; subst. unfold matching. now rewrite filter_cons_True.
  - unfold matching. rewrite filter_cons_False by congruence. now apply IH.
Qed.

Lemma scan_dir_none text entries :
  scan_dir text (String.length text) entries = None ->
  matching text entries = [].
Proof.
  induction entries as [|e entries IH]; cbn [scan_dir]; [reflexivity|].
  destruct (strncmp_eq (String.length text) e text) eqn:E; intros H;
    [discriminate|].
  unfold matching. rewrite filter_cons_False by congruence. now apply IH.
Qed.

Lemma scan_index text n rest i0 r i :
  scan text n rest i0 = (r, i) -> i <= i0 + length rest.
Proof.
  revert i0. induction rest as [|name rest IH]; intros i0 H; cbn [scan] in H.
  - inversion H; subst. simpl. lia.
  - destruct (strncmp_eq n name text); [inversion H; subst; simpl; lia|].
    apply IH in H. simpl. lia.
Qed.

(** The index stays within the tables: after any call it is at most the
    place of the NULL that ends [builtin_commands]. *)
Lemma command_generator_index cwd text state g :
  index (command_generator cwd text state g).2 <= 11.
Proof.
  unfold command_generator.
  destruct (state =? 0)%nat;
    match goal with
    | |- context [scan text ?n (drop ?i0 builtin_commands) ?i0] =>
        destruct (scan text n (drop i0 builtin_commands) i0)
          as [[name|] i] eqn:Eb;
        [ cbn [snd index];
          destruct (Nat.le_gt_cases i0 11) as [Hle|Hgt];
          [ apply scan_index in Eb; rewrite length_drop in Eb;
            change (length builtin_commands) with 11 in Eb; lia
          | rewrite drop_ge in Eb
              by (change (length builtin_commands) with 11; lia);
            discriminate ]
        | destruct (scan text n system_commands 0) as [r i'] eqn:Es;
          apply scan_index in Es; change (length system_commands) with 5 in Es;
          destruct r as [name|]; [cbn [snd index]; lia|] ]
    end.
  - destruct cwd as [entries|]; [|cbn [snd index]; lia].
    destruct (scan_dir _ _ _) as [[? ?]|]; cbn [snd index]; lia.
  - destruct (dir g) as [entries|]; [|cbn [snd index]; lia].
    destruct (scan_dir _ _ _) as [[? ?]|]; cbn [snd index]; lia.
Qed.

Definition is_name (a : answer) : Prop :=
  match a with Name _ => True | _ => False end.

Section WithText.

Variable text : string.

(** *** A text that no command starts with *)

Lemma calls_from_files cwd fuel entries state g :
  matching text builtin_commands = [] ->
  matching text system_commands = [] ->
  state <> 0 -> len g = String.length text -> dir g = Some entries ->
  length (matching text entries) < fuel ->
  calls_from fuel cwd text state g
  = map Name (matching text entries) ++ [Null].
Proof.
  intros Hb Hs. revert entries state g.
  induction fuel as [|fuel IH]; intros entries state g Hstate Hlen Hdir Hfuel;
    [lia|].
  cbn [calls_from]. unfold command_generator at 1.
  apply Nat.eqb_neq in Hstate. rewrite Hstate, Hlen, Hdir.
  rewrite scan_matching_nil by now apply matching_drop_nil.
  rewrite scan_matching_nil by assumption.
  destruct (scan_dir text (String.length text) entries) as [[d_name rest]|] eqn:E.
  - apply scan_dir_found in E. rewrite E in *. cbn [map app]. f_equal.
    apply IH; try reflexivity; [lia|simpl in Hfuel; lia].
  - apply scan_dir_none in E. now rewrite E.
Qed.

(** When no command starts with [text], the calls return the names in
    the working directory that start with [text], each once and in the
    order of the directory, and then NULL; when the directory can not be
    opened, the first call returns NULL. *)
Theorem completion_of_a_file_name fuel entries g :
  matching text builtin_commands = [] ->
  matching text system_commands = [] ->
  length (matching text entries) < fuel ->
  completion_calls fuel (Some entries) text g
  = map Name (matching text entries) ++ [Null]
  /\ completion_calls fuel None text g = [Null].
Proof.
  intros Hb Hs Hfuel. unfold completion_calls.
  destruct fuel as [|fuel]; [lia|]. cbn [calls_from].
  unfold command_generator. cbn [Nat.eqb len index drop].
  rewrite !scan_matching_nil by assumption. split; [|reflexivity].
  destruct (scan_dir text (String.length text) entries) as [[d_name rest]|] eqn:E.
  - apply scan_dir_found in E. rewrite E in *. cbn [map app]. f_equal.
    apply calls_from_files; try reflexivity; try assumption; [lia|].
    simpl in Hfuel. lia.
  - apply scan_dir_none in E. now rewrite E.
Qed.

(** *** A text that a system command starts with *)

Lemma command_generator_names cwd state g :
  matching text system_commands <> [] ->
  state = 0 \/ len g = String.length text ->
  exists name g',
    command_generator cwd text state g = (Name name, g') /\
    len g' = String.length text.
Proof.
  intros Hs Hlen. unfold command_generator.
  set (g0 := if (state =? 0)%nat then _ else g).
  assert (Hlen0 : len g0 = String.length text).
  { subst g0. destruct (Nat.eqb_spec state 0); [reflexivity|].
    now destruct Hlen. }
  rewrite Hlen0.
  destruct (scan text (String.length text) (drop (index g0) builtin_commands)
              (index g0)) as [[name|] i] eqn:Eb.
  - eexists _, _. split; reflexivity.
  - destruct (scan text (String.length text) system_commands 0)
      as [[name|] i'] eqn:Es.
    + eexists _, _. split; reflexivity.
    + apply scan_none in Es as [Es _]. contradiction.
Qed.

(** When a system command starts with [text], no call ever returns NULL:
    every call returns a name, however many calls are made, so the list of
    completions is never finished. *)
Theorem completion_of_a_system_command_never_ends cwd fuel g :
  matching text system_commands <> [] ->
  length (completion_calls fuel cwd text g) = fuel /\
  Forall is_name (completion_calls fuel cwd text g).
Proof.
  intros Hs. unfold completion_calls.
  assert (Hgen : forall state g0,
             state = 0 \/ len g0 = String.length text ->
             length (calls_from fuel cwd text state g0) = fuel /\
             Forall is_name (calls_from fuel cwd text state g0)).
  { induction fuel as [|n IH]; intros state g0 Hlen; [now split|].
    cbn [calls_from].
    destruct (command_generator_names cwd state g0 Hs Hlen)
      as (name & g' & E & Hlen').
    rewrite E. destruct (IH (S state) g' (or_intror Hlen')) as [Hl Hf].
    split; [simpl; now rewrite Hl|]. constructor; [exact I|assumption]. }
  apply Hgen. now left.
Qed.

(** *** A text that only built-in commands start with *)

Lemma calls_from_builtins cwd fuel state g :
  matching text system_commands = [] ->
  state <> 0 -> len g = String.length text -> dir g = None ->
  length (matching text (drop (index g) builtin_commands)) < fuel ->
  calls_from fuel cwd text state g
  = map Name (matching text (drop (index g) builtin_commands))
    ++ [ReaddirOfNull].
Proof.
  intros Hs. revert state g.
  induction fuel as [|fuel IH]; intros state g Hstate Hlen Hdir Hfuel; [lia|].
  cbn [calls_from]. unfold command_generator at 1.
  pose proof Hstate as Hstate'. apply Nat.eqb_neq in Hstate'.
  rewrite Hstate', Hlen, Hdir.
  destruct (scan text (String.length text) (drop (index g) builtin_commands)
              (index g)) as [[name|] i] eqn:Eb.
  - destruct (scan_found _ _ _ _ _ Eb) as (pre & post & Hdrop & Hpre & Hm & ->).
    assert (Hpost : drop (index g + length pre + 1) builtin_commands = post).
    { rewrite <- Nat.add_assoc, <- drop_drop, Hdrop.
      rewrite drop_app_add. reflexivity. }
    rewrite Hdrop, matching_app, Hpre in *. cbn [app] in *.
    unfold matching in Hfuel |- * at 1.
    rewrite filter_cons_True in * by assumption. cbn [map app]. f_equal.
    rewrite <- Hpost at 1.
    apply (IH (S state) (mkGenerator (index g + length pre + 1)
                           (String.length text) None));
      try reflexivity; [lia|].
    cbn [index]. rewrite Hpost. simpl in Hfuel. unfold matching. lia.
  - apply scan_none in Eb as [Eb _]. rewrite Eb.
    now rewrite scan_matching_nil by assumption.
Qed.

(** When built-in commands start with [text] and no system command does,
    the calls return these built-in commands, each once and in the order of
    the table, and the call after the last of them calls [readdir] on a
    stream that was never opened. *)
Theorem completion_of_a_builtin_reads_no_directory cwd fuel g :
  matching text builtin_commands <> [] ->
  matching text system_commands = [] ->
  length (matching text builtin_commands) < fuel ->
  completion_calls fuel cwd text g
  = map Name (matching text builtin_commands) ++ [ReaddirOfNull].
Proof.
  intros Hb Hs Hfuel. unfold completion_calls.
  destruct fuel as [|fuel]; [lia|]. cbn [calls_from].
  unfold command_generator at 1. cbn [Nat.eqb len index dir drop].
  destruct (scan text (String.length text) (drop 0 builtin_commands) 0)
    as [[name|] i] eqn:Eb.
  - destruct (scan_found _ _ _ _ _ Eb) as (pre & post & Hdrop & Hpre & Hm & ->).
    rewrite drop_0 in Hdrop.
    assert (Hpost : drop (0 + length pre + 1) builtin_commands = post).
    { rewrite Hdrop. cbn [Nat.add]. rewrite drop_app_add. reflexivity. }
    assert (Hall : matching text builtin_commands
                   = name :: matching text post).
    { rewrite Hdrop, matching_app, Hpre. cbn [app]. unfold matching at 1.
      now rewrite filter_cons_True by assumption. }
    rewrite Hall in Hfuel |- *. cbn [map app]. f_equal.
    rewrite <- Hpost.
    apply (calls_from_builtins cwd fuel 1
             (mkGenerator (0 + length pre + 1) (String.length text) None));
      try reflexivity; try assumption; [lia|].
    cbn [index]. rewrite Hpost. simpl in Hfuel. lia.
  - apply scan_none in Eb as [Eb _]. rewrite drop_0 in Eb. contradiction.
Qed.

End WithText.

(** *** The theorems at concrete texts *)

Lemma completion_of_a_file_name_witness :
  completion_calls 5 (Some ["."; ".."; "notes.txt"; "main.c"; "nothing"]) "no"
    (mkGenerator 0 0 None)
  = [Name "notes.txt"; Name "nothing"; Null].
Proof.
  apply (completion_of_a_file_name "no" 5
           ["."; ".."; "notes.txt"; "main.c"; "nothing"] (mkGenerator 0 0 None));
    [reflexivity|reflexivity|vm_compute; lia].
Defined.

Lemma completion_of_a_system_command_never_ends_witness :
  length (completion_calls 50 None "l" (mkGenerator 0 0 None)) = 50 /\
  Forall is_name (completion_calls 50 None "l" (mkGenerator 0 0 None)).
Proof.
  apply (completion_of_a_system_command_never_ends "l"). discriminate.
Defined.

Lemma completion_of_a_builtin_reads_no_directory_witness :
  completion_calls 5 (Some ["."; ".."; "make.log"]) "m" (mkGenerator 0 0 None)
  = [Name "mkdir"; Name "mv"; ReaddirOfNull].
Proof.
  apply (completion_of_a_builtin_reads_no_directory "m" (Some ["."; ".."; "make.log"]) 5
           (mkGenerator 0 0 None));
    [discriminate|reflexivity|vm_compute; lia].
Defined.

End CompletionFacts.

(** ** The tree operations *)

Module TreeOpsMore.
Import FileSystem TreeOps TreeOpsFacts.

(** *** What [recursive_delete] can do to the world *)

(** From [w] to [w'] entries have at most been removed from the tree and
    lines added to stderr. *)
Definition only_removes (w w' : world) : Prop :=
  fs w' ⊆ fs w /\ stdout w' = stdout w /\
  exists lines, stderr w' = stderr w ++ lines.

Lemma only_removes_refl w : only_removes w w.
Proof. repeat split; [|exists []; now rewrite app_nil_r]. reflexivity. Qed.

Lemma only_removes_trans w1 w2 w3 :
  only_removes w1 w2 -> only_removes w2 w3 -> only_removes w1 w3.
Proof.
  intros (Hfs & Ho & l & He) (Hfs' & Ho' & l' & He').
  split; [etransitivity; eassumption|]. split; [congruence|].
  exists (l ++ l'). now rewrite He', He, app_assoc.
Qed.

Lemma only_removes_eprint line w : only_removes w (eprint line w).
Proof. repeat split; [reflexivity|]. now exists [line]. Qed.

Lemma only_removes_perror s e w : only_removes w (perror s e w).
Proof. apply only_removes_eprint. Qed.

Lemma only_removes_delete key w :
  only_removes w (with_fs (delete key (fs w)) w).
Proof.
  repeat split; [apply delete_subseteq|]. exists []. now rewrite app_nil_r.
Qed.

Lemma only_removes_unlink path w :
  only_removes w match sys_unlink path (fs w) with
                 | inl e => perror "unlink failed" e w
                 | inr t => with_fs t w
                 end.
Proof.
  unfold sys_unlink. destruct (resolve_entry _ _) as [e|key];
    [apply only_removes_perror|].
  destruct (last_type path); try apply only_removes_perror.
  destruct (fs w !! key) as [n|]; [|apply only_removes_perror].
  destruct (trailing_slash path); [apply only_removes_perror|].
  destruct (cannot_alter _ _); [apply only_removes_perror|].
  destruct (S_ISDIR n); [apply only_removes_perror|apply only_removes_delete].
Qed.

Lemma only_removes_rmdir path w :
  only_removes w match sys_rmdir path (fs w) with
                 | inl e => perror "rmdir failed" e w
                 | inr t => with_fs t w
                 end.
Proof.
  unfold sys_rmdir. destruct (resolve_entry _ _) as [e|key];
    [apply only_removes_perror|].
  destruct (last_type path); try apply only_removes_perror.
  destruct (fs w !! key) as [n|]; [|apply only_removes_perror].
  destruct (cannot_alter _ _); [apply only_removes_perror|].
  destruct (S_ISDIR n); [|apply only_removes_perror].
  destruct (entries _ _);
    first [apply only_removes_perror | apply only_removes_delete].
Qed.

Lemma recursive_delete_rec_only_removes fuel path depth w :
  only_removes w (recursive_delete_rec fuel path depth w).
Proof.
  revert path depth w. induction fuel as [|fuel IH]; intros path depth w;
    simpl;
    (destruct (MAX_RECURSION <? depth)%Z; [apply only_removes_eprint|]);
    (destruct (sys_stat path (fs w)) as [e|st]; [apply only_removes_perror|]);
    (destruct (S_ISDIR st); [|apply only_removes_unlink]);
    (destruct (sys_opendir path (fs w)) as [e|names];
       [apply only_removes_perror|]).
  - apply only_removes_refl.
  - match goal with
    | |- only_removes w (let '(_, _) := ?each names w in _) =>
        assert (Heach : forall names w, only_removes w (each names w).2)
    end.
    { clear names w. induction names as [|d_name names IHnames]; intros w;
        [apply only_removes_refl|]. simpl.
      destruct (_ || _); [apply IHnames|].
      destruct (too_long _); [apply only_removes_eprint|].
      eapply only_removes_trans; [apply IH|apply IHnames]. }
    specialize (Heach names w).
    match goal with
    | |- only_removes w (let '(_, _) := ?each names w in _) =>
        destruct (each names w) as [returned w1]
    end.
    simpl in Heach. destruct returned; [assumption|].
    eapply only_removes_trans; [exact Heach|apply only_removes_rmdir].
Qed.

(** [recursive_delete] never creates or changes anything: whatever the
    path, the depth and the tree, each entry of the tree is afterwards as it
    was or gone, nothing is printed on stdout, and stderr has only got
    longer. *)
Theorem recursive_delete_only_removes path depth w :
  only_removes w (recursive_delete path depth w).
Proof. apply recursive_delete_rec_only_removes. Qed.

(** *** What [recursive_copy] can do to the world *)

(** An entry is kept when it is still of the same kind: a directory or a
    link as it was, a file with its permission bits (its data may have
    changed). *)
Definition kept (n n' : node) : Prop :=
  match n, n' with
  | File m _, File m' _ => m = m'
  | _, _ => n = n'
  end.

Definition keeps_entries (t t' : tree) : Prop :=
  forall k n, t !! k = Some n -> exists n', t' !! k = Some n' /\ kept n n'.

(** From [w] to [w'] every entry has been kept and lines have at most been
    added to stderr. *)
Definition only_adds (w w' : world) : Prop :=
  keeps_entries (fs w) (fs w') /\
  stdout w' = stdout w /\ exists lines, stderr w' = stderr w ++ lines.

Lemma kept_refl n : kept n n.
Proof. now destruct n. Qed.

Lemma kept_trans n1 n2 n3 : kept n1 n2 -> kept n2 n3 -> kept n1 n3.
Proof. destruct n1, n2, n3; simpl; congruence. Qed.

Lemma keeps_entries_refl t : keeps_entries t t.
Proof. intros k n H. exists n. split; [assumption|apply kept_refl]. Qed.

Lemma keeps_entries_trans t1 t2 t3 :
  keeps_entries t1 t2 -> keeps_entries t2 t3 -> keeps_entries t1 t3.
Proof.
  intros H12 H23 k n H. destruct (H12 k n H) as (n2 & H2 & K12).
  destruct (H23 k n2 H2) as (n3 & H3 & K23).
  exists n3. split; [assumption|]. eapply kept_trans; eassumption.
Qed.

Lemma keeps_entries_new t key n :
  t !! key = None -> keeps_entries t (<[key := n]> t).
Proof.
  intros Hnone k n0 H. exists n0. split; [|apply kept_refl].
  rewrite lookup_insert_ne; [assumption|]. intros ->. congruence.
Qed.

Lemma keeps_entries_file t key m data data' :
  t !! key = Some (File m data) ->
  keeps_entries t (<[key := File m data']> t).
Proof.
  intros Hfile k n H. destruct (decide (key = k)) as [<-|Hne].
  - rewrite lookup_insert_eq. eexists. split; [reflexivity|].
    rewrite Hfile in H. now inversion H.
  - rewrite lookup_insert_ne by assumption. exists n.
    split; [assumption|apply kept_refl].
Qed.

Lemma only_adds_refl w : only_adds w w.
Proof.
  split; [apply keeps_entries_refl|]. split; [reflexivity|].
  exists []. now rewrite app_nil_r.
Qed.

Lemma only_adds_trans w1 w2 w3 :
  only_adds w1 w2 -> only_adds w2 w3 -> only_adds w1 w3.
Proof.
  intros (Hfs & Ho & l & He) (Hfs' & Ho' & l' & He').
  split; [eapply keeps_entries_trans; eassumption|]. split; [congruence|].
  exists (l ++ l'). now rewrite He', He, app_assoc.
Qed.

Lemma only_adds_eprint line w : only_adds w (eprint line w).
Proof.
  split; [apply keeps_entries_refl|]. split; [reflexivity|]. now exists [line].
Qed.

Lemma only_adds_perror s e w : only_adds w (perror s e w).
Proof. apply only_adds_eprint. Qed.

Lemma only_adds_tree t w :
  keeps_entries (fs w) t -> only_adds w (with_fs t w).
Proof.
  intros H. split; [exact H|]. split; [reflexivity|].
  exists []. simpl. now rewrite app_nil_r.
Qed.

Lemma sys_write_keeps key buffer room t :
  keeps_entries t (sys_write key buffer room t).2.
Proof.
  unfold sys_write.
  destruct (t !! key) as [[m d|m|target]|] eqn:E; simpl;
    try apply keeps_entries_refl.
  eapply keeps_entries_file; eassumption.
Qed.

Lemma copy_loop_only_adds chunks dest_fd msg w :
  only_adds w (copy_loop chunks dest_fd msg w).
Proof.
  revert w. induction chunks as [|buffer chunks IH]; intros w;
    [apply only_adds_refl|]. cbn [copy_loop].
  pose proof (sys_write_keeps dest_fd buffer (disk_free w) (fs w)) as Hk.
  destruct (sys_write dest_fd buffer (disk_free w) (fs w)) as [written t].
  simpl in Hk. apply only_adds_tree in Hk.
  destruct (written =? String.length buffer)%nat.
  - eapply only_adds_trans; [exact Hk|apply IH].
  - eapply only_adds_trans; [exact Hk|apply only_adds_perror].
Qed.

Section WithProcess.

Variable umask : Z.
Variable behind : string -> string.

Abbreviation sys_mkdir := (sys_mkdir umask).
Abbreviation sys_open_trunc := (sys_open_trunc umask).
Abbreviation copy_file := (copy_file umask behind).
Abbreviation recursive_copy_rec := (recursive_copy_rec umask behind).
Abbreviation recursive_copy := (recursive_copy umask behind).

Lemma sys_open_trunc_keeps path mode t key t' :
  sys_open_trunc path mode t = inr (key, t') -> keeps_entries t t'.
Proof.
  unfold FileSystem.sys_open_trunc.
  destruct (resolve_with _ _ _ _) as [e|k]; [discriminate|].
  destruct (trailing_slash path); [discriminate|].
  destruct (t !! k) as [[m d|m|target]|] eqn:E; try discriminate.
  - destruct (may_write m); [|discriminate]. intros H; inversion H; subst.
    eapply keeps_entries_file; eassumption.
  - destruct (cannot_alter _ _); [discriminate|]. intros H; inversion H; subst.
    now apply keeps_entries_new.
Qed.

Lemma copy_file_only_adds src dest st w :
  only_adds w (copy_file src dest st w).
Proof.
  unfold TreeOps.copy_file.
  destruct (sys_open_rdonly src (fs w)) as [e|src_fd];
    [apply only_adds_perror|].
  destruct (if match sys_stat dest (fs w) with
               | inr dest_st => S_ISDIR dest_st
               | inl _ => false
               end
            then _ else Some (strncpy _ dest)) as [final_dest|];
    [|apply only_adds_eprint].
  destruct (sys_open_trunc final_dest (st_mode st) (fs w))
    as [e|[dest_fd t]] eqn:E; [apply only_adds_perror|].
  eapply only_adds_trans;
    [apply only_adds_tree; eapply sys_open_trunc_keeps; eassumption|].
  destruct (sys_read_all _ _ _);
    [apply only_adds_perror|apply copy_loop_only_adds].
Qed.

Lemma sys_mkdir_only_adds dest mode w w1 :
  match sys_mkdir dest mode (fs w) with
  | inr t => inr (with_fs t w)
  | inl EEXIST => inr w
  | inl e => inl e
  end = inr w1 ->
  only_adds w w1.
Proof.
  unfold FileSystem.sys_mkdir. destruct (resolve_entry _ _) as [e|key].
  - destruct e; intros H; inversion H. apply only_adds_refl.
  - destruct (last_type dest), (fs w !! key) eqn:E;
      try (intros H; inversion H; apply only_adds_refl).
    destruct (cannot_alter _ _) as [e|].
    + destruct e; intros H; inversion H. apply only_adds_refl.
    + intros H; inversion H. apply only_adds_tree. now apply keeps_entries_new.
Qed.

Lemma recursive_copy_rec_only_adds fuel src dest depth w :
  only_adds w (recursive_copy_rec fuel src dest depth w).
Proof.
  revert src dest depth w.
  induction fuel as [|fuel IH]; intros src dest depth w; simpl;
    (destruct (MAX_RECURSION <? depth)%Z; [apply only_adds_eprint|]);
    (destruct (sys_stat src (fs w)) as [e|st]; [apply only_adds_perror|]);
    (destruct (S_ISDIR st); [|apply copy_file_only_adds]);
    (destruct (match sys_stat dest (fs w) with
               | inr dest_st => negb (S_ISDIR dest_st)
               | inl _ => false
               end); [apply only_adds_eprint|]);
    (destruct (match sys_mkdir dest (st_mode st) (fs w) with
               | inr t => inr (with_fs t w)
               | inl EEXIST => inr w
               | inl e => inl e
               end) as [e|w1] eqn:Emk; [apply only_adds_perror|]);
    apply sys_mkdir_only_adds in Emk;
    (destruct (sys_opendir src (fs w1)) as [e|names];
       [eapply only_adds_trans; [exact Emk|apply only_adds_perror]|]);
    (eapply only_adds_trans; [exact Emk|]); clear Emk.
  - apply only_adds_refl.
  - generalize dependent w1. clear w.
    induction names as [|d_name names IHnames]; intros w;
      [apply only_adds_refl|]. simpl.
    destruct (_ || _); [apply IHnames|].
    destruct (_ || _); [apply only_adds_eprint|].
    eapply only_adds_trans; [apply IH|apply IHnames].
Qed.

(** [recursive_copy] never removes an entry and never changes its kind:
    whatever the paths, the depth and the tree, each directory and each
    link is afterwards as it was, each file is still a file with the same
    permission bits, nothing is printed on stdout, and stderr has only got
    longer. *)
Theorem recursive_copy_keeps_every_entry src dest depth w :
  only_adds w (recursive_copy src dest depth w).
Proof. apply recursive_copy_rec_only_adds. Qed.

End WithProcess.

(** *** Copying one file *)

Lemma append_nil_r s : s +:+ "" = s.
Proof. induction s as [|c s IH]; [reflexivity|]. now rewrite append_cons, IH. Qed.

Lemma append_assoc s1 s2 s3 : (s1 +:+ s2) +:+ s3 = s1 +:+ (s2 +:+ s3).
Proof.
  induction s1 as [|c s1 IH]; [reflexivity|]. now rewrite !append_cons, IH.
Qed.

Lemma append_length s1 s2 :
  String.length (s1 +:+ s2) = String.length s1 + String.length s2.
Proof.
  induction s1 as [|c s1 IH]; [reflexivity|]. rewrite append_cons. simpl.
  now rewrite IH.
Qed.

Lemma fits_not_too_long path :
  String.length path < MAX_PATH -> too_long path = false.
Proof. intros H. now apply Nat.leb_gt. Qed.

(** What [stat] says of a regular file is what [open] finds. *)
Lemma sys_stat_file path t m data :
  sys_stat path t = inr (File m data) ->
  exists key, resolve t true path = inr key /\ t !! key = Some (File m data).
Proof.
  unfold sys_stat. destruct (resolve t true path) as [e|key]; [discriminate|].
  destruct (t !! key) as [[m' d'|m'|target]|] eqn:E; intros H; inversion H.
  subst. now exists key.
Qed.

Lemma with_fs_same w : with_fs (fs w) w = w.
Proof. now destruct w. Qed.

(** A [write] takes the room of what it writes. *)
Lemma disk_free_write w key m data buffer :
  fs w !! key = Some (File m data) ->
  disk_free (with_fs (<[key := File m (data +:+ buffer)]> (fs w)) w)
  = disk_free w - String.length buffer.
Proof.
  intros H. unfold disk_free. cbn [with_fs fs disk_size].
  pose proof (used_insert (fs w) key _ (File m (data +:+ buffer)) H) as Hu.
  cbn [size] in Hu. rewrite append_length in Hu. lia.
Qed.

(** With room on the disk the loop appends every chunk to the file. *)
Lemma copy_loop_all chunks key msg w m data :
  fs w !! key = Some (File m data) ->
  String.length (foldr String.append "" chunks) <= disk_free w ->
  copy_loop chunks key msg w
  = with_fs (<[key := File m (data +:+ foldr String.append "" chunks)]> (fs w))
      w.
Proof.
  revert w data. induction chunks as [|buffer chunks IH]; intros w data Hf Hroom.
  - cbn [copy_loop foldr]. rewrite append_nil_r, insert_id by assumption.
    now rewrite with_fs_same.
  - cbn [copy_loop foldr] in *. rewrite append_length in Hroom.
    unfold sys_write. rewrite Hf, take_string_all by lia.
    rewrite Nat.eqb_refl.
    rewrite (IH _ (data +:+ buffer));
      [|cbn [with_fs fs]; apply lookup_insert_eq
       |rewrite (disk_free_write _ _ _ _ _ Hf); lia].
    unfold with_fs. cbn [fs disk_size stdout stderr].
    now rewrite insert_insert_eq, append_assoc.
Qed.

Section WithProcess.

Variable umask : Z.
Variable behind : string -> string.

Abbreviation sys_open_trunc := (sys_open_trunc umask).
Abbreviation copy_file := (copy_file umask behind).
Abbreviation recursive_copy := (recursive_copy umask behind).

(** The copy of a file under a name that does not exist yet, the name
    that is read from the buffer [final_dest]. *)
Lemma copy_file_creates src dest w m data key :
  sys_stat src (fs w) = inr (File m data) ->
  may_read m = true ->
  match sys_stat dest (fs w) with
  | inr dest_st => S_ISDIR dest_st
  | inl _ => false
  end = false ->
  resolve (fs w) true (strncpy (behind dest) dest) = inr key ->
  trailing_slash (strncpy (behind dest) dest) = false ->
  fs w !! key = None ->
  cannot_alter (fs w) (removelast key) = None ->
  String.length data <= disk_free w ->
  copy_file src dest (File m data) w
  = with_fs (<[key := File (masked umask m) data]> (fs w)) w.
Proof.
  intros Hsrc Hread Hnotdir Hdest Hslash Hnone Hdir Hroom.
  destruct (sys_stat_file _ _ _ _ Hsrc) as (skey & Hres & Hfile).
  unfold TreeOps.copy_file, sys_open_rdonly, FileSystem.sys_open_trunc.
  rewrite Hres, Hfile, Hread, Hnotdir.
  unfold resolve in Hdest. rewrite Hslash in Hdest.
  rewrite Hdest, Hslash, Hnone, Hdir. cbn [st_mode with_fs fs].
  assert (Hne : key <> skey) by (intros ->; congruence).
  unfold sys_read_all. rewrite lookup_insert_ne, Hfile by assumption.
  change 1024 with (S 1023).
  set (mode := masked umask m).
  set (w1 := with_fs (<[key := File mode ""]> (fs w)) w).
  assert (Hfree : disk_free w1 = disk_free w).
  { unfold disk_free, w1. cbn [with_fs fs disk_size].
    now rewrite used_insert_new by assumption. }
  rewrite (copy_loop_all _ key _ _ mode "");
    [|apply lookup_insert_eq|now rewrite reads_all, Hfree].
  rewrite reads_all by lia. unfold w1, with_fs. cbn [fs disk_size stdout stderr].
  now rewrite insert_insert_eq.
Qed.

Lemma copy_file_new_name src dest w m data key :
  sys_stat src (fs w) = inr (File m data) ->
  may_read m = true ->
  resolve (fs w) true dest = inr key ->
  trailing_slash dest = false ->
  fs w !! key = None ->
  cannot_alter (fs w) (removelast key) = None ->
  String.length dest < MAX_PATH ->
  String.length data <= disk_free w ->
  copy_file src dest (File m data) w
  = with_fs (<[key := File (masked umask m) data]> (fs w)) w.
Proof.
  intros Hsrc Hread Hdest Hslash Hnone Hdir Hlen Hroom.
  apply copy_file_creates; try assumption;
    try (now rewrite strncpy_fits by now apply fits_not_too_long).
  unfold sys_stat. now rewrite Hdest, Hnone.
Qed.



End WithProcess.

(** *** Deleting what is not a directory *)

Lemma resolve_from_nil fuel t follow_last dir_only cur :
  resolve_from fuel t follow_last dir_only cur [] = inr cur.
Proof. now destruct fuel. Qed.

Lemma resolve_from_cons fuel t follow_last dir_only cur name rest :
  resolve_from fuel t follow_last dir_only cur (name :: rest)
  = match cannot_search t cur with
    | Some e => inl e
    | None =>
        if String.eqb name "."
        then resolve_from fuel t follow_last dir_only cur rest
        else if String.eqb name ".."
        then resolve_from fuel t follow_last dir_only (removelast cur) rest
        else if (NAME_MAX <? String.length name)%nat then inl ENAMETOOLONG
        else
          match t !! (cur ++ [name]) with
          | None =>
              match rest with
              | [] => if dir_only then inl ENOENT else inr (cur ++ [name])
              | _ => inl ENOENT
              end
          | Some (File _ _) =>
              match rest with
              | [] => if dir_only then inl ENOTDIR else inr (cur ++ [name])
              | _ => inl ENOTDIR
              end
          | Some (Dir _) =>
              resolve_from fuel t follow_last dir_only (cur ++ [name]) rest
          | Some (Symlink target) =>
              match rest, follow_last || dir_only with
              | [], false => inr (cur ++ [name])
              | _, _ =>
                  match fuel, target with
                  | O, _ => inl ELOOP
                  | _, EmptyString => inl ENOENT
                  | S fuel', _ =>
                      resolve_from fuel' t follow_last
                        (match rest with
                         | [] => dir_only || trailing_slash target
                         | _ => dir_only
                         end)
                        (if is_absolute target then [] else cur)
                        (components target ++ rest)
                  end
              end
          end
    end.
Proof. now destruct fuel. Qed.

(** A path that leads to something other than a link without following a
    last link leads to the same place when a last link is followed. *)
Lemma resolve_from_not_link fuel t dir_only cur comps key :
  resolve_from fuel t false dir_only cur comps = inr key ->
  (forall target, t !! key <> Some (Symlink target)) ->
  resolve_from fuel t true dir_only cur comps = inr key.
Proof.
  revert dir_only cur comps.
  induction fuel as [|fuel IHfuel]; intros dir_only cur comps; revert cur;
    (induction comps as [|name rest IH]; intros cur H Hkey;
     [now rewrite resolve_from_nil in *|]);
    rewrite resolve_from_cons in H |- *;
    (destruct (cannot_search t cur); [discriminate|]);
    (destruct (String.eqb name "."); [now apply IH|]);
    (destruct (String.eqb name ".."); [now apply IH|]);
    (destruct (NAME_MAX <? String.length name)%nat; [discriminate|]);
    (destruct (t !! (cur ++ [name])) as [[m d|m|target]|] eqn:E;
     [assumption|now apply IH| |assumption]);
    (destruct rest as [|name' rest'], dir_only; cbn [orb] in H |- *;
     try (inversion H; subst key; now destruct (Hkey target)));
    try discriminate;
    destruct target; try discriminate; now apply IHfuel.
Qed.

Lemma sys_lstat_not_link path t n :
  sys_lstat path t = inr n ->
  (forall target, n <> Symlink target) ->
  sys_stat path t = inr n.
Proof.
  unfold sys_lstat, sys_stat, resolve, resolve_with.
  destruct path as [|c path]; [discriminate|].
  destruct (PATH_MAX <=? _)%nat; [discriminate|].
  destruct (resolve_from _ t false _ _ _) as [e|key] eqn:E; [discriminate|].
  destruct (t !! key) as [n'|] eqn:En; intros H Hn; inversion H; subst n'.
  rewrite (resolve_from_not_link _ _ _ _ _ _ E), En.
  - destruct n; try reflexivity. now destruct (Hn target).
  - intros target Ht. rewrite En in Ht. inversion Ht. now destruct (Hn target).
Qed.

Lemma sys_lstat_entry path t n :
  sys_lstat path t = inr n ->
  exists key, resolve t false path = inr key /\ t !! key = Some n.
Proof.
  unfold sys_lstat. destruct (resolve t false path) as [e|key]; [discriminate|].
  destruct (t !! key) as [n'|] eqn:E; intros H; inversion H.
  subst. now exists key.
Qed.

(** What [unlink] does to an entry that is not a directory, named
    without a slash behind the name, in a directory where entries may be
    removed. *)
Lemma sys_unlink_entry path t key n :
  resolve t false path = inr key ->
  t !! key = Some n ->
  S_ISDIR n = false ->
  trailing_slash path = false ->
  last_type path = LastNorm ->
  cannot_alter t (removelast key) = None ->
  sys_unlink path t = inr (delete key t).
Proof.
  intros Hres Hkey Hn Hslash Hlast Hdir. unfold sys_unlink, resolve_entry.
  unfold resolve in Hres. rewrite Hslash in Hres.
  now rewrite Hres, Hlast, Hkey, Hslash, Hdir, Hn.
Qed.


(** *** Moving one file *)

(** A path that leads to an entry of the tree leads to it in every tree
    that has all the entries of this one. *)
Lemma resolve_from_weaken fuel t t' follow_last dir_only cur comps key n :
  t ⊆ t' ->
  resolve_from fuel t follow_last dir_only cur comps = inr key ->
  t !! key = Some n ->
  resolve_from fuel t' follow_last dir_only cur comps = inr key.
Proof.
  intros Hsub. revert dir_only cur comps.
  induction fuel as [|fuel IHfuel]; intros dir_only cur comps; revert cur;
    (induction comps as [|name rest IH]; intros cur H Hkey;
     [now rewrite resolve_from_nil in *|]);
    rewrite resolve_from_cons in H |- *;
    unfold cannot_search in *;
    (destruct (t !! cur) as [[m0 d0|m0|target0]|] eqn:Ecur; try discriminate);
    rewrite (lookup_weaken _ _ _ _ Ecur Hsub);
    (destruct (may_search m0); [|discriminate]);
    (destruct (String.eqb name "."); [now apply IH|]);
    (destruct (String.eqb name ".."); [now apply IH|]);
    (destruct (NAME_MAX <? String.length name)%nat; [discriminate|]);
    (destruct (t !! (cur ++ [name])) as [node|] eqn:E;
     [rewrite (lookup_weaken _ _ _ _ E Hsub)
     |destruct rest, dir_only; try discriminate;
      inversion H; subst key; congruence]);
    (destruct node as [m d|m|target]; [assumption|now apply IH|]);
    (destruct rest as [|name' rest'], (follow_last || dir_only);
     try assumption);
    try discriminate;
    destruct target; try discriminate; now apply IHfuel.
Qed.

Lemma resolve_weaken t t' follow_last path key n :
  t ⊆ t' ->
  resolve t follow_last path = inr key ->
  t !! key = Some n ->
  resolve t' follow_last path = inr key.
Proof.
  unfold resolve, resolve_with. intros Hsub H Hkey.
  destruct path; [discriminate|].
  destruct (PATH_MAX <=? _)%nat; [discriminate|].
  eapply resolve_from_weaken; eassumption.
Qed.

Section WithRename.

Variable umask : Z.
Variable behind : string -> string.
Variable sys_rename : string -> string -> tree -> errno + tree.

Abbreviation execute_builtin := (execute_builtin umask behind).


End WithRename.

(** *** The name under which a file is copied into a directory *)

Lemma strchr_append s1 s2 c :
  Parser.strchr (s1 +:+ s2) c = Parser.strchr s1 c || Parser.strchr s2 c.
Proof.
  induction s1 as [|d s1 IH]; [reflexivity|]. rewrite append_cons. simpl.
  now rewrite IH, orb_assoc.
Qed.

(** The last component of [dir/name] is [name], when [name] holds no
    slash: a file copied into a directory keeps its name there. *)
Theorem basename_of_join dir name :
  Parser.strchr name "/" = false ->
  basename (join dir name) = name.
Proof.
  intros Hname. unfold join.
  induction dir as [|c dir IH].
  - change ("" +:+ "/" +:+ name) with (String "/" name).
    cbn [basename]. now rewrite Hname.
  - rewrite append_cons. cbn [basename].
    rewrite strchr_append. change ("/" +:+ name) with (String "/" name).
    cbn [Parser.strchr]. rewrite Ascii.eqb_refl, orb_true_r. exact IH.
Qed.

(** *** Too few operands *)

(** The operands of [cp], [mv] and [rm]: what follows the name of the
    command and an [-r] in the first place. *)
Definition operands (args : list string) : list string :=
  if is_minus_r (arg args 1) then drop 2 args else drop 1 args.

Definition needed (name : string) : nat :=
  if String.eqb name "rm" then 1 else 2.

Definition usage (name : string) : string :=
  if String.eqb name "rm" then "Usage: rm [-r] [file/directory]"
  else "Usage: " +:+ name +:+ " [-r] [source] [destination]".

Section WithRename.

Variable umask : Z.
Variable behind : string -> string.
Variable sys_rename : string -> string -> tree -> errno + tree.

Abbreviation execute_builtin := (execute_builtin umask behind).

(** [cp], [mv] and [rm] with fewer operands than they need, with or
    without [-r], print their usage line on stdout and do nothing else: [rm]
    needs one operand, [cp] and [mv] need two. *)
Theorem too_few_operands_print_usage name args w :
  name = "cp" \/ name = "mv" \/ name = "rm" ->
  length (operands (name :: args)) < needed name ->
  execute_builtin sys_rename (name :: args) w = Done (print (usage name) w).
Proof.
  unfold operands, arg.
  intros [Hn|[Hn|Hn]] Hlen; subst name; cbn -[print] in Hlen |- *;
    unfold builtin_cp, builtin_mv, builtin_rm, arg; cbn -[print];
    destruct (is_minus_r (args !! 0));
    destruct args as [|a1 [|a2 [|a3 args]]]; cbn -[print] in Hlen |- *;
    try reflexivity; lia.
Qed.

End WithRename.

(** *** The theorems at concrete trees *)

Definition home : tree :=
  {[ [] := Dir 493; ["notes"] := File 420 "to do";
     ["latest"] := Symlink "notes"; ["docs"] := Dir 493 ]}.

Definition at_home : world := mkWorld home 1000 [] [].





Lemma basename_of_join_witness : basename (join "docs/old" "notes") = "notes".
Proof. apply basename_of_join. reflexivity. Defined.

Lemma too_few_operands_print_usage_witness :
  execute_builtin usual_umask nothing_behind (fun _ _ _ => inl EINVAL)
    ["mv"; "-r"; "notes"] at_home
  = Done (print "Usage: mv [-r] [source] [destination]" at_home).
Proof.
  apply (too_few_operands_print_usage usual_umask nothing_behind
           (fun _ _ _ => inl EINVAL) "mv" ["-r"; "notes"] at_home);
    [now right; left|vm_compute; lia].
Defined.

End TreeOpsMore.

(** ** Deleting a tree *)

Module DeleteTree.
Import Strtok StrtokFacts FileSystem TreeOps TreeOpsFacts ParserMore TreeOpsMore.

(** *** The names of a composed path *)

Lemma skip_delims_app_nonempty delim s x s' y :
  skip_delims delim s = String x s' ->
  skip_delims delim (s +:+ y) = String x s' +:+ y.
Proof.
  induction s as [|a s IH]; [discriminate|].
  rewrite append_cons. cbn [skip_delims].
  destruct (delim a); [exact IH|]. intros H. now inversion H.
Qed.

Lemma skip_delims_app_empty delim s y :
  skip_delims delim s = "" ->
  skip_delims delim (s +:+ y) = skip_delims delim y.
Proof.
  induction s as [|a s IH]; [reflexivity|].
  rewrite append_cons. cbn [skip_delims].
  destruct (delim a); [exact IH|discriminate].
Qed.

Lemma strtok_of_skip delim s x s' :
  skip_delims delim s = String x s' ->
  strtok delim s = let '(t, r) := take_token delim (String x s') in (Some t, r).
Proof. unfold strtok. now intros ->. Qed.

Lemma take_token_append delim u c v t r :
  delim c = true ->
  take_token delim u = (t, r) ->
  take_token delim (u +:+ String c v) = (t, r +:+ String c v) \/
  (r = "" /\ take_token delim (u +:+ String c v) = (t, v)).
Proof.
  intros Hc. revert t r. induction u as [|x u IH]; intros t r H.
  - simpl in H. inversion H; subst. right. split; [reflexivity|].
    change ("" +:+ String c v) with (String c v). simpl. now rewrite Hc.
  - rewrite append_cons. simpl in H |- *. destruct (delim x).
    + inversion H; subst. now left.
    + destruct (take_token delim u) as [t' r'] eqn:E. inversion H; subst.
      destruct (IH _ _ eq_refl) as [IH'|[Hr IH']]; rewrite IH'; auto.
Qed.

Lemma strtok_all_token delim name :
  is_token delim name -> strtok_all delim name = [name].
Proof.
  intros H. rewrite strtok_all_unfold, strtok_last by assumption. reflexivity.
Qed.

(** A token put behind a string and a delimiter is one more token. *)
Lemma strtok_all_snoc delim s c name :
  delim c = true -> is_token delim name ->
  strtok_all delim (s +:+ String c name) = strtok_all delim s ++ [name].
Proof.
  intros Hc Hname.
  assert (H : forall n s, String.length s <= n ->
            strtok_all delim (s +:+ String c name)
            = strtok_all delim s ++ [name]); [|now apply (H (String.length s))].
  clear s. induction n as [|n IH]; intros s Hn.
  - destruct s; [|simpl in Hn; lia].
    change ("" +:+ String c name) with (String c name).
    rewrite strtok_all_unfold. unfold strtok. cbn [skip_delims]. rewrite Hc.
    pose proof (strtok_last delim name Hname) as Hlast. unfold strtok in Hlast.
    rewrite Hlast. reflexivity.
  - rewrite (strtok_all_unfold delim s), (strtok_all_unfold delim (s +:+ _)).
    destruct (skip_delims delim s) as [|x s'] eqn:E.
    + unfold strtok. rewrite skip_delims_app_empty, E by assumption.
      cbn [skip_delims]. rewrite Hc.
      pose proof (strtok_last delim name Hname) as Hlast. unfold strtok in Hlast.
      rewrite Hlast. reflexivity.
    + pose proof (skip_delims_app_nonempty _ _ _ _ (String c name) E) as E'.
      rewrite append_cons in E'.
      rewrite (strtok_of_skip _ _ _ _ E), (strtok_of_skip _ _ _ _ E').
      destruct (take_token delim (String x s')) as [t r] eqn:Et.
      assert (Hr : String.length r < String.length s).
      { apply (strtok_saved_shorter delim s t).
        now rewrite (strtok_of_skip _ _ _ _ E), Et. }
      rewrite <- append_cons.
      destruct (take_token_append delim _ c name _ _ Hc Et) as [Ht|[-> Ht]];
        rewrite Ht.
      * rewrite IH by lia. reflexivity.
      * now rewrite strtok_all_token.
Qed.

Lemma components_join path name :
  is_token is_slash name ->
  components (join path name) = components path ++ [name].
Proof. intros H. now apply strtok_all_snoc. Qed.

Lemma trailing_slash_app s name :
  name <> "" -> trailing_slash (s +:+ name) = trailing_slash name.
Proof.
  intros Hne. induction s as [|c s IH]; [reflexivity|].
  rewrite append_cons. cbn [trailing_slash].
  destruct (s +:+ name) eqn:E; [|exact IH].
  destruct s; [|discriminate]. now destruct Hne.
Qed.

Lemma trailing_slash_no_slash s :
  all_chars (fun c => negb (is_slash c)) s = true -> trailing_slash s = false.
Proof.
  induction s as [|c s IH]; [reflexivity|]. cbn [all_chars trailing_slash].
  intros [Hc Hs]%andb_prop. apply negb_true_iff in Hc.
  destruct s; [exact Hc|now apply IH].
Qed.

Lemma trailing_slash_join path name :
  is_token is_slash name -> trailing_slash (join path name) = false.
Proof.
  intros [Hne Hname]. unfold join.
  rewrite trailing_slash_app by discriminate.
  change ("/" +:+ name) with (String "/" name).
  destruct name as [|a name]; [contradiction|].
  change (trailing_slash (String "/" (String a name)))
    with (trailing_slash (String a name)).
  now apply trailing_slash_no_slash.
Qed.

(** *** The names in a directory *)

Lemma last_removelast (k : list string) name :
  last k = Some name -> k = removelast k ++ [name].
Proof.
  destruct k as [|x k _] using rev_ind; [discriminate|].
  rewrite last_snoc, removelast_last. now intros [= ->].
Qed.

Lemma elem_of_entries t key name :
  name ∈ entries t key <-> is_Some (t !! (key ++ [name])).
Proof.
  unfold entries. rewrite list_elem_of_omap. split.
  - intros ([k n] & Hin & Hf). apply elem_of_map_to_list in Hin.
    destruct (last k) as [x|] eqn:El; [|discriminate].
    destruct (decide (removelast k = key)) as [<-|]; [|discriminate].
    inversion Hf; subst x. rewrite <- (last_removelast _ _ El). eauto.
  - intros [n Hn]. exists (key ++ [name], n).
    split; [now apply elem_of_map_to_list|].
    rewrite last_snoc, removelast_last. now rewrite decide_True.
Qed.

Lemma NoDup_omap_inj {A B} (f : A -> option B) (l : list A) :
  (forall x y z, x ∈ l -> y ∈ l -> f x = Some z -> f y = Some z -> x = y) ->
  NoDup l -> NoDup (omap f l).
Proof.
  intros Hinj Hl. induction Hl as [|x l Hx Hl IH]; [constructor|].
  change (omap f (x :: l))
    with (match f x with Some y => y :: omap f l | None => omap f l end).
  destruct (f x) as [z|] eqn:E.
  - constructor.
    + intros Hin. apply list_elem_of_omap in Hin as (y & Hy & Hfy).
      assert (x = y) by (eapply Hinj; eauto using list_elem_of_here, list_elem_of_further).
      congruence.
    + apply IH. intros; eapply Hinj; eauto using list_elem_of_further.
  - apply IH. intros; eapply Hinj; eauto using list_elem_of_further.
Qed.

Lemma NoDup_entries t key : NoDup (entries t key).
Proof.
  apply NoDup_omap_inj; [|apply NoDup_map_to_list].
  intros [k1 n1] [k2 n2] name H1 H2 F1 F2.
  apply elem_of_map_to_list in H1, H2.
  destruct (last k1) as [x1|] eqn:E1; [|discriminate].
  destruct (decide (removelast k1 = key)) as [R1|]; [|discriminate].
  destruct (last k2) as [x2|] eqn:E2; [|discriminate].
  destruct (decide (removelast k2 = key)) as [R2|]; [|discriminate].
  inversion F1; inversion F2; subst x1 x2.
  apply last_removelast in E1, E2. rewrite R1 in E1. rewrite R2 in E2.
  subst k1 k2. f_equal. congruence.
Qed.

(** *** A tree without links, reached by names *)

(** A name as a directory holds it. *)
Definition is_entry_name (name : string) : Prop :=
  is_token is_slash name /\ name <> "." /\ name <> ".." /\
  String.length name <= NAME_MAX.

(** A directory in which the shell may look names up, and one that it may
    also read and change. *)
Definition searchable (t : tree) (key : list string) : Prop :=
  exists m, t !! key = Some (Dir m) /\ may_search m = true.

Definition open_dir (n : node) : Prop :=
  match n with
  | Dir m => may_read m = true /\ may_write m = true /\ may_search m = true
  | _ => True
  end.

(** The tree without [key] and all that lies below it. *)
Definition prune (key : list string) (t : tree) : tree :=
  filter (fun kv => ~ key `prefix_of` kv.1) t.

(** The path that the recursion composes for the entry [extra] below
    [path]. *)
Definition path_to (path : string) (extra : list string) : string :=
  foldl join path extra.

(** [path] is made of the names [key] with nothing behind the last, it
    is not longer than a path may be, and the names lead from the working
    directory through directories that may be searched. *)
Definition leads_to (t : tree) (path : string) (key : list string) : Prop :=
  components path = key /\ trailing_slash path = false /\
  String.length path < PATH_MAX /\
  key <> [] /\ Forall is_entry_name key /\
  forall pre, pre `prefix_of` key -> pre <> key -> searchable t pre.

(** All that lies at [key] and below is files and directories with
    ordinary names, each in a directory, the directories open to the shell,
    with a path that fits the buffer and at a depth that the recursion
    reaches. *)
Definition plain_below (t : tree) (path : string) (key : list string)
    (depth : Z) : Prop :=
  forall extra n, t !! (key ++ extra) = Some n ->
    (forall target, n <> Symlink target) /\
    open_dir n /\
    Forall is_entry_name extra /\
    (forall pre, pre `prefix_of` extra -> pre <> extra ->
                 exists m, t !! (key ++ pre) = Some (Dir m)) /\
    String.length (path_to path extra) < MAX_PATH /\
    (depth + Z.of_nat (length extra) <= MAX_RECURSION)%Z.

Lemma lookup_prune key t k n :
  prune key t !! k = Some n <-> t !! k = Some n /\ ~ key `prefix_of` k.
Proof. unfold prune. now rewrite map_lookup_filter_Some. Qed.

Lemma lookup_prune_below key t k : key `prefix_of` k -> prune key t !! k = None.
Proof.
  intros Hk. destruct (prune key t !! k) as [n|] eqn:E; [|reflexivity].
  apply lookup_prune in E as [_ E]. contradiction.
Qed.

Lemma lookup_prune_other key t k :
  ~ key `prefix_of` k -> prune key t !! k = t !! k.
Proof.
  intros Hk. apply option_eq. intros n. rewrite lookup_prune. tauto.
Qed.

Lemma prefix_snoc_inv (pre key : list string) name :
  pre `prefix_of` key ++ [name] -> pre = key ++ [name] \/ pre `prefix_of` key.
Proof.
  intros [k Hk]. destruct k as [|x k _] using rev_ind.
  - left. now rewrite app_nil_r in Hk.
  - right. rewrite app_assoc in Hk. apply app_inj_tail in Hk as [-> _].
    now exists k.
Qed.

Lemma prefix_same_length (a b : list string) :
  a `prefix_of` b -> length a = length b -> a = b.
Proof.
  intros [k ->] Hlen. rewrite length_app in Hlen.
  destruct k; [now rewrite app_nil_r|simpl in Hlen; lia].
Qed.

Lemma fits_path_max path :
  String.length path < MAX_PATH -> String.length path < PATH_MAX.
Proof. unfold MAX_PATH, PATH_MAX. lia. Qed.

Lemma searchable_cannot_search t key :
  searchable t key -> cannot_search t key = None.
Proof. intros (m & Hm & Hx). unfold cannot_search. now rewrite Hm, Hx. Qed.

Lemma resolve_from_direct fuel t follow_last cur names :
  Forall is_entry_name names ->
  (forall pre, pre `prefix_of` names -> pre <> names ->
               searchable t (cur ++ pre)) ->
  (forall target, t !! (cur ++ names) <> Some (Symlink target)) ->
  resolve_from fuel t follow_last false cur names = inr (cur ++ names).
Proof.
  intros Hnames. revert cur.
  induction Hnames as [|name rest (_ & Hdot & Hdots & Hmax) _ IH];
    intros cur Hdirs Hlast.
  - now rewrite resolve_from_nil, app_nil_r.
  - rewrite resolve_from_cons.
    rewrite searchable_cannot_search
      by (rewrite <- (app_nil_r cur); apply Hdirs;
          [apply prefix_nil|discriminate]).
    apply String.eqb_neq in Hdot, Hdots. rewrite Hdot, Hdots.
    replace (NAME_MAX <? String.length name)%nat with false
      by (symmetry; now apply Nat.ltb_ge).
    destruct rest as [|name' rest].
    + destruct (t !! (cur ++ [name])) as [[m d|m|target]|] eqn:E;
        try reflexivity; [apply resolve_from_nil|].
      now destruct (Hlast target).
    + destruct (Hdirs [name]) as (m & Hm & _);
        [now exists (name' :: rest)|discriminate|].
      rewrite Hm, IH, <- app_assoc; [reflexivity| |].
      * intros pre Hpre Hne. rewrite <- app_assoc.
        apply (Hdirs (name :: pre)); [|congruence].
        now apply prefix_cons.
      * intros target. rewrite <- app_assoc. apply Hlast.
Qed.

Lemma resolve_direct t follow_last path key :
  leads_to t path key ->
  (forall target, t !! key <> Some (Symlink target)) ->
  resolve t follow_last path = inr key.
Proof.
  intros (Hc & Hslash & Hlen & Hne & Hnames & Hdirs) Hlast.
  unfold resolve, resolve_with. rewrite Hslash.
  replace (PATH_MAX <=? String.length path)%nat with false
    by (symmetry; now apply Nat.leb_gt).
  destruct path as [|c path]; [now destruct Hne|].
  rewrite Hc. now apply (resolve_from_direct _ _ _ []).
Qed.

Lemma last_type_direct t path key :
  leads_to t path key -> last_type path = LastNorm.
Proof.
  intros (Hc & _ & _ & Hne & Hnames & _). unfold last_type. rewrite Hc.
  destruct key as [|x key _] using rev_ind; [contradiction|].
  rewrite last_snoc. apply Forall_app in Hnames as [_ Hx].
  inversion Hx as [|? ? (_ & Hdot & Hdots & _) _]; subst.
  apply String.eqb_neq in Hdot, Hdots. now rewrite Hdot, Hdots.
Qed.

Lemma leads_to_child t path key name :
  leads_to t path key -> searchable t key -> is_entry_name name ->
  String.length (join path name) < PATH_MAX ->
  leads_to t (join path name) (key ++ [name]).
Proof.
  intros (Hc & Hslash & Hlen & Hne & Hnames & Hdirs) Hkey Hname Hfits.
  split; [|split; [|split; [|split; [|split]]]].
  - rewrite components_join, Hc by apply Hname. reflexivity.
  - apply trailing_slash_join, Hname.
  - exact Hfits.
  - now destruct key.
  - apply Forall_app. split; [assumption|now constructor].
  - intros pre [->|Hpre]%prefix_snoc_inv Hneq; [contradiction|].
    destruct (decide (pre = key)) as [->|Hk]; [assumption|now apply Hdirs].
Qed.

Lemma plain_below_child t path key depth name :
  plain_below t path key depth ->
  plain_below t (join path name) (key ++ [name]) (depth + 1).
Proof.
  intros H extra n Hn. rewrite <- app_assoc in Hn.
  destruct (H (name :: extra) n Hn)
    as (Hlink & Hopen & Hnames & Hdirs & Hlen & Hd).
  split; [assumption|]. split; [assumption|]. split; [now inversion Hnames|].
  split; [|split; [exact Hlen|simpl in Hd; lia]].
  intros pre Hpre Hne. rewrite <- app_assoc.
  apply (Hdirs (name :: pre)); [now apply prefix_cons|congruence].
Qed.

Lemma leads_to_prune t path key ck :
  leads_to t path key -> ~ ck `prefix_of` key -> leads_to (prune ck t) path key.
Proof.
  intros (Hc & Hslash & Hlen & Hne & Hnames & Hdirs) Hck.
  split; [assumption|]. split; [assumption|]. split; [assumption|].
  split; [assumption|]. split; [assumption|].
  intros pre Hpre Hneq. destruct (Hdirs pre Hpre Hneq) as (m & Hm & Hx).
  exists m. split; [|assumption]. apply lookup_prune. split; [assumption|].
  intros Hcp. apply Hck. now transitivity pre.
Qed.

Lemma plain_below_prune t path key depth ck :
  plain_below t path key depth -> plain_below (prune ck t) path key depth.
Proof.
  intros H extra n [Hn Hck]%lookup_prune.
  destruct (H extra n Hn) as (Hlink & Hopen & Hnames & Hdirs & Hlen & Hd).
  split; [assumption|]. split; [assumption|]. split; [assumption|].
  split; [|split; assumption].
  intros pre Hpre Hne. destruct (Hdirs pre Hpre Hne) as [m Hm].
  exists m. apply lookup_prune. split; [assumption|].
  intros Hcp. apply Hck. transitivity (key ++ pre); [assumption|].
  now apply prefix_app.
Qed.

(** The directory at the top is open to the shell. *)
Lemma plain_below_open t path key depth m :
  plain_below t path key depth -> t !! key = Some (Dir m) ->
  may_read m = true /\ may_write m = true /\ may_search m = true.
Proof.
  intros H Hkey. destruct (H [] (Dir m)) as (_ & Hopen & _);
    [now rewrite app_nil_r|exact Hopen].
Qed.

Lemma resolve_entry_direct t path key :
  leads_to t path key ->
  (forall target, t !! key <> Some (Symlink target)) ->
  resolve_entry t path = inr key.
Proof.
  intros Hleads Hlast.
  pose proof (resolve_direct t false path key Hleads Hlast) as H.
  destruct Hleads as (_ & Hslash & _). unfold resolve in H.
  now rewrite Hslash in H.
Qed.

(** *** The loop over the names of a directory *)

(** The [readdir] loop of [recursive_delete], with [rec] for the
    recursive call. *)
Definition delete_entries (rec : string -> Z -> world -> world)
    (path : string) (depth : Z) : list string -> world -> bool * world :=
  fix each (names : list string) (w : world) : bool * world :=
    match names with
    | [] => (false, w)
    | d_name :: names' =>
        if String.eqb d_name "." || String.eqb d_name ".." then each names' w
        else
          let full_path := join path d_name in
          if too_long full_path then
            (true, eprint "recursive_delete: path too long" w)
          else each names' (rec full_path (depth + 1)%Z w)
    end.

Lemma recursive_delete_rec_dir fuel path depth w m names :
  (depth <= MAX_RECURSION)%Z ->
  sys_stat path (fs w) = inr (Dir m) ->
  sys_opendir path (fs w) = inr names ->
  recursive_delete_rec (S fuel) path depth w
  = let '(returned, w) :=
      delete_entries (recursive_delete_rec fuel) path depth names w in
    if returned then w
    else match sys_rmdir path (fs w) with
         | inl e => perror "rmdir failed" e w
         | inr t => with_fs t w
         end.
Proof.
  intros Hd Hstat Hopen. apply Z.ltb_ge in Hd.
  cbn [recursive_delete_rec]. rewrite Hd, Hstat. cbn [S_ISDIR].
  rewrite Hopen. reflexivity.
Qed.

Lemma recursive_delete_rec_file fuel path depth w m data :
  (depth <= MAX_RECURSION)%Z ->
  sys_stat path (fs w) = inr (File m data) ->
  recursive_delete_rec fuel path depth w
  = match sys_unlink path (fs w) with
    | inl e => perror "unlink failed" e w
    | inr t => with_fs t w
    end.
Proof.
  intros Hd Hstat. apply Z.ltb_ge in Hd.
  destruct fuel; cbn [recursive_delete_rec]; now rewrite Hd, Hstat.
Qed.

Section Below.

Variable path : string.
Variable key : list string.
Variable depth : Z.

Abbreviation child name := (key ++ [name]).

(** The tree without the entries [names] of the directory [key] and all
    that lies below them. *)
Definition prune_all (names : list string) (t : tree) : tree :=
  foldl (fun t name => prune (child name) t) t names.

Lemma lookup_prune_all names t k n :
  prune_all names t !! k = Some n
  <-> t !! k = Some n /\ forall name, name ∈ names -> ~ child name `prefix_of` k.
Proof.
  revert t. induction names as [|name names IH]; intros t; cbn [prune_all foldl].
  - split; [intros H; split; [assumption|]|tauto].
    intros name Hin. now apply elem_of_nil in Hin.
  - fold (prune_all names (prune (child name) t)). rewrite IH, lookup_prune.
    split.
    + intros [[Hn Hname] Hnames]. split; [assumption|].
      intros x [->|Hx]%elem_of_cons; auto.
    + intros [Hn Hnames]. repeat split; auto using list_elem_of_here.
      intros x Hx. apply Hnames. now apply list_elem_of_further.
Qed.

Lemma child_not_above name : ~ child name `prefix_of` key.
Proof.
  intros H. apply prefix_length in H. rewrite length_app in H. simpl in H. lia.
Qed.

Lemma child_prefix_child name name' :
  child name `prefix_of` child name' -> name = name'.
Proof.
  intros H. apply prefix_same_length in H; [|now rewrite !length_app].
  now apply app_inj_tail in H.
Qed.

(** What the recursive call does to every entry of the directory. *)
Variable rec : string -> Z -> world -> world.

Hypothesis rec_prunes :
  forall name w n,
    leads_to (fs w) (join path name) (child name) ->
    fs w !! child name = Some n ->
    plain_below (fs w) (join path name) (child name) (depth + 1) ->
    cannot_alter (fs w) key = None ->
    rec (join path name) (depth + 1)%Z w = with_fs (prune (child name) (fs w)) w.

Lemma delete_entries_prunes names w m :
  NoDup names ->
  (forall name, name ∈ names -> is_Some (fs w !! child name)) ->
  leads_to (fs w) path key ->
  fs w !! key = Some (Dir m) ->
  plain_below (fs w) path key depth ->
  delete_entries rec path depth names w
  = (false, with_fs (prune_all names (fs w)) w).
Proof.
  intros Hnodup. revert w.
  induction Hnodup as [|name names Hname Hnodup IH];
    intros w Hin Hleads Hkey Hplain.
  - cbn [delete_entries prune_all foldl]. now destruct w.
  - destruct (Hin name) as [n Hn]; [apply list_elem_of_here|].
    destruct (Hplain [name] n Hn) as (_ & _ & Hnames & _ & Hlen & _).
    inversion Hnames as [|? ? Hgood _]; subst.
    pose proof Hgood as (_ & Hdot & Hdots & _).
    apply String.eqb_neq in Hdot, Hdots.
    cbn [delete_entries]. rewrite Hdot, Hdots. cbn [orb].
    cbn [path_to foldl] in Hlen. unfold too_long.
    replace (MAX_PATH <=? String.length (join path name))%nat with false
      by (symmetry; apply Nat.leb_gt; exact Hlen).
    destruct (plain_below_open _ _ _ _ _ Hplain Hkey) as (Hmr & Hmw & Hmx).
    rewrite (rec_prunes name w n);
      [|apply leads_to_child;
        [assumption|now exists m|assumption|now apply fits_path_max]
       |assumption
       |now apply plain_below_child
       |unfold cannot_alter; now rewrite Hkey, Hmw, Hmx].
    fold (delete_entries rec path depth).
    rewrite (IH (with_fs (prune (child name) (fs w)) w)).
    + reflexivity.
    + intros x Hx. destruct (Hin x) as [nx Hnx];
        [now apply list_elem_of_further|].
      exists nx. cbn [with_fs fs]. apply lookup_prune. split; [assumption|].
      intros Hp. apply child_prefix_child in Hp. now subst x.
    + apply leads_to_prune; [assumption|apply child_not_above].
    + cbn [with_fs fs]. apply lookup_prune. split; [assumption|].
      apply child_not_above.
    + now apply plain_below_prune.
Qed.

(** Once the entries are gone the directory can be removed, and what is
    left is the tree without [key] and all below it. *)
Lemma prune_all_entries t m :
  t !! key = Some (Dir m) ->
  plain_below t path key depth ->
  entries (prune_all (entries t key) t) key = [] /\
  delete key (prune_all (entries t key) t) = prune key t.
Proof.
  intros Hkey Hplain. split.
  - destruct (entries (prune_all _ t) key) as [|x l] eqn:E; [reflexivity|].
    assert (Hx : x ∈ entries (prune_all (entries t key) t) key)
      by (rewrite E; apply list_elem_of_here).
    apply elem_of_entries in Hx as [n Hn].
    apply lookup_prune_all in Hn as [Hn Hnot].
    destruct (Hnot x); [|reflexivity].
    apply elem_of_entries. eauto.
  - apply map_eq. intros k.
    destruct (decide (key `prefix_of` k)) as [Hk|Hk].
    + rewrite lookup_prune_below by assumption.
      destruct Hk as [extra ->]. destruct extra as [|x rest].
      * rewrite app_nil_r. apply lookup_delete_eq.
      * rewrite lookup_delete_ne
          by (intros E; apply (f_equal length) in E;
              rewrite length_app in E; simpl in E; lia).
        destruct (prune_all _ t !! (key ++ x :: rest)) as [n|] eqn:E;
          [|reflexivity].
        apply lookup_prune_all in E as [Hn Hnot].
        destruct (Hnot x).
        -- apply elem_of_entries.
           destruct rest as [|y rest]; [eauto|].
           destruct (Hplain _ _ Hn) as (_ & _ & _ & Hdirs & _).
           destruct (Hdirs [x]) as [mx Hmx];
             [now exists (y :: rest)|discriminate|eauto].
        -- exists rest. now rewrite <- app_assoc.
    + rewrite lookup_prune_other by assumption.
      rewrite lookup_delete_ne by (intros <-; now apply Hk).
      apply option_eq. intros n. rewrite lookup_prune_all.
      split; [tauto|]. intros Hn. split; [assumption|].
      intros name _ Hp. apply Hk. transitivity (child name); [|assumption].
      now apply prefix_app_r.
Qed.

End Below.

Lemma leads_to_prune_all path key names t :
  leads_to t path key -> leads_to (prune_all key names t) path key.
Proof.
  revert t. induction names as [|name names IH]; intros t H; [exact H|].
  cbn [prune_all foldl]. apply IH, leads_to_prune; [exact H|].
  apply child_not_above.
Qed.

Lemma lookup_prune_all_above key names t k :
  length k <= length key -> prune_all key names t !! k = t !! k.
Proof.
  intros Hk. apply option_eq. intros n. rewrite lookup_prune_all.
  split; [tauto|]. intros Hn. split; [assumption|].
  intros name _ Hp. apply prefix_length in Hp. rewrite length_app in Hp.
  simpl in Hp. lia.
Qed.

Lemma length_removelast_le (key : list string) :
  length (removelast key) <= length key.
Proof.
  destruct key as [|x key _] using rev_ind; [reflexivity|].
  rewrite removelast_last, length_app. lia.
Qed.

(** *** The whole tree goes *)

Lemma delete_file_is_prune t path key depth m data :
  t !! key = Some (File m data) ->
  plain_below t path key depth ->
  delete key t = prune key t.
Proof.
  intros Hkey Hplain. apply map_eq. intros k.
  destruct (decide (key `prefix_of` k)) as [Hk|Hk].
  - rewrite lookup_prune_below by assumption.
    destruct Hk as [extra ->]. destruct extra as [|x rest].
    + rewrite app_nil_r. apply lookup_delete_eq.
    + rewrite lookup_delete_ne
        by (intros E; apply (f_equal length) in E;
            rewrite length_app in E; simpl in E; lia).
      destruct (t !! (key ++ x :: rest)) as [n|] eqn:E; [|reflexivity].
      destruct (Hplain _ _ E) as (_ & _ & _ & Hdirs & _).
      destruct (Hdirs []) as [mx Hmx];
        [apply prefix_nil|discriminate|].
      rewrite app_nil_r in Hmx. congruence.
  - rewrite lookup_prune_other by assumption.
    apply lookup_delete_ne. intros <-. now apply Hk.
Qed.

Lemma recursive_delete_rec_prunes fuel path key depth w n :
  levels depth <= fuel ->
  leads_to (fs w) path key ->
  fs w !! key = Some n ->
  plain_below (fs w) path key depth ->
  cannot_alter (fs w) (removelast key) = None ->
  recursive_delete_rec fuel path depth w = with_fs (prune key (fs w)) w.
Proof.
  revert path key depth w n.
  induction fuel as [|fuel IH];
    intros path key depth w n Hfuel Hleads Hkey Hplain Hparent;
    (destruct (Hplain [] n) as (Hlink & _ & _ & _ & _ & Hd);
       [now rewrite app_nil_r|]);
    simpl in Hd; rewrite Z.add_0_r in Hd;
    (assert (Hnolink : forall target, fs w !! key <> Some (Symlink target))
       by (rewrite Hkey; intros target [= ->]; now destruct (Hlink target)));
    pose proof (resolve_direct _ true _ _ Hleads Hnolink) as Hres;
    pose proof (resolve_direct _ false _ _ Hleads Hnolink) as Hres';
    pose proof (last_type_direct _ _ _ Hleads) as Hlast;
    pose proof Hleads as (_ & Hslash & _);
    (destruct n as [m data|m|target]; [| |now destruct (Hlink target)]);
    try (rewrite (recursive_delete_rec_file _ _ _ _ m data Hd)
           by (unfold sys_stat; now rewrite Hres, Hkey);
         rewrite (sys_unlink_entry path (fs w) key (File m data)) by auto;
         f_equal; eapply delete_file_is_prune; eassumption).
  - rewrite levels_next in Hfuel by assumption. lia.
  - destruct (plain_below_open _ _ _ _ _ Hplain Hkey) as (Hr & Hw & Hx).
    rewrite (recursive_delete_rec_dir _ _ _ _ m
               ("." :: ".." :: entries (fs w) key) Hd);
      [|unfold sys_stat; now rewrite Hres, Hkey
       |unfold sys_opendir; now rewrite Hres, Hkey, Hr].
    change (delete_entries ?r path depth ("." :: ".." :: ?l) w)
      with (delete_entries r path depth l w).
    rewrite (delete_entries_prunes path key depth (recursive_delete_rec fuel))
      with (m := m); try assumption.
    + destruct (prune_all_entries path key depth (fs w) m Hkey Hplain)
        as [Hempty Hgone].
      unfold sys_rmdir. cbn [with_fs fs].
      rewrite (resolve_entry_direct _ path key).
      * assert (Hdir : prune_all key (entries (fs w) key) (fs w) !! key
                       = Some (Dir m))
          by (now rewrite lookup_prune_all_above).
        rewrite Hlast, Hdir. unfold cannot_alter.
        rewrite lookup_prune_all_above by apply length_removelast_le.
        unfold cannot_alter in Hparent.
        destruct (fs w !! removelast key) as [[m0 d0|m0|t0]|];
          try discriminate.
        destruct (may_write m0 && may_search m0); [|discriminate].
        cbn [S_ISDIR]. now rewrite Hempty, Hgone.
      * now apply leads_to_prune_all.
      * intros target Ht. apply lookup_prune_all in Ht as [Ht _]. congruence.
    + intros name w' n' Hl Hn Hp Hdir. apply (IH _ _ _ _ n'); try assumption.
      * rewrite levels_next in Hfuel by assumption. lia.
      * now rewrite removelast_last.
    + apply NoDup_entries.
    + intros name Hname. now apply elem_of_entries.
Qed.


(** *** The theorem at a concrete tree *)

(** A project directory with a file and a subdirectory, beside a file that
    is not part of it. *)
Definition project : tree :=
  {[ [] := Dir 493; ["notes"] := File 420 "to do";
     ["proj"] := Dir 493; ["proj"; "README"] := File 420 "read me";
     ["proj"; "src"] := Dir 493;
     ["proj"; "src"; "main.c"] := File 420 "int main" ]}.

Definition in_project : world := mkWorld project 1000 [] [].

Lemma project_leads_to : leads_to project "proj" ["proj"].
Proof.
  split; [reflexivity|]. split; [reflexivity|].
  split; [apply Nat.ltb_lt; reflexivity|]. split; [discriminate|]. split.
  - repeat constructor; discriminate.
  - intros pre [k Hk] Hne. destruct pre as [|a [|b pre]];
      simplify_eq/=; try congruence; now exists 493%Z.
Qed.

Lemma project_plain_below : plain_below project "proj" ["proj"] 0.
Proof.
  intros extra n H. apply elem_of_map_to_list in H.
  vm_compute (map_to_list project) in H.
  repeat (apply elem_of_cons in H as [H|H]); [..|now apply elem_of_nil in H];
    simplify_eq/=;
    (split; [discriminate|]);
    (split; [first [exact I | now repeat split]|]);
    (split; [repeat constructor; discriminate|]);
    (split; [|split; [apply Nat.ltb_lt; reflexivity|vm_compute; discriminate]]);
    intros pre [k Hk] Hne;
    destruct pre as [|a [|b [|c pre]]]; simplify_eq/=;
    try congruence; eexists; reflexivity.
Qed.


End DeleteTree.

(** ** A destination that does not fit the buffer *)

Module LongDestination.
Import FileSystem TreeOps TreeOpsFacts ParserMore TreeOpsMore DeleteTree.

Fixpoint repeated (n : nat) (c : ascii) : string :=
  match n with
  | O => ""
  | S n' => String c (repeated n' c)
  end.

(** A file [f] and two nested directories with names of 200 characters. *)
Definition dir_a : string := repeated 200 "a".
Definition dir_b : string := repeated 200 "b".

Definition deep_tree : tree :=
  {[ [] := Dir 493; ["f"] := File 420 "hello";
     [dir_a] := Dir 493; [dir_a; dir_b] := Dir 493 ]}.

(** A destination of 652 characters in the inner directory. *)
Definition long_dest : string :=
  join (join dir_a dir_b) (repeated 250 "c").

(** The name that is read from the buffer: the 110 characters of the last
    name that the buffer has room for, and the bytes behind the buffer. *)
Definition cut_name (garbage : string) : string :=
  repeated 110 "c" +:+ garbage.

Lemma cut_dest garbage :
  strncpy garbage long_dest = join (join dir_a dir_b) (cut_name garbage).
Proof.
  rewrite strncpy_cuts by reflexivity.
  replace (take_string MAX_PATH long_dest)
    with (join (join dir_a dir_b) (repeated 110 "c"))
    by (vm_compute; reflexivity).
  unfold join, cut_name. now rewrite !append_assoc.
Qed.

Lemma cut_name_is_entry_name garbage :
  all_chars (fun c => negb (is_slash c)) garbage = true ->
  String.length garbage <= NAME_MAX - 110 ->
  is_entry_name (cut_name garbage).
Proof.
  intros Hslash Hlen. unfold cut_name.
  change (repeated 110 "c") with (String "c" (repeated 109 "c")).
  rewrite append_cons.
  split; [split; [discriminate|]|split; [|split]].
  - rewrite <- append_cons, all_chars_app, Hslash. reflexivity.
  - destruct (repeated 109 "c" +:+ garbage) eqn:E; [|discriminate].
    apply (f_equal String.length) in E. rewrite append_length in E.
    discriminate.
  - discriminate.
  - rewrite <- append_cons, append_length.
    change (String.length (String "c" (repeated 109 "c"))) with 110.
    unfold NAME_MAX in *. lia.
Qed.

Lemma deep_tree_inner : leads_to deep_tree (join dir_a dir_b) [dir_a; dir_b].
Proof.
  split; [vm_compute; reflexivity|]. split; [vm_compute; reflexivity|].
  split; [apply Nat.ltb_lt; vm_compute; reflexivity|].
  split; [discriminate|]. split.
  - repeat constructor; try discriminate; apply Nat.leb_le; vm_compute;
      reflexivity.
  - intros pre [k Hk] Hne. destruct pre as [|a [|b [|c pre]]];
      simplify_eq/=; try congruence; now exists 493%Z.
Qed.

Lemma deep_tree_depth (key : list string) n :
  deep_tree !! key = Some n -> length key <= 2.
Proof.
  intros H. apply elem_of_map_to_list in H.
  vm_compute (map_to_list deep_tree) in H.
  repeat (apply elem_of_cons in H as [H|H]); [..|now apply elem_of_nil in H];
    inversion H; simpl; lia.
Qed.

Lemma cut_place garbage : deep_tree !! [dir_a; dir_b; cut_name garbage] = None.
Proof.
  destruct (deep_tree !! _) as [n|] eqn:E; [|reflexivity].
  apply deep_tree_depth in E. simpl in E. lia.
Qed.

(** C4 (the code departs from the claim).  The paths that [snprintf]
    composes are checked, but the destination of a file copy that is not an
    existing directory goes through [strncpy] into the same buffer without
    any check.  [recursive_copy] of [f] to a destination of 652 characters
    in an existing directory fills the buffer with its first 512 characters
    and no terminating 0, and [open] reads on into the bytes behind the
    buffer.  When these hold no slash and are few enough for a name, nothing
    is reported and the copy is written under the name cut at 512 characters
    with these bytes behind it, not under the name that was asked for. *)
Theorem C4_long_destination_is_cut umask behind :
  all_chars (fun c => negb (is_slash c)) (behind long_dest) = true ->
  String.length (behind long_dest) <= NAME_MAX - 110 ->
  String.length long_dest = 652 /\
  too_long long_dest = true /\
  sys_stat "f" deep_tree = inr (File 420 "hello") /\
  let w := recursive_copy umask behind "f" long_dest 0
             (mkWorld deep_tree 1000 [] []) in
  stderr w = [] /\
  fs w = <[ [dir_a; dir_b; cut_name (behind long_dest)]
            := File (masked umask 420) "hello" ]> deep_tree.
Proof.
  intros Hslash Hlen.
  split; [vm_compute; reflexivity|]. split; [vm_compute; reflexivity|].
  assert (Hstat : sys_stat "f" deep_tree = inr (File 420 "hello"))
    by (vm_compute; reflexivity).
  split; [exact Hstat|].
  assert (Hd : (0 <= MAX_RECURSION)%Z) by (unfold MAX_RECURSION; lia).
  set (w0 := mkWorld deep_tree 1000 [] []).
  pose proof (cut_name_is_entry_name _ Hslash Hlen) as Hname.
  assert (Hleads : leads_to deep_tree (strncpy (behind long_dest) long_dest)
                     [dir_a; dir_b; cut_name (behind long_dest)]).
  { rewrite cut_dest.
    apply (leads_to_child deep_tree (join dir_a dir_b) [dir_a; dir_b]);
      [apply deep_tree_inner|now exists 493%Z|exact Hname|].
    unfold join. rewrite !append_length.
    destruct Hname as (_ & _ & _ & Hmax).
    change (String.length dir_a) with 200.
    change (String.length dir_b) with 200.
    change (String.length "/") with 1.
    unfold NAME_MAX, PATH_MAX in *. lia. }
  rewrite (recursive_copy_not_dir umask behind "f" long_dest 0 w0
             (File 420 "hello") Hd Hstat eq_refl).
  rewrite (copy_file_creates umask behind "f" long_dest w0 420 "hello"
             [dir_a; dir_b; cut_name (behind long_dest)]);
    [split; reflexivity|exact Hstat|reflexivity|vm_compute; reflexivity
    | | |apply cut_place|reflexivity|vm_compute; lia].
  - apply (resolve_direct _ true _ _ Hleads). intros target.
    now rewrite cut_place.
  - apply Hleads.
Qed.

(** With a 0 right behind the buffer the copy is written under the name
    cut at 512 characters; with three other bytes there, under that name
    and these bytes. *)
Lemma C4_witness :
  fs (recursive_copy usual_umask nothing_behind "f" long_dest 0
        (mkWorld deep_tree 1000 [] []))
  = <[ [dir_a; dir_b; repeated 110 "c"] := File 420 "hello" ]> deep_tree
  /\
  fs (recursive_copy usual_umask (fun _ => "#@!") "f" long_dest 0
        (mkWorld deep_tree 1000 [] []))
  = <[ [dir_a; dir_b; repeated 110 "c" +:+ "#@!"] := File 420 "hello" ]>
      deep_tree.
Proof.
  split.
  - destruct (C4_long_destination_is_cut usual_umask nothing_behind)
      as (_ & _ & _ & _ & Hfs); [reflexivity|vm_compute; lia|].
    rewrite Hfs. unfold cut_name, nothing_behind. now rewrite append_nil_r.
  - destruct (C4_long_destination_is_cut usual_umask (fun _ => "#@!"))
      as (_ & _ & _ & _ & Hfs); [reflexivity|vm_compute; lia|].
    exact Hfs.
Defined.

End LongDestination.

(** ** Copying a tree *)

Module CopyTree.
Import FileSystem TreeOps TreeOpsFacts TreeOpsMore DeleteTree.

(** *** The bytes that a copy writes *)

(** The data of the files at [key] and below, counted along the
    directories as the recursion visits them; [fuel] is the number of levels
    that are visited. *)
Fixpoint tree_size (fuel : nat) (t : tree) (key : list string) : nat :=
  match t !! key with
  | Some (File _ data) => String.length data
  | Some (Dir _) =>
      match fuel with
      | O => 0
      | S fuel' =>
          sum_list_with (fun name => tree_size fuel' t (key ++ [name]))
            (entries t key)
      end
  | _ => 0
  end.

Lemma tree_size_file fuel t key m data :
  t !! key = Some (File m data) -> tree_size fuel t key = String.length data.
Proof. intros H. destruct fuel; cbn [tree_size]; now rewrite H. Qed.

Lemma tree_size_dir fuel t key m :
  t !! key = Some (Dir m) ->
  tree_size (S fuel) t key
  = sum_list_with (fun name => tree_size fuel t (key ++ [name])) (entries t key).
Proof. intros H. cbn [tree_size]. now rewrite H. Qed.

(** [t'] has at [key] and below what [t] has. *)
Definition same_below (key : list string) (t t' : tree) : Prop :=
  forall extra, t' !! (key ++ extra) = t !! (key ++ extra).

Lemma same_below_child key name t t' :
  same_below key t t' -> same_below (key ++ [name]) t t'.
Proof. intros H extra. rewrite <- app_assoc. apply H. Qed.

Lemma entries_same key t t' :
  same_below key t t' -> entries t' key ≡ₚ entries t key.
Proof.
  intros H. apply NoDup_Permutation; try apply NoDup_entries.
  intros name. now rewrite !elem_of_entries, H.
Qed.

Lemma sum_list_with_same {A} (f g : A -> nat) l :
  (forall x, x ∈ l -> f x = g x) -> sum_list_with f l = sum_list_with g l.
Proof.
  induction l as [|x l IH]; intros H; [reflexivity|]. cbn [sum_list_with].
  rewrite (H x), IH; auto using list_elem_of_here, list_elem_of_further.
Qed.

Lemma tree_size_same fuel key t t' :
  same_below key t t' -> tree_size fuel t' key = tree_size fuel t key.
Proof.
  revert key. induction fuel as [|fuel IH]; intros key H;
    pose proof (H []) as Hkey; rewrite app_nil_r in Hkey;
    cbn [tree_size]; rewrite Hkey; [reflexivity|].
  destruct (t !! key) as [[m d|m|target]|]; try reflexivity.
  rewrite (entries_same key t t' H).
  apply sum_list_with_same. intros name _. apply IH.
  now apply same_below_child.
Qed.

Lemma leads_to_same t t' path key :
  (forall pre, pre `prefix_of` key -> pre <> key -> t' !! pre = t !! pre) ->
  leads_to t path key -> leads_to t' path key.
Proof.
  intros H (Hc & Hslash & Hlen & Hne & Hnames & Hdirs).
  split; [assumption|]. split; [assumption|]. split; [assumption|].
  split; [assumption|]. split; [assumption|].
  intros pre Hpre Hneq. unfold searchable. rewrite H by assumption.
  now apply Hdirs.
Qed.

Lemma plain_below_same t t' path key depth :
  same_below key t t' ->
  plain_below t path key depth -> plain_below t' path key depth.
Proof.
  intros H Hplain extra n Hn. rewrite H in Hn.
  destruct (Hplain extra n Hn) as (Hlink & Hopen & Hnames & Hdirs & Hlen & Hd).
  split; [assumption|]. split; [assumption|]. split; [assumption|].
  split; [|split; assumption].
  intros pre Hpre Hne. rewrite H. now apply Hdirs.
Qed.

(** Below an entry that lies in the tree, every entry on the way lies in
    the tree. *)
Lemma plain_below_on_the_way t path key depth x rest :
  plain_below t path key depth ->
  is_Some (t !! (key ++ x :: rest)) -> is_Some (t !! (key ++ [x])).
Proof.
  intros Hplain [n Hn]. destruct rest as [|y rest]; [eauto|].
  destruct (Hplain _ _ Hn) as (_ & _ & _ & Hdirs & _).
  destruct (Hdirs [x]) as [m Hm]; [now exists (y :: rest)|discriminate|eauto].
Qed.

Lemma plain_below_file t path key depth m data x rest :
  plain_below t path key depth ->
  t !! key = Some (File m data) -> t !! (key ++ x :: rest) = None.
Proof.
  intros Hplain Hkey. destruct (t !! (key ++ x :: rest)) as [n|] eqn:E;
    [|reflexivity].
  destruct (Hplain _ _ E) as (_ & _ & _ & Hdirs & _).
  destruct (Hdirs []) as [mx Hmx]; [apply prefix_nil|discriminate|].
  rewrite app_nil_r in Hmx. congruence.
Qed.

(** *** The loop over the names of a directory *)

(** The [readdir] loop of [recursive_copy], with [rec] for the recursive
    call. *)
Definition copy_entries (rec : string -> string -> Z -> world -> world)
    (src dest : string) (depth : Z) : list string -> world -> world :=
  fix each (names : list string) (w : world) : world :=
    match names with
    | [] => w
    | d_name :: names' =>
        if String.eqb d_name "." || String.eqb d_name ".." then each names' w
        else
          let src_path := join src d_name in
          let dest_path := join dest d_name in
          if too_long src_path || too_long dest_path
          then eprint "recursive_copy: path too long" w
          else each names' (rec src_path dest_path (depth + 1)%Z w)
    end.

(** What a directory and a file are copied as: the mode is the one that
    [mkdir] and [open] give under the umask. *)
Definition copy_of (umask : Z) (n : node) : node :=
  match n with
  | File m data => File (masked umask m) data
  | Dir m => Dir (masked umask m)
  | Symlink target => Symlink target
  end.

(** The umask leaves the owner's bits alone. *)
Definition owner_unmasked (umask : Z) : Prop :=
  may_read umask = false /\ may_write umask = false /\
  may_search umask = false.

Lemma masked_bit umask m bit :
  (0 <= bit)%Z -> Z.testbit S_IRWXUGO_ISVTX bit = true ->
  Z.testbit umask bit = false ->
  Z.testbit (masked umask m) bit = Z.testbit m bit.
Proof.
  intros Hbit Hkept Hmask. unfold masked.
  rewrite !Z.land_spec, Z.lnot_spec, Hkept, Hmask by assumption.
  now rewrite !andb_true_r.
Qed.

Lemma masked_dir_open umask m :
  owner_unmasked umask ->
  may_write m = true -> may_search m = true ->
  may_write (masked umask m) = true /\
  may_search (masked umask m) = true.
Proof.
  intros (_ & Hw & Hx) Hmw Hmx. unfold may_write, may_search in *.
  now rewrite !masked_bit by (try reflexivity; try assumption; lia).
Qed.

(** Neither of the two places lies in the other. *)
Definition apart (skey dkey : list string) : Prop :=
  ~ skey `prefix_of` dkey /\ ~ dkey `prefix_of` skey.

Lemma apart_below skey dkey a b :
  apart skey dkey -> ~ dkey ++ a `prefix_of` skey ++ b.
Proof.
  intros [H1 H2] H.
  destruct (prefix_weak_total dkey skey (skey ++ b)) as [Hp|Hp];
    [|now apply prefix_app_r|contradiction|contradiction].
  transitivity (dkey ++ a); [now apply prefix_app_r|assumption].
Qed.

Lemma apart_child skey dkey name :
  apart skey dkey -> apart (skey ++ [name]) (dkey ++ [name]).
Proof.
  intros [H1 H2]. split; intros [->%app_inj_tail_iff%proj1|H]%prefix_snoc_inv.
  - now apply H1.
  - apply H1. transitivity (skey ++ [name]); [now apply prefix_app_r|assumption].
  - now apply H2.
  - apply H2. transitivity (dkey ++ [name]); [now apply prefix_app_r|assumption].
Qed.

Lemma apart_sym skey dkey : apart skey dkey -> apart dkey skey.
Proof. intros [H1 H2]. now split. Qed.

Lemma not_prefix_longer (key : list string) x rest pre :
  pre `prefix_of` key -> ~ key ++ x :: rest `prefix_of` pre.
Proof.
  intros H1 H2. apply prefix_length in H1, H2.
  rewrite length_app in H2. simpl in H2. lia.
Qed.

Lemma removelast_prefix (key : list string) : removelast key `prefix_of` key.
Proof.
  destruct key as [|x key _] using rev_ind; [reflexivity|].
  rewrite removelast_last. now apply prefix_app_r.
Qed.

Lemma disk_free_new w key n :
  fs w !! key = None -> size n = 0 ->
  disk_free (with_fs (<[key := n]> (fs w)) w) = disk_free w.
Proof.
  intros Hnone Hsize. unfold disk_free. cbn [with_fs fs disk_size].
  rewrite used_insert_new by assumption. lia.
Qed.

Section WithProcess.

Variable umask : Z.
Variable behind : string -> string.

Abbreviation sys_mkdir := (sys_mkdir umask).
Abbreviation copy_file := (copy_file umask behind).
Abbreviation recursive_copy_rec := (recursive_copy_rec umask behind).
Abbreviation recursive_copy := (recursive_copy umask behind).
Abbreviation copy_of := (copy_of umask).

Lemma recursive_copy_rec_dir fuel src dest depth w m e t1 names :
  (depth <= MAX_RECURSION)%Z ->
  sys_stat src (fs w) = inr (Dir m) ->
  sys_stat dest (fs w) = inl e ->
  sys_mkdir dest m (fs w) = inr t1 ->
  sys_opendir src t1 = inr names ->
  recursive_copy_rec (S fuel) src dest depth w
  = copy_entries (recursive_copy_rec fuel) src dest depth names (with_fs t1 w).
Proof.
  intros Hd Hstat Hdest Hmk Hopen. apply Z.ltb_ge in Hd.
  cbn [TreeOps.recursive_copy_rec]. rewrite Hd, Hstat. cbn [S_ISDIR st_mode].
  rewrite Hdest, Hmk. cbn [with_fs fs]. rewrite Hopen. reflexivity.
Qed.

Lemma recursive_copy_rec_file fuel src dest depth w m data :
  (depth <= MAX_RECURSION)%Z ->
  sys_stat src (fs w) = inr (File m data) ->
  recursive_copy_rec fuel src dest depth w
  = copy_file src dest (File m data) w.
Proof.
  intros Hd Hstat. apply Z.ltb_ge in Hd.
  destruct fuel; cbn [TreeOps.recursive_copy_rec]; now rewrite Hd, Hstat.
Qed.

(** *** What a copy leaves behind *)

(** From [w] to [w'] all that lies at [skey] and below has been copied to
    [dkey]: the tree has there a copy of each entry, every entry elsewhere
    is as it was, [size] bytes of the disk have been taken, and nothing is
    printed. *)
Definition copied (skey dkey : list string) (size : nat) (w w' : world)
  : Prop :=
  (forall extra,
      fs w' !! (dkey ++ extra) = copy_of <$> fs w !! (skey ++ extra)) /\
  (forall k, ~ dkey `prefix_of` k -> fs w' !! k = fs w !! k) /\
  disk_free w' = disk_free w - size /\
  stdout w' = stdout w /\ stderr w' = stderr w.

(** Every file at [skey] and below may be read. *)
Definition readable_below (t : tree) (skey : list string) : Prop :=
  forall extra m data,
    t !! (skey ++ extra) = Some (File m data) -> may_read m = true.

(** What [recursive_copy] asks of the two places. *)
Definition ready (src dest : string) (skey dkey : list string) (depth : Z)
    (t : tree) : Prop :=
  leads_to t src skey /\ plain_below t src skey depth /\
  readable_below t skey /\
  leads_to t dest dkey /\ cannot_alter t (removelast dkey) = None /\
  (forall extra, t !! (dkey ++ extra) = None) /\
  (forall extra, is_Some (t !! (skey ++ extra)) ->
                 String.length (path_to dest extra) < MAX_PATH) /\
  ~ skey `prefix_of` dkey.

Lemma ready_apart src dest skey dkey depth t :
  ready src dest skey dkey depth t -> is_Some (t !! skey) -> apart skey dkey.
Proof.
  intros (_ & _ & _ & _ & _ & Hfree & _ & Hnot) [n Hn]. split; [assumption|].
  intros [extra ->]. rewrite Hfree in Hn. discriminate.
Qed.

Lemma readable_below_child t skey name :
  readable_below t skey -> readable_below t (skey ++ [name]).
Proof. intros H extra m data. rewrite <- app_assoc. apply H. Qed.

Lemma readable_below_same t t' skey :
  same_below skey t t' -> readable_below t skey -> readable_below t' skey.
Proof. intros Hsame H extra m data. rewrite Hsame. apply H. Qed.

Lemma copy_file_copied src dest skey dkey depth w m data :
  ready src dest skey dkey depth (fs w) ->
  fs w !! skey = Some (File m data) ->
  String.length data <= disk_free w ->
  copied skey dkey (String.length data) w (copy_file src dest (File m data) w).
Proof.
  intros (Hsrc & Hplain & Hread & Hdest & Hparent & Hfree & Hfits & Hnot)
    Hkey Hroom.
  assert (Hnone : fs w !! dkey = None)
    by (rewrite <- (app_nil_r dkey); apply Hfree).
  rewrite (copy_file_new_name umask behind src dest w m data dkey);
    try assumption.
  - split; [|split; [|split; [|now cbn]]].
    + intros [|x rest]; cbn [with_fs fs].
      * now rewrite !app_nil_r, lookup_insert_eq, Hkey.
      * rewrite lookup_insert_ne
          by (intros E; apply (f_equal length) in E;
              rewrite length_app in E; simpl in E; lia).
        rewrite Hfree.
        now rewrite (plain_below_file _ _ _ _ _ _ x rest Hplain Hkey).
    + intros k Hk. cbn [with_fs fs]. apply lookup_insert_ne. intros <-.
      now apply Hk.
    + unfold disk_free. cbn [with_fs fs disk_size].
      rewrite used_insert_new by assumption. cbn [size]. lia.
  - unfold sys_stat. rewrite (resolve_direct _ true _ _ Hsrc), Hkey;
      [reflexivity|]. intros target. rewrite Hkey. discriminate.
  - apply (Hread [] m data). now rewrite app_nil_r.
  - apply (resolve_direct _ true _ _ Hdest). intros target. now rewrite Hnone.
  - apply Hdest.
  - apply (Hfits []). rewrite app_nil_r. eauto.
Qed.

Section Below.

Variable src dest : string.
Variable skey dkey : list string.
Variable depth : Z.
Variable fuel : nat.
Variable rec : string -> string -> Z -> world -> world.

Hypothesis rec_copies :
  forall name w n,
    ready (join src name) (join dest name) (skey ++ [name]) (dkey ++ [name])
      (depth + 1) (fs w) ->
    fs w !! (skey ++ [name]) = Some n ->
    tree_size fuel (fs w) (skey ++ [name]) <= disk_free w ->
    copied (skey ++ [name]) (dkey ++ [name])
      (tree_size fuel (fs w) (skey ++ [name])) w
      (rec (join src name) (join dest name) (depth + 1)%Z w).

(** The bytes of the entries [names] of the source directory. *)
Definition size_of (names : list string) (t : tree) : nat :=
  sum_list_with (fun name => tree_size fuel t (skey ++ [name])) names.

(** From [w] to [w'] the entries [names] of the directory [skey] have
    been copied to the directory [dkey]. *)
Definition copied_all (names : list string) (w w' : world) : Prop :=
  (forall name, name ∈ names -> forall extra,
      fs w' !! (dkey ++ name :: extra)
      = copy_of <$> fs w !! (skey ++ name :: extra)) /\
  (forall k, (forall name, name ∈ names -> ~ dkey ++ [name] `prefix_of` k) ->
             fs w' !! k = fs w !! k) /\
  disk_free w' = disk_free w - size_of names (fs w) /\
  stdout w' = stdout w /\ stderr w' = stderr w.

(** What the loop asks of the two directories. *)
Definition in_dir (names : list string) (w : world) : Prop :=
  leads_to (fs w) src skey /\ plain_below (fs w) src skey depth /\
  readable_below (fs w) skey /\
  leads_to (fs w) dest dkey /\
  (exists m, fs w !! skey = Some (Dir m)) /\
  (exists m, fs w !! dkey = Some (Dir m) /\
             may_write m = true /\ may_search m = true) /\
  apart skey dkey /\
  (forall name, name ∈ names -> is_Some (fs w !! (skey ++ [name]))) /\
  (forall name, name ∈ names -> forall extra,
      fs w !! (dkey ++ name :: extra) = None) /\
  (forall extra, is_Some (fs w !! (skey ++ extra)) ->
                 String.length (path_to dest extra) < MAX_PATH) /\
  size_of names (fs w) <= disk_free w.

Lemma copy_entries_copied names :
  NoDup names ->
  forall w, in_dir names w ->
            copied_all names w (copy_entries rec src dest depth names w).
Proof.
  induction 1 as [|name names Hname Hnodup IH]; intros w Hin.
  - cbn [copy_entries]. split; [|split; [|split; [|now split]]].
    + intros name Hn. now apply elem_of_nil in Hn.
    + reflexivity.
    + unfold size_of. cbn [sum_list_with]. lia.
  - destruct Hin as (Hsrc & Hplain & Hread & Hdest & [ms Hskey]
                     & (md & Hdkey & Hdw & Hdx) & Hapart
                     & Hthere & Hfree & Hfits & Hroom).
    destruct (Hthere name) as [n Hn]; [apply list_elem_of_here|].
    destruct (Hplain [name] n Hn) as (_ & _ & Hnames & _ & Hlen & _).
    inversion Hnames as [|? ? Hgood _]; subst.
    pose proof Hgood as (_ & Hdot & Hdots & _).
    apply String.eqb_neq in Hdot, Hdots.
    cbn [copy_entries]. rewrite Hdot, Hdots. cbn [orb].
    cbn [path_to foldl] in Hlen.
    assert (Hlen' : String.length (join dest name) < MAX_PATH)
      by (apply (Hfits [name]); eauto).
    unfold too_long.
    replace (MAX_PATH <=? String.length (join src name))%nat with false
      by (symmetry; apply Nat.leb_gt; exact Hlen).
    replace (MAX_PATH <=? String.length (join dest name))%nat with false
      by (symmetry; apply Nat.leb_gt; exact Hlen').
    cbn [orb]. fold (copy_entries rec src dest depth).
    unfold size_of in Hroom. cbn [sum_list_with] in Hroom.
    fold (size_of names (fs w)) in Hroom.
    set (w1 := rec (join src name) (join dest name) (depth + 1)%Z w).
    destruct (plain_below_open _ _ _ _ _ Hplain Hskey) as (Hsr & Hsw & Hsx).
    assert (Hchild : copied (skey ++ [name]) (dkey ++ [name])
                       (tree_size fuel (fs w) (skey ++ [name])) w w1).
    { apply (rec_copies name w n); [|assumption|lia].
      split; [apply leads_to_child;
              [assumption|now exists ms|assumption|now apply fits_path_max]|].
      split; [now apply plain_below_child|].
      split; [now apply readable_below_child|].
      split; [apply leads_to_child;
              [assumption|now exists md|assumption|now apply fits_path_max]|].
      split; [rewrite removelast_last; unfold cannot_alter;
              now rewrite Hdkey, Hdw, Hdx|].
      split; [intros extra; rewrite <- app_assoc; apply Hfree,
                list_elem_of_here|].
      split; [|exact (proj1 (apart_child skey dkey name Hapart))].
      intros extra Hextra. rewrite <- app_assoc in Hextra.
      apply (Hfits (name :: extra)), Hextra. }
    destruct Hchild as (Hcopy & Hother & Hdisk & Hout & Herr).
    assert (Hsame : same_below skey (fs w) (fs w1)).
    { intros extra. apply Hother. now apply apart_below. }
    assert (Hsize : size_of names (fs w1) = size_of names (fs w)).
    { apply sum_list_with_same. intros x _. apply tree_size_same.
      now apply same_below_child. }
    destruct (IH w1) as (Hcopy' & Hother' & Hdisk' & Hout' & Herr').
    { split; [|split; [|split; [|split; [|split; [|split;
        [|split; [assumption|]]]]]]].
      - eapply leads_to_same; [|exact Hsrc]. intros pre Hpre _. apply Hother.
        intros Hp. apply (apart_below skey dkey [name] [] Hapart).
        rewrite app_nil_r. now transitivity pre.
      - now apply (plain_below_same (fs w)).
      - now apply (readable_below_same (fs w)).
      - eapply leads_to_same; [|exact Hdest]. intros pre Hpre _. apply Hother.
        now apply not_prefix_longer.
      - exists ms. rewrite <- Hskey, <- (app_nil_r skey). apply Hsame.
      - exists md. split; [|now split]. rewrite <- Hdkey. apply Hother.
        now apply not_prefix_longer.
      - split; [|split; [|split]].
        + intros x Hx. rewrite Hsame. now apply Hthere, list_elem_of_further.
        + intros x Hx extra. rewrite Hother.
          * now apply Hfree, list_elem_of_further.
          * intros Hp. assert (name = x); [|now subst x].
            destruct Hp as [k Hk]. rewrite <- !app_assoc in Hk.
            apply app_inv_head in Hk. now inversion Hk.
        + intros extra. rewrite Hsame. apply Hfits.
        + rewrite Hsize, Hdisk. lia. }
    split; [|split; [|split; [|split; congruence]]].
    + intros x [->|Hx]%elem_of_cons extra.
      * rewrite Hother'.
        -- pose proof (Hcopy extra) as Hc. rewrite <- !app_assoc in Hc.
           exact Hc.
        -- intros y Hy Hp. assert (y = name); [|now subst y].
           destruct Hp as [k Hk]. rewrite <- !app_assoc in Hk.
           apply app_inv_head in Hk. now inversion Hk.
      * rewrite (Hcopy' x Hx). f_equal. apply Hother. now apply apart_below.
    + intros k Hk. rewrite Hother'.
      * apply Hother, Hk, list_elem_of_here.
      * intros x Hx. now apply Hk, list_elem_of_further.
    + unfold size_of at 1. cbn [sum_list_with]. fold (size_of names (fs w)).
      rewrite Hdisk', Hsize, Hdisk. lia.
Qed.

End Below.

(** *** The whole tree is copied *)

Hypothesis umask_ok : owner_unmasked umask.

Lemma recursive_copy_rec_copied fuel src dest skey dkey depth w n :
  levels depth <= fuel ->
  ready src dest skey dkey depth (fs w) ->
  fs w !! skey = Some n ->
  tree_size fuel (fs w) skey <= disk_free w ->
  copied skey dkey (tree_size fuel (fs w) skey) w
    (recursive_copy_rec fuel src dest depth w).
Proof.
  revert src dest skey dkey depth w n.
  induction fuel as [|fuel IH];
    intros src dest skey dkey depth w n Hfuel Hready Hkey Hroom;
    pose proof (ready_apart _ _ _ _ _ _ Hready (mk_is_Some _ _ Hkey)) as Hapart;
    pose proof Hready
      as (Hsrc & Hplain & Hread & Hdest & Hparent & Hfree & Hfits & Hnot);
    (destruct (Hplain [] n) as (Hlink & _ & _ & _ & _ & Hd);
       [now rewrite app_nil_r|]);
    simpl in Hd; rewrite Z.add_0_r in Hd;
    (destruct n as [m data|m|target]; [| |now destruct (Hlink target)]);
    try (rewrite (recursive_copy_rec_file _ _ _ _ _ m data Hd)
           by (unfold sys_stat;
               rewrite (resolve_direct _ true _ _ Hsrc), Hkey;
               [reflexivity|intros target; rewrite Hkey; discriminate]);
         rewrite (tree_size_file _ _ _ _ _ Hkey) in Hroom |- *;
         eapply copy_file_copied; eassumption).
  - rewrite levels_next in Hfuel by assumption. lia.
  - assert (Hnone : fs w !! dkey = None)
      by (rewrite <- (app_nil_r dkey); apply Hfree).
    assert (Hres : forall fl, resolve (fs w) fl src = inr skey).
    { intros fl. apply (resolve_direct _ fl _ _ Hsrc). intros target.
      rewrite Hkey. discriminate. }
    assert (Hdres : forall fl, resolve (fs w) fl dest = inr dkey).
    { intros fl. apply (resolve_direct _ fl _ _ Hdest). intros target.
      now rewrite Hnone. }
    destruct (plain_below_open _ _ _ _ _ Hplain Hkey) as (Hmr & Hmw & Hmx).
    destruct (masked_dir_open umask m umask_ok Hmw Hmx) as [Hdw Hdx].
    set (md := masked umask m) in *.
    set (t1 := <[dkey := Dir md]> (fs w)).
    assert (Hsame : same_below skey (fs w) t1).
    { intros extra. apply lookup_insert_ne. intros ->. apply Hnot.
      now apply prefix_app_r. }
    assert (Hskey1 : t1 !! skey = Some (Dir m))
      by (rewrite <- Hkey, <- (app_nil_r skey); apply Hsame).
    assert (Hsrc1 : leads_to t1 src skey).
    { eapply leads_to_same; [|exact Hsrc]. intros pre Hpre _.
      apply lookup_insert_ne. intros ->. now destruct Hapart. }
    assert (Hdest1 : leads_to t1 dest dkey).
    { eapply leads_to_same; [|exact Hdest]. intros pre Hpre Hne.
      now apply lookup_insert_ne. }
    assert (Hsize : size_of skey fuel (entries t1 skey) t1
                    = tree_size (S fuel) (fs w) skey).
    { rewrite (tree_size_dir _ _ _ _ Hkey). unfold size_of.
      rewrite (entries_same skey (fs w) t1 Hsame).
      apply sum_list_with_same. intros name _. apply tree_size_same.
      now apply same_below_child. }
    assert (Hfree1 : disk_free (with_fs t1 w) = disk_free w)
      by now apply disk_free_new.
    rewrite (recursive_copy_rec_dir _ _ _ _ _ m ENOENT t1
               ("." :: ".." :: entries t1 skey) Hd);
      [|unfold sys_stat; now rewrite Hres, Hkey
       |unfold sys_stat; now rewrite Hdres, Hnone
       |unfold FileSystem.sys_mkdir;
        rewrite (resolve_entry_direct _ _ _ Hdest),
          (last_type_direct _ _ _ Hdest), Hnone, Hparent;
        [reflexivity|intros target; now rewrite Hnone]
       |unfold sys_opendir;
        rewrite (resolve_direct _ true _ _ Hsrc1), Hskey1, Hmr;
        [reflexivity|intros target; rewrite Hskey1; discriminate]].
    change (copy_entries ?r src dest depth ("." :: ".." :: ?l) ?w0)
      with (copy_entries r src dest depth l w0).
    destruct (copy_entries_copied src dest skey dkey depth fuel
                (recursive_copy_rec fuel)) with
      (names := entries t1 skey) (w := with_fs t1 w)
      as (Hcopy & Hother & Hdisk & Hout & Herr).
    + intros name w' n' Hready' Hn' Hroom'.
      apply (IH _ _ _ _ _ _ n'); try assumption.
      rewrite levels_next in Hfuel by assumption. lia.
    + apply NoDup_entries.
    + unfold in_dir. rewrite Hfree1. cbn [with_fs fs].
      split; [assumption|]. split; [now apply (plain_below_same (fs w))|].
      split; [now apply (readable_below_same (fs w))|].
      split; [assumption|]. split; [eauto|].
      split; [exists md; split; [apply lookup_insert_eq|now split]|].
      split; [assumption|].
      split; [intros name; now rewrite elem_of_entries|].
      split; [|split; [|now rewrite Hsize]].
      * intros name _ extra. unfold t1. rewrite lookup_insert_ne; [apply Hfree|].
        intros E. apply (f_equal length) in E.
        rewrite length_app in E. simpl in E. lia.
      * intros extra. rewrite Hsame. apply Hfits.
    + unfold copied. rewrite Hfree1 in Hdisk.
      cbn [with_fs fs stdout stderr] in *.
      split; [|split; [|split; [|now split]]].
      * intros [|x rest].
        -- rewrite !app_nil_r, Hother, Hkey; [apply lookup_insert_eq|].
           intros name _. now apply not_prefix_longer.
        -- destruct (decide (x ∈ entries t1 skey)) as [Hx|Hx].
           ++ now rewrite (Hcopy x Hx), Hsame.
           ++ rewrite Hother.
              ** unfold t1. rewrite lookup_insert_ne, Hfree.
                 --- destruct (fs w !! (skey ++ x :: rest)) eqn:E;
                       [|reflexivity].
                     destruct Hx. apply elem_of_entries. rewrite Hsame.
                     eapply plain_below_on_the_way; eauto.
                 --- intros E. apply (f_equal length) in E.
                     rewrite length_app in E. simpl in E. lia.
              ** intros name Hname [k Hk]. rewrite <- !app_assoc in Hk.
                 apply app_inv_head in Hk. inversion Hk; subst. contradiction.
      * intros k Hk. rewrite Hother.
        -- apply lookup_insert_ne. intros <-. now apply Hk.
        -- intros name _ Hp. apply Hk.
           transitivity (dkey ++ [name]); [now apply prefix_app_r|assumption].
      * now rewrite Hdisk, Hsize.
Qed.


(** *** Moving a tree *)

Section WithRename.

Variable sys_rename : string -> string -> tree -> errno + tree.

Abbreviation execute_builtin := (execute_builtin umask behind).


End WithRename.

End WithProcess.

(** *** The theorems at a concrete tree *)

Lemma usual_umask_ok : owner_unmasked usual_umask.
Proof. now repeat split. Qed.

Lemma project_readable : readable_below project ["proj"].
Proof.
  intros extra m data H. apply elem_of_map_to_list in H.
  vm_compute (map_to_list project) in H.
  repeat (apply elem_of_cons in H as [H|H]); [..|now apply elem_of_nil in H];
    simplify_eq/=; reflexivity.
Qed.

Lemma backup_leads_to : leads_to project "backup" ["backup"].
Proof.
  split; [reflexivity|]. split; [reflexivity|].
  split; [apply Nat.ltb_lt; reflexivity|]. split; [discriminate|]. split.
  - repeat constructor; discriminate.
  - intros pre [k Hk] Hne. destruct pre as [|a [|b pre]];
      simplify_eq/=; try congruence; now exists 493%Z.
Qed.

Lemma backup_is_free extra : project !! (["backup"] ++ extra) = None.
Proof.
  destruct (project !! (["backup"] ++ extra)) as [n|] eqn:H; [|reflexivity].
  apply elem_of_map_to_list in H. vm_compute (map_to_list project) in H.
  repeat (apply elem_of_cons in H as [H|H]); [..|now apply elem_of_nil in H];
    discriminate.
Qed.

Lemma backup_fits extra :
  is_Some (project !! (["proj"] ++ extra)) ->
  String.length (path_to "backup" extra) < MAX_PATH.
Proof.
  intros [n H]. apply elem_of_map_to_list in H.
  vm_compute (map_to_list project) in H.
  repeat (apply elem_of_cons in H as [H|H]); [..|now apply elem_of_nil in H];
    simplify_eq/=; apply Nat.ltb_lt; reflexivity.
Qed.



End CopyTree.



(** ** From the line to the processes *)

Module LineToProcesses.
Import Parser ParserFacts ParserMore Executor ExecutorFacts ExecutorMore.

Section WithShell.

Variable fs_match : string -> list string.
Variable glob_nospace : string -> bool.
Variable can_open : file_desc -> bool.
Variable executable : string -> bool.
Variable pipe_fails : nat -> bool.
Variable fork_fails : nat -> bool.

Abbreviation parse_command := (parse_command fs_match glob_nospace).
Abbreviation pipe_child := (pipe_child can_open executable).
Abbreviation execute_multiple_pipes :=
  (execute_multiple_pipes can_open executable pipe_fails fork_fails).

(** [execvp] finds the program of the command. *)
Definition found (ws : list string) : Prop :=
  match ws with
  | prog :: _ => executable prog = true
  | [] => False
  end.

Lemma pipe_child_plain i n pipefd ws t :
  found ws ->
  exists fds, pipe_child i n pipefd (command ws) t = Exec ws fds false.
Proof.
  intros Hfound. destruct ws as [|prog rest]; [contradiction|].
  unfold Executor.pipe_child, command. cbn [input_file output_file args].
  destruct (0 <? i)%nat, (i <? n - 1)%nat; unfold execvp; rewrite Hfound;
    eauto.
Qed.

(** A line of two to nine plain commands with pipe signs between them,
    when no [pipe] and no [fork] fails and every program is found: [main]
    hands the line to [execute_multiple_pipes], which starts one child per
    command, in order, each reaching [execvp] with exactly the words of its
    command and without a new session, and then waits for them. *)
Theorem pipeline_runs_the_typed_commands cmds t :
  2 <= length cmds <= MAX_PIPES - 1 ->
  Forall is_plain_command cmds ->
  Forall found cmds ->
  (forall k, pipe_fails k = false) ->
  (forall j, fork_fails j = false) ->
  exists p,
    main_dispatch (parse_command (render_line cmds)) = MultiplePipes p /\
    parent_end (execute_multiple_pipes p t) = Waited /\
    Forall2 (fun ws child => exists fds, child = Exec ws fds false)
      cmds (children (execute_multiple_pipes p t)).
Proof.
  intros [Hmin Hmax] Hplain Hfound Hpipes Hforks.
  exists (mkPipeline (map command cmds) false).
  assert (Hparse : parse_command (render_line cmds)
                   = ParseOk (mkPipeline (map command cmds) false)).
  { rewrite parse_command_segments, cmd_tokens_render_line by assumption.
    destruct cmds as [|ws cmds]; [simpl in Hmin; lia|].
    change (parse_segments fs_match glob_nospace
              (length (map render_command (ws :: cmds))) 0
              (map render_command (ws :: cmds)) [] false
            = ParseOk (mkPipeline ([] ++ map command (ws :: cmds)) false)).
    apply parse_segments_plain; [assumption|right; discriminate]. }
  rewrite Hparse. unfold main_dispatch, num_commands. cbn [stages background].
  rewrite length_map.
  replace (1 <? length cmds)%nat with true by (symmetry; apply Nat.ltb_lt; lia).
  split; [reflexivity|].
  unfold Executor.execute_multiple_pipes, num_commands.
  cbn [stages background]. rewrite length_map.
  destruct (plus_start t) as [H0 Hp0].
  pose proof (create_pipes_plus pipe_fails t (length cmds - 1) 0 [] t H0 Hp0)
    as Hcreate.
  destruct (create_pipes pipe_fails (length cmds - 1) 0 [] t)
    as [T'|[pipefd T]].
  { destruct Hcreate as (_ & j & _ & Hfail). rewrite Hpipes in Hfail.
    discriminate. }
  destruct (fork_children_all can_open executable fork_fails 0 (length cmds)
              pipefd (map command cmds) T) as (cs & Hcs & Hlen);
    [intros; apply Hforks|].
  pose proof (fork_children_lookup can_open executable fork_fails 0
                (length cmds) pipefd (map command cmds) T) as Hchild.
  rewrite Hcs in Hchild |- *. cbn [children parent_end fst] in *.
  split; [reflexivity|].
  apply Forall2_same_length_lookup_2; [now rewrite Hlen, length_map|].
  intros i ws c Hws Hc. destruct (Hchild i c Hc) as (st & Hst & ->).
  rewrite list_lookup_fmap, Hws in Hst. inversion Hst; subst st.
  apply pipe_child_plain. rewrite Forall_forall in Hfound.
  apply Hfound. eapply list_elem_of_lookup_2; eassumption.
Qed.

End WithShell.

Lemma pipeline_runs_the_typed_commands_witness :
  exists p,
    main_dispatch (Parser.parse_command two_c_files enough_memory
                     (render_line [["ls"; "-l"]; ["grep"; "txt"]; ["wc"]]))
    = MultiplePipes p /\
    parent_end (Executor.execute_multiple_pipes always always never never
                  p terminal_fds) = Waited /\
    Forall2 (fun ws child => exists fds, child = Exec ws fds false)
      [["ls"; "-l"]; ["grep"; "txt"]; ["wc"]]
      (children (Executor.execute_multiple_pipes always always never never
                   p terminal_fds)).
Proof.
  apply (pipeline_runs_the_typed_commands two_c_files enough_memory always
           always never never [["ls"; "-l"]; ["grep"; "txt"]; ["wc"]]
           terminal_fds);
    try reflexivity.
  - vm_compute; lia.
  - repeat constructor; try discriminate; vm_compute; lia.
  - repeat constructor.
Defined.

End LineToProcesses.
